(** * A byte-level BPE tokenizer: [bpe/base.py] and [bpe/basic.py]

    A shallow embedding of the two Python modules, followed by the
    properties of their training, encoding, decoding and persistence
    code.

    Conventions of the embedding:
    - a Python [int] is a [Z]; a [bytes] value is a list of [Z] in [0, 256);
    - a Python [str] is the list of its code points ([pystr]);
    - a Python [dict] is an association list in insertion order;
    - a raised exception is a value of [exn]; a method that assigns to
      [self] returns an [outcome] that carries the tokenizer it leaves
      behind, also when it raises. *)

From Stdlib Require Import String Ascii.
From Stdlib Require Import ZArith List Bool Lia.
From Stdlib Require Import DecimalZ DecimalPos.
From Stdlib Require Import HexadecimalN.
Import ListNotations.
Open Scope Z_scope.

(* ================================================================= *)
(** * Part I: the embedding *)

(* ----------------------------------------------------------------- *)
(** ** Exceptions and results *)

Inductive exn : Type :=
| AssertionError
| TypeError
| KeyError
| ValueError
| UnicodeEncodeError.

Inductive result (A : Type) : Type :=
| Ok (a : A)
| Raise (e : exn).

Arguments Ok {A} a.
Arguments Raise {A} e.

Definition bind {A B : Type} (r : result A) (k : A -> result B) : result B :=
  match r with
  | Ok a => k a
  | Raise e => Raise e
  end.

Notation "x <- r ;; k" := (bind r (fun x => k))
  (at level 61, r at next level, right associativity).

(* ----------------------------------------------------------------- *)
(** ** Strings and bytes *)

Definition pystr := list Z.
Definition bytes := list Z.

(** The code points of an ASCII literal. *)
Definition str_of (s : string) : pystr :=
  map (fun a => Z.of_N (N_of_ascii a)) (list_ascii_of_string s).

Fixpoint str_eqb (s t : pystr) : bool :=
  match s, t with
  | [], [] => true
  | a :: s', b :: t' => (a =? b) && str_eqb s' t'
  | _, _ => false
  end.

(** [s.endswith(suffix)] *)
Definition endswith (s suffix : pystr) : bool :=
  str_eqb (skipn (length s - length suffix) s) suffix.

(** [str.isspace] on one character: the code points Python treats as
    white space in [strip] and [split]. *)
Definition py_isspace (c : Z) : bool :=
  ((9 <=? c) && (c <=? 13)) || ((28 <=? c) && (c <=? 32))
  || (c =? 133) || (c =? 160) || (c =? 5760)
  || ((8192 <=? c) && (c <=? 8202))
  || (c =? 8232) || (c =? 8233) || (c =? 8239) || (c =? 8287)
  || (c =? 12288).

Fixpoint lstrip (s : pystr) : pystr :=
  match s with
  | [] => []
  | c :: r => if py_isspace c then lstrip r else s
  end.

Definition rstrip (s : pystr) : pystr := rev (lstrip (rev s)).

(** [s.strip()] *)
Definition strip (s : pystr) : pystr := rstrip (lstrip s).

(** [s.split()]: the maximal runs of characters that are not white
    space; [cur] is the run being read. *)
Fixpoint split_run (s cur : pystr) : list pystr :=
  match s with
  | [] => match cur with [] => [] | _ => [cur] end
  | c :: r =>
      if py_isspace c
      then match cur with [] => split_run r [] | _ => cur :: split_run r [] end
      else split_run r (cur ++ [c])
  end.

Definition split (s : pystr) : list pystr := split_run s [].

(** Strings without white space, and strings without a line break. *)
Definition nonspace (s : pystr) : Prop :=
  Forall (fun c => py_isspace c = false) s.

Definition no_break (s : pystr) : Prop :=
  Forall (fun c => c <> 10 /\ c <> 13) s.

(** *** Decimal integers

    [str(n)] and [int(s)] for base ten.  [int] accepts surrounding
    white space, a sign, and single underscores between digits; the
    digits read here are the ASCII ones (Python also converts the
    decimal digits of other scripts), and the interpreter's adjustable
    cap on the length of a conversion is left out. *)

Fixpoint uint_chars (u : Decimal.uint) : pystr :=
  match u with
  | Decimal.Nil => []
  | Decimal.D0 u => 48 :: uint_chars u
  | Decimal.D1 u => 49 :: uint_chars u
  | Decimal.D2 u => 50 :: uint_chars u
  | Decimal.D3 u => 51 :: uint_chars u
  | Decimal.D4 u => 52 :: uint_chars u
  | Decimal.D5 u => 53 :: uint_chars u
  | Decimal.D6 u => 54 :: uint_chars u
  | Decimal.D7 u => 55 :: uint_chars u
  | Decimal.D8 u => 56 :: uint_chars u
  | Decimal.D9 u => 57 :: uint_chars u
  end.

(** [str(n)] *)
Definition str_of_int (n : Z) : pystr :=
  match Z.to_int n with
  | Decimal.Pos u => uint_chars u
  | Decimal.Neg u => 45 :: uint_chars u
  end.

Definition digit_cons (c : Z) : option (Decimal.uint -> Decimal.uint) :=
  if c =? 48 then Some Decimal.D0
  else if c =? 49 then Some Decimal.D1
  else if c =? 50 then Some Decimal.D2
  else if c =? 51 then Some Decimal.D3
  else if c =? 52 then Some Decimal.D4
  else if c =? 53 then Some Decimal.D5
  else if c =? 54 then Some Decimal.D6
  else if c =? 55 then Some Decimal.D7
  else if c =? 56 then Some Decimal.D8
  else if c =? 57 then Some Decimal.D9
  else None.

(** Digits, with an underscore allowed only between two digits. *)
Fixpoint parse_uint (s : pystr) (after_digit : bool) : option Decimal.uint :=
  match s with
  | [] => if after_digit then Some Decimal.Nil else None
  | c :: r =>
      match digit_cons c with
      | Some d => option_map d (parse_uint r true)
      | None =>
          if (c =? 95) && after_digit then parse_uint r false else None
      end
  end.

(** [int(s)] *)
Definition py_int (s : pystr) : result Z :=
  let body := strip s in
  let signed :=
    match body with
    | c :: r =>
        if c =? 45 then (true, r)
        else if c =? 43 then (false, r)
        else (false, body)
    | [] => (false, body)
    end in
  match parse_uint (snd signed) false with
  | Some u =>
      Ok (Z.of_int (if fst signed then Decimal.Neg u else Decimal.Pos u))
  | None => Raise ValueError
  end.

(** *** UTF-8

    [str.encode("utf-8")] and [bytes.decode("utf-8", errors="replace")].
    Encoding refuses surrogates (UnicodeEncodeError); values outside
    the code space are no characters of a [str] and are refused as
    well.  Decoding follows the decoder's error ranges: an ill-formed
    first byte is replaced alone, a sequence cut short by a byte that
    cannot continue it is replaced up to that byte, and a sequence
    cut short by the end of the input is replaced as a whole. *)

Definition utf8_encode_char (c : Z) : result bytes :=
  if c <? 0 then Raise UnicodeEncodeError
  else if c <? 0x80 then Ok [c]
  else if c <? 0x800 then Ok [0xC0 + c / 64; 0x80 + c mod 64]
  else if c <? 0x10000 then
    if (0xD800 <=? c) && (c <=? 0xDFFF) then Raise UnicodeEncodeError
    else Ok [0xE0 + c / 4096; 0x80 + (c / 64) mod 64; 0x80 + c mod 64]
  else if c <? 0x110000 then
    Ok [0xF0 + c / 262144; 0x80 + (c / 4096) mod 64;
        0x80 + (c / 64) mod 64; 0x80 + c mod 64]
  else Raise UnicodeEncodeError.

Fixpoint utf8_encode (s : pystr) : result bytes :=
  match s with
  | [] => Ok []
  | c :: r =>
      b <- utf8_encode_char c ;;
      bs <- utf8_encode r ;;
      Ok (b ++ bs)
  end.

(** A Unicode scalar value: a code point that is no surrogate. *)
Definition is_scalar (c : Z) : bool :=
  ((0 <=? c) && (c <? 0xD800)) || ((0xE000 <=? c) && (c <? 0x110000)).

Definition replacement_char : Z := 0xFFFD.

Definition is_cont (b : Z) : bool := (0x80 <=? b) && (b <=? 0xBF).

(** The second byte a three-byte or four-byte sequence allows after
    its first byte [b0]. *)
Definition second_ok (b0 b1 : Z) : bool :=
  if b0 =? 0xE0 then (0xA0 <=? b1) && (b1 <=? 0xBF)
  else if b0 =? 0xED then (0x80 <=? b1) && (b1 <=? 0x9F)
  else if b0 =? 0xF0 then (0x90 <=? b1) && (b1 <=? 0xBF)
  else if b0 =? 0xF4 then (0x80 <=? b1) && (b1 <=? 0x8F)
  else is_cont b1.

Fixpoint utf8_decode (bs : bytes) : pystr :=
  match bs with
  | [] => []
  | b0 :: r0 =>
      if (0 <=? b0) && (b0 <? 0x80) then b0 :: utf8_decode r0
      else if (0xC2 <=? b0) && (b0 <? 0xE0) then
        match r0 with
        | [] => [replacement_char]
        | b1 :: r1 =>
            if is_cont b1
            then ((b0 - 0xC0) * 64 + (b1 - 0x80)) :: utf8_decode r1
            else replacement_char :: utf8_decode r0
        end
      else if (0xE0 <=? b0) && (b0 <? 0xF0) then
        match r0 with
        | [] => [replacement_char]
        | b1 :: r1 =>
            if second_ok b0 b1 then
              match r1 with
              | [] => [replacement_char]
              | b2 :: r2 =>
                  if is_cont b2
                  then ((b0 - 0xE0) * 4096 + (b1 - 0x80) * 64 + (b2 - 0x80))
                         :: utf8_decode r2
                  else replacement_char :: utf8_decode r1
              end
            else replacement_char :: utf8_decode r0
        end
      else if (0xF0 <=? b0) && (b0 <? 0xF5) then
        match r0 with
        | [] => [replacement_char]
        | b1 :: r1 =>
            if second_ok b0 b1 then
              match r1 with
              | [] => [replacement_char]
              | b2 :: r2 =>
                  if is_cont b2 then
                    match r2 with
                    | [] => [replacement_char]
                    | b3 :: r3 =>
                        if is_cont b3
                        then ((b0 - 0xF0) * 262144 + (b1 - 0x80) * 4096
                              + (b2 - 0x80) * 64 + (b3 - 0x80))
                               :: utf8_decode r3
                        else replacement_char :: utf8_decode r2
                    end
                  else replacement_char :: utf8_decode r1
              end
            else replacement_char :: utf8_decode r0
        end
      else replacement_char :: utf8_decode r0
  end.

(* ----------------------------------------------------------------- *)
(** ** Dictionaries

    A [dict] keeps its keys in the order of their first insertion;
    assigning to a key that is present replaces the value in place. *)

Class Key (K : Type) : Type := key_eqb : K -> K -> bool.

Definition dict (K V : Type) : Type := list (K * V).

Fixpoint dict_get {K V : Type} {KK : Key K} (d : dict K V) (k : K)
  : option V :=
  match d with
  | [] => None
  | (k', v) :: d' => if key_eqb k' k then Some v else dict_get d' k
  end.

Fixpoint dict_set {K V : Type} {KK : Key K} (d : dict K V) (k : K) (v : V)
  : dict K V :=
  match d with
  | [] => [(k, v)]
  | (k', v') :: d' =>
      if key_eqb k' k then (k', v) :: d' else (k', v') :: dict_set d' k v
  end.

Definition dict_keys {K V : Type} (d : dict K V) : list K := map fst d.

Definition dict_values {K V : Type} (d : dict K V) : list V := map snd d.

(** [d[k]], which raises KeyError when [k] is absent. *)
Definition dict_index {K V : Type} {KK : Key K} (d : dict K V) (k : K)
  : result V :=
  match dict_get d k with
  | Some v => Ok v
  | None => Raise KeyError
  end.

#[export] Instance Key_Z : Key Z := Z.eqb.

Definition pair_eqb (p q : Z * Z) : bool :=
  (fst p =? fst q) && (snd p =? snd q).

#[export] Instance Key_pair : Key (Z * Z) := pair_eqb.

#[export] Instance Key_str : Key pystr := str_eqb.

(** [min(xs, key=...)] and [max(xs, key=...)]: the first element whose
    key is least (greatest); ValueError on an empty sequence. *)
Definition py_min {A K : Type} (ltb : K -> K -> bool) (key : A -> K)
           (xs : list A) : result A :=
  match xs with
  | [] => Raise ValueError
  | x :: r =>
      Ok (fold_left (fun best y => if ltb (key y) (key best) then y else best)
                    r x)
  end.

Definition py_max {A K : Type} (ltb : K -> K -> bool) (key : A -> K)
           (xs : list A) : result A :=
  match xs with
  | [] => Raise ValueError
  | x :: r =>
      Ok (fold_left (fun best y => if ltb (key best) (key y) then y else best)
                    r x)
  end.

(* ----------------------------------------------------------------- *)
(** ** base.py: helper functions *)

Definition stats := dict (Z * Z) Z.

(** [zip(ids, ids[1:])] *)
Definition adjacent_pairs (ids : list Z) : list (Z * Z) :=
  combine ids (tl ids).

(** [counts.get(pair, 0)] *)
Definition count_of (counts : stats) (pair : Z * Z) : Z :=
  match dict_get counts pair with
  | Some n => n
  | None => 0
  end.

(** [get_stats(ids, counts)]: the body, once both parameters are bound.
    [counts = None] starts from an empty dictionary. *)
Definition get_stats (ids : list Z) (counts : option stats) : stats :=
  let counts := match counts with None => [] | Some c => c end in
  fold_left (fun counts p => dict_set counts p (count_of counts p + 1))
            (adjacent_pairs ids) counts.

(** How often [pair] occurs among the consecutive pairs of [ids]. *)
Definition occurrences (pair : Z * Z) (ids : list Z) : Z :=
  Z.of_nat (length (filter (pair_eqb pair) (adjacent_pairs ids))).

(** Binding of a parameter at a call: the argument when the call passes
    one, else the default the signature declares, else TypeError
    (a required positional argument is missing). *)
Definition bind_param {A : Type} (default arg : option A) : result A :=
  match arg with
  | Some a => Ok a
  | None =>
      match default with
      | Some a => Ok a
      | None => Raise TypeError
      end
  end.

(** The signature is [get_stats(ids: list, counts: dict | None)]: the
    annotation of [counts] admits [None], but the parameter is given
    no default value. *)
Definition get_stats_counts_default : option (option stats) := None.

(** [merge(ids, pair, idx)].  The cursor [i] of the [while] loop is
    kept as the unread suffix [ids[i:]]: [ids[i]] is its head, and
    [i < len(ids) - 1] says that it has a second element. *)
Fixpoint merge_scan (rest : list Z) (pair : Z * Z) (idx : Z)
         (newids : list Z) : list Z :=
  match rest with
  | [] => newids
  | x :: tl =>
      match tl with
      | y :: tl' =>
          if (x =? fst pair) && (y =? snd pair)
          then merge_scan tl' pair idx (newids ++ [idx])
          else merge_scan tl pair idx (newids ++ [x])
      | [] => merge_scan tl pair idx (newids ++ [x])
      end
  end.

Definition merge (ids : list Z) (pair : Z * Z) (idx : Z) : list Z :=
  merge_scan ids pair idx [].

(** The same pass, written by recursion on the sequence. *)
Fixpoint merge_rec (ids : list Z) (pair : Z * Z) (idx : Z) : list Z :=
  match ids with
  | [] => []
  | x :: tl =>
      match tl with
      | y :: tl' =>
          if (x =? fst pair) && (y =? snd pair)
          then idx :: merge_rec tl' pair idx
          else x :: merge_rec tl pair idx
      | [] => [x]
      end
  end.

(* ----------------------------------------------------------------- *)
(** ** base.py: the [Tokenizer] class *)

Record Tokenizer : Type := mkTokenizer {
  merges : dict (Z * Z) Z;
  patterns : pystr;
  special_tokens : dict pystr Z;
  vocab : dict Z bytes
}.

(** [self.__VERSION__]: set by [__init__], assigned nowhere else. *)
Definition VERSION : pystr := str_of "bpe v1.0".

Inductive outcome : Type :=
| Returned (self : Tokenizer)
| Raised (e : exn) (self : Tokenizer).

(** [{idx: bytes([idx]) for idx in range(256)}] *)
Definition byte_vocab : dict Z bytes :=
  map (fun i => (Z.of_nat i, [Z.of_nat i])) (seq 0 256).

(** The two loops of [_build_vocab]. *)
Fixpoint vocab_of_merges (items : list ((Z * Z) * Z)) (vocab : dict Z bytes)
  : result (dict Z bytes) :=
  match items with
  | [] => Ok vocab
  | (p, idx) :: rest =>
      b0 <- dict_index vocab (fst p) ;;
      b1 <- dict_index vocab (snd p) ;;
      vocab_of_merges rest (dict_set vocab idx (b0 ++ b1))
  end.

Fixpoint vocab_of_specials (items : list (pystr * Z)) (vocab : dict Z bytes)
  : result (dict Z bytes) :=
  match items with
  | [] => Ok vocab
  | (special, idx) :: rest =>
      b <- utf8_encode special ;;
      vocab_of_specials rest (dict_set vocab idx b)
  end.

Definition _build_vocab (merges : dict (Z * Z) Z)
           (special_tokens : dict pystr Z) : result (dict Z bytes) :=
  vocab <- vocab_of_merges merges byte_vocab ;;
  vocab_of_specials special_tokens vocab.

(** [Tokenizer.__init__]: no merges, no pattern, no special tokens. *)
Definition init : Tokenizer :=
  {| merges := []; patterns := []; special_tokens := [];
     vocab := byte_vocab |}.

(** *** [save]: the model file

    The text written to [file_prefix + ".model"].  Writing encodes the
    text (UTF-8 locale), so a string that holds a surrogate makes
    [save] raise.  The second file, the [.vocab] listing, is written
    after the model file is closed and is never read back; it is not
    part of the embedding, and [save] below stands for the model file
    having been written. *)

(** Text files, line by line: each [f.write] of [save] writes one line
    and its "\n". *)
Definition unlines (ls : list pystr) : pystr :=
  flat_map (fun l => l ++ [10]) ls.

Definition special_line (item : pystr * Z) : pystr :=
  fst item ++ [32] ++ str_of_int (snd item).

Definition merge_line (item : (Z * Z) * Z) : pystr :=
  str_of_int (fst (fst item)) ++ [32] ++ str_of_int (snd (fst item)).

Definition model_lines (self : Tokenizer) : list pystr :=
  [VERSION; patterns self;
   str_of_int (Z.of_nat (length (special_tokens self)))]
  ++ map special_line (special_tokens self)
  ++ map merge_line (merges self).

Definition model_text (self : Tokenizer) : pystr :=
  unlines (model_lines self).

Definition save (self : Tokenizer) : result pystr :=
  _ <- utf8_encode (model_text self) ;;
  Ok (model_text self).

(** *** [load]

    The file is read in text mode: "\r\n" and "\r" arrive as "\n". *)

Fixpoint universal_newlines (s : pystr) : pystr :=
  match s with
  | [] => []
  | c :: r =>
      if c =? 13 then
        10 :: match r with
              | [] => []
              | c' :: r' =>
                  if c' =? 10 then universal_newlines r'
                  else universal_newlines r
              end
      else c :: universal_newlines r
  end.

(** [f.readline()]: the next line with its terminator, and the rest of
    the file; the empty string at the end of the file. *)
Fixpoint readline (f : pystr) : pystr * pystr :=
  match f with
  | [] => ([], [])
  | c :: r =>
      if c =? 10 then ([c], r)
      else let lr := readline r in (c :: fst lr, snd lr)
  end.

(** [for line in f]: the lines that are left; [cur] is the line being
    read. *)
Fixpoint readlines_run (f cur : pystr) : list pystr :=
  match f with
  | [] => match cur with [] => [] | _ => [cur] end
  | c :: r =>
      if c =? 10 then (cur ++ [c]) :: readlines_run r []
      else readlines_run r (cur ++ [c])
  end.

Definition readlines (f : pystr) : list pystr := readlines_run f [].

(** The local variable [idx] of [load]: it starts as the integer 256,
    and the special-token loop rebinds it to the text of each id it
    reads ([special, idx = ...split()]). *)
Inductive idx_value : Type :=
| IdxInt (n : Z)
| IdxStr (s : pystr).

Fixpoint read_specials (n : nat) (f : pystr) (special_tokens : dict pystr Z)
         (idx : idx_value) : result (dict pystr Z * idx_value * pystr) :=
  match n with
  | O => Ok (special_tokens, idx, f)
  | S n' =>
      let lr := readline f in
      match split (strip (fst lr)) with
      | [special; idx_text] =>
          v <- py_int idx_text ;;
          read_specials n' (snd lr) (dict_set special_tokens special v)
                        (IdxStr idx_text)
      | _ => Raise ValueError
      end
  end.

(** [idx1, idx2 = map(int, line.strip().split())]: ValueError on any
    line that is not two integers. *)
Definition parse_merge_line (line : pystr) : result (Z * Z) :=
  match split (strip line) with
  | [t1; t2] =>
      idx1 <- py_int t1 ;;
      idx2 <- py_int t2 ;;
      Ok (idx1, idx2)
  | _ => Raise ValueError
  end.

(** The merge loop: [merges[(idx1, idx2)] = idx] stores whatever [idx]
    holds, and [idx += 1] raises TypeError when that is a string. *)
Fixpoint read_merges (lines : list pystr) (merges : dict (Z * Z) Z)
         (idx : idx_value) : result (dict (Z * Z) Z) :=
  match lines with
  | [] => Ok merges
  | line :: rest =>
      p <- parse_merge_line line ;;
      match idx with
      | IdxInt n => read_merges rest (dict_set merges p n) (IdxInt (n + 1))
      | IdxStr _ => Raise TypeError
      end
  end.

Definition set_patterns (self : Tokenizer) (p : pystr) : Tokenizer :=
  {| merges := merges self; patterns := p;
     special_tokens := special_tokens self; vocab := vocab self |}.

Definition set_tables (self : Tokenizer) (m : dict (Z * Z) Z)
           (s : dict pystr Z) : Tokenizer :=
  {| merges := m; patterns := patterns self;
     special_tokens := s; vocab := vocab self |}.

Definition set_vocab (self : Tokenizer) (v : dict Z bytes) : Tokenizer :=
  {| merges := merges self; patterns := patterns self;
     special_tokens := special_tokens self; vocab := v |}.

(** [load(model_file)], with [content] the text stored in the file. *)
Definition load (self : Tokenizer) (model_file content : pystr) : outcome :=
  if negb (endswith model_file (str_of ".model")) then
    Raised AssertionError self
  else
    let f := universal_newlines content in
    let l1 := readline f in
    let version := strip (fst l1) in
    if negb (str_eqb version VERSION) then Raised AssertionError self
    else
      let l2 := readline (snd l1) in
      let self1 := set_patterns self (strip (fst l2)) in
      let l3 := readline (snd l2) in
      match py_int (strip (fst l3)) with
      | Raise e => Raised e self1
      | Ok n_special_tokens =>
          match read_specials (Z.to_nat n_special_tokens) (snd l3) []
                              (IdxInt 256) with
          | Raise e => Raised e self1
          | Ok (special_tokens, idx, rest) =>
              match read_merges (readlines rest) [] idx with
              | Raise e => Raised e self1
              | Ok merges =>
                  let self2 := set_tables self1 merges special_tokens in
                  match _build_vocab merges special_tokens with
                  | Raise e => Raised e self2
                  | Ok vocab => Returned (set_vocab self2 vocab)
                  end
              end
          end
      end.

(** The tokenizer a call leaves behind, whether it returned or raised. *)
Definition outcome_state (o : outcome) : Tokenizer :=
  match o with
  | Returned self => self
  | Raised _ self => self
  end.

(** The merge lines of a model file: what follows the three header
    lines and the special-token lines they announce. *)
Fixpoint skip_lines (n : nat) (f : pystr) : pystr :=
  match n with
  | O => f
  | S n' => skip_lines n' (snd (readline f))
  end.

(** The third line of a model file, the count of special tokens, and
    what follows it. *)
Definition count_line (content : pystr) : pystr * pystr :=
  readline (snd (readline (snd (readline (universal_newlines content))))).

Definition merge_lines (content : pystr) : list pystr :=
  match py_int (strip (fst (count_line content))) with
  | Ok n => readlines (skip_lines (Z.to_nat n) (snd (count_line content)))
  | Raise _ => []
  end.

(** The pattern line of a model file, as [load] installs it. *)
Definition pattern_line (content : pystr) : pystr :=
  strip (fst (readline (snd (readline (universal_newlines content))))).

(** The version line of a model file, as [load] compares it. *)
Definition version_line (content : pystr) : pystr :=
  strip (fst (readline (universal_newlines content))).

(** Ids 256, 257, ... in rank order: the k-th entry (from 1) has id
    [256 + k - 1]. *)
Definition ids_from (n : Z) (k : nat) : list Z :=
  map (fun i => n + Z.of_nat i) (seq 0 k).

Definition gap_free (merges : dict (Z * Z) Z) : Prop :=
  dict_values merges = ids_from 256 (length merges).

(** The table the merge loop builds from the pairs it has parsed,
    numbering them from [n]. *)
Fixpoint assign_ids (pairs : list (Z * Z)) (merges : dict (Z * Z) Z) (n : Z)
  : dict (Z * Z) Z :=
  match pairs with
  | [] => merges
  | p :: rest => assign_ids rest (dict_set merges p n) (n + 1)
  end.

(** [d.update(items)] *)
Definition dict_update {K V : Type} {KK : Key K} (d : dict K V)
           (items : list (K * V)) : dict K V :=
  fold_left (fun d kv => dict_set d (fst kv) (snd kv)) items d.

(** The merge table with its ids reconstructed: the pairs in rank
    order, numbered from 256. *)
Definition renumber (merges : dict (Z * Z) Z) : dict (Z * Z) Z :=
  combine (dict_keys merges) (ids_from 256 (length merges)).

(** What the line format of the model file can carry: a pattern on
    one line without white space at its ends, and special-token names
    that are not empty and hold no white space.  Dictionaries have
    each key once.  The last condition leaves aside the tokenizers
    that have both special tokens and merges. *)
Definition storable (self : Tokenizer) : Prop :=
  no_break (patterns self)
  /\ strip (patterns self) = patterns self
  /\ Forall (fun name => name <> [] /\ nonspace name)
            (dict_keys (special_tokens self))
  /\ NoDup (dict_keys (special_tokens self))
  /\ NoDup (dict_keys (merges self))
  /\ (special_tokens self = [] \/ merges self = []).

(** The invariant of the vocabulary: a byte is its own entry, the
    entry of a merge is the concatenation of the entries of its pair,
    and the entry of a special token is its name in UTF-8. *)
Definition derivation_invariant (self : Tokenizer) : Prop :=
  (forall b, 0 <= b < 256 -> dict_get (vocab self) b = Some [b])
  /\ (forall p idx,
         dict_get (merges self) p = Some idx ->
         exists b0 b1,
           dict_get (vocab self) (fst p) = Some b0
           /\ dict_get (vocab self) (snd p) = Some b1
           /\ dict_get (vocab self) idx = Some (b0 ++ b1))
  /\ (forall name idx,
         dict_get (special_tokens self) name = Some idx ->
         exists b, utf8_encode name = Ok b
                   /\ dict_get (vocab self) idx = Some b).

(** Undoing a merge: every [idx] replaced by the pair. *)
Definition unmerge (ids : list Z) (pair : Z * Z) (idx : Z) : list Z :=
  flat_map (fun x => if x =? idx then [fst pair; snd pair] else [x]) ids.

(** *** Model files used as examples *)

Definition model_name : pystr := str_of "tok.model".

Definition file_padded_version : pystr :=
  unlines [str_of "bpe v1.0 "; []; str_of "0"].

Definition file_old_version : pystr :=
  unlines [str_of "bpe v0.9"; str_of "PAT"; str_of "0"].

Definition file_wrong_count : pystr :=
  unlines [VERSION; str_of "PAT"; str_of "0"; str_of "97 98 99"].

Definition file_bad_int : pystr :=
  unlines [VERSION; str_of "PAT"; str_of "0"; str_of "97 x"].

Definition file_duplicate_merges : pystr :=
  unlines [VERSION; []; str_of "0"; str_of "97 98"; str_of "97 98"].

Definition file_two_merges : pystr :=
  unlines [VERSION; []; str_of "0"; str_of "97 98"; str_of "256 99"].

Definition file_two_specials : pystr :=
  unlines [VERSION; []; str_of "2"; str_of "A 300"; str_of "B 300"].

Definition file_one_special : pystr :=
  unlines [VERSION; []; str_of "1"; str_of "A 300"].

(** *** Tokenizers used as examples *)

(** After loading [file_one_special]. *)
Definition tokenizer_one_special : Tokenizer :=
  {| merges := []; patterns := [];
     special_tokens := [(str_of "A", 300)];
     vocab := byte_vocab ++ [(300, [65])] |}.

(** After loading [file_two_specials]. *)
Definition tokenizer_two_specials : Tokenizer :=
  {| merges := []; patterns := [];
     special_tokens := [(str_of "A", 300); (str_of "B", 300)];
     vocab := byte_vocab ++ [(300, [66])] |}.

(** After loading [file_duplicate_merges]. *)
Definition tokenizer_duplicate_merges : Tokenizer :=
  {| merges := [((97, 98), 257)]; patterns := [];
     special_tokens := [];
     vocab := byte_vocab ++ [(257, [97; 98])] |}.

(** After loading [file_two_merges]. *)
Definition tokenizer_two_merges : Tokenizer :=
  {| merges := [((97, 98), 256); ((256, 99), 257)]; patterns := [];
     special_tokens := [];
     vocab := byte_vocab ++ [(256, [97; 98]); (257, [97; 98; 99])] |}.

(** A tokenizer whose pattern begins with a space. *)
Definition tokenizer_space_pattern : Tokenizer :=
  {| merges := []; patterns := str_of " ?\w+|\s+";
     special_tokens := []; vocab := byte_vocab |}.

(** A tokenizer with one merge and one special token, and the model
    file [save] writes for it. *)
Definition tokenizer_special_and_merge : Tokenizer :=
  {| merges := [((97, 98), 256)]; patterns := [];
     special_tokens := [(str_of "<|endoftext|>", 257)];
     vocab := byte_vocab
              ++ [(256, [97; 98]);
                  (257, [60; 124; 101; 110; 100; 111; 102; 116; 101; 120;
                         116; 124; 62])] |}.

Definition file_special_and_merge : pystr :=
  unlines [VERSION; []; str_of "1"; str_of "<|endoftext|> 257";
           str_of "97 98"].

(** The tokenizer that training on "aaabdaaabac" with three merges
    arrives at when [counts] defaults to [None]. *)
Definition tokenizer_trained : Tokenizer :=
  {| merges := [((97, 97), 256); ((256, 97), 257); ((257, 98), 258)];
     patterns := []; special_tokens := [];
     vocab := byte_vocab
              ++ [(256, [97; 97]); (257, [97; 97; 97]);
                  (258, [97; 97; 97; 98])] |}.

(* ----------------------------------------------------------------- *)
(** ** basic.py: [BaseTokenizer]

    [train] and [encode] call [get_stats(ids)] with one argument.  The
    loops are written over the default that binds [counts] at such a
    call; the methods themselves take the one the signature declares,
    [get_stats_counts_default]. *)

Section CallSites.

Variable counts_default : option (option stats).

(** The call [get_stats(ids)]. *)
Definition call_get_stats (ids : list Z) : result stats :=
  counts <- bind_param counts_default None ;;
  Ok (get_stats ids counts).

(** The body of the [for] loop of [train], [n] iterations from step [i]. *)
Fixpoint train_loop (n : nat) (i : Z) (ids : list Z)
         (merges : dict (Z * Z) Z) (vocab : dict Z bytes)
  : result (dict (Z * Z) Z * dict Z bytes) :=
  match n with
  | O => Ok (merges, vocab)
  | S n' =>
      stats <- call_get_stats ids ;;
      p <- py_max Z.ltb (count_of stats) (dict_keys stats) ;;
      let idx := 256 + i in
      let ids := merge ids p idx in
      let merges := dict_set merges p idx in
      b0 <- dict_index vocab (fst p) ;;
      b1 <- dict_index vocab (snd p) ;;
      let vocab := dict_set vocab idx (b0 ++ b1) in
      train_loop n' (i + 1) ids merges vocab
  end.

(** [train(text, vocab_size)]; [verbose] only prints. *)
Definition train_with (self : Tokenizer) (text : pystr) (vocab_size : Z)
  : outcome :=
  if vocab_size <? 256 then Raised AssertionError self
  else
    let num_merges := vocab_size - 256 in
    match utf8_encode text with
    | Raise e => Raised e self
    | Ok ids =>
        match train_loop (Z.to_nat num_merges) 0 ids [] byte_vocab with
        | Raise e => Raised e self
        | Ok (merges, vocab) =>
            Returned {| merges := merges; patterns := patterns self;
                        special_tokens := special_tokens self;
                        vocab := vocab |}
        end
    end.

(** One pass through the body of the [while] loop of [encode]. *)
Inductive loop_step : Type :=
| Continue (ids : list Z)
| Break
| Throw (e : exn).

(** [self.merges.get(p, float("inf"))]: [None] stands for infinity. *)
Definition rank_ltb (a b : option Z) : bool :=
  match a, b with
  | Some x, Some y => x <? y
  | Some _, None => true
  | None, _ => false
  end.

Definition encode_body (merges : dict (Z * Z) Z) (ids : list Z) : loop_step :=
  match call_get_stats ids with
  | Raise e => Throw e
  | Ok stats =>
      match py_min rank_ltb (dict_get merges) (dict_keys stats) with
      | Raise e => Throw e
      | Ok p =>
          match dict_get merges p with
          | None => Break
          | Some idx => Continue (merge ids p idx)
          end
      end
  end.

(** The [while len(ids) >= 2] loop, cut after [fuel] passes: [None]
    says that the loop was still running then. *)
Fixpoint encode_loop (fuel : nat) (merges : dict (Z * Z) Z) (ids : list Z)
  : option (result (list Z)) :=
  if (length ids <? 2)%nat then Some (Ok ids)
  else
    match fuel with
    | O => None
    | S fuel' =>
        match encode_body merges ids with
        | Throw e => Some (Raise e)
        | Break => Some (Ok ids)
        | Continue ids' => encode_loop fuel' merges ids'
        end
    end.

(** [encode(text)], with as many passes as the text has bytes. *)
Definition encode_with (self : Tokenizer) (text : pystr)
  : option (result (list Z)) :=
  match utf8_encode text with
  | Raise e => Some (Raise e)
  | Ok ids => encode_loop (length ids) (merges self) ids
  end.

End CallSites.

Definition train : Tokenizer -> pystr -> Z -> outcome :=
  train_with get_stats_counts_default.

Definition encode : Tokenizer -> pystr -> option (result (list Z)) :=
  encode_with get_stats_counts_default.

(** The two ways [counts] can be bound at the call [get_stats(ids)]:
    by no default, as the signature stands, or by the default [None]
    that the docstring of [get_stats] describes ("Optionally allows to
    update an existing dictionary of counts"). *)
Definition counts_binding (documented : bool) : option (option stats) :=
  if documented then Some None else get_stats_counts_default.

(** [decode(ids)] *)
Fixpoint lookup_all (vocab : dict Z bytes) (ids : list Z)
  : result (list bytes) :=
  match ids with
  | [] => Ok []
  | idx :: rest =>
      b <- dict_index vocab idx ;;
      bs <- lookup_all vocab rest ;;
      Ok (b :: bs)
  end.

Definition decode (self : Tokenizer) (ids : list Z) : result pystr :=
  parts <- lookup_all (vocab self) ids ;;
  Ok (utf8_decode (concat parts)).


(* ----------------------------------------------------------------- *)
(** ** base.py: rendering tokens, and the vocabulary listing of [save] *)

(** The part of the module [unicodedata] that the code uses: the
    general category of a character, as its two-letter abbreviation. *)
Module unicodedata.

Inductive general_category : Type :=
| Lu | Ll | Lt | Lm | Lo
| Mn | Mc | Me
| Nd | Nl | No
| Pc | Pd | Ps | Pe | Pi | Pf | Po
| Sm | Sc | Sk | So
| Zs | Zl | Zp
| Cc | Cf | Cs | Co | Cn.

Definition abbreviation (g : general_category) : pystr :=
  match g with
  | Lu => str_of "Lu" | Ll => str_of "Ll" | Lt => str_of "Lt"
  | Lm => str_of "Lm" | Lo => str_of "Lo"
  | Mn => str_of "Mn" | Mc => str_of "Mc" | Me => str_of "Me"
  | Nd => str_of "Nd" | Nl => str_of "Nl" | No => str_of "No"
  | Pc => str_of "Pc" | Pd => str_of "Pd" | Ps => str_of "Ps"
  | Pe => str_of "Pe" | Pi => str_of "Pi" | Pf => str_of "Pf"
  | Po => str_of "Po"
  | Sm => str_of "Sm" | Sc => str_of "Sc" | Sk => str_of "Sk"
  | So => str_of "So"
  | Zs => str_of "Zs" | Zl => str_of "Zl" | Zp => str_of "Zp"
  | Cc => str_of "Cc" | Cf => str_of "Cf" | Cs => str_of "Cs"
  | Co => str_of "Co" | Cn => str_of "Cn"
  end.

End unicodedata.

(** The general category of the ASCII characters and of the
    replacement character U+FFFD, which no version of Unicode changes.
    The table serves to run the code on ASCII text and on what
    decoding makes of other bytes; it gives [Cn] to everything else. *)
Definition category_ascii (ch : Z) : unicodedata.general_category :=
  if ch =? 0xFFFD then unicodedata.So
  else if (ch <? 0) || (127 <? ch) then unicodedata.Cn
  else if (ch <? 32) || (ch =? 127) then unicodedata.Cc
  else if ch =? 32 then unicodedata.Zs
  else if (48 <=? ch) && (ch <=? 57) then unicodedata.Nd
  else if (65 <=? ch) && (ch <=? 90) then unicodedata.Lu
  else if (97 <=? ch) && (ch <=? 122) then unicodedata.Ll
  else if ch =? 36 then unicodedata.Sc
  else if (ch =? 40) || (ch =? 91) || (ch =? 123) then unicodedata.Ps
  else if (ch =? 41) || (ch =? 93) || (ch =? 125) then unicodedata.Pe
  else if (ch =? 43) || (ch =? 60) || (ch =? 61) || (ch =? 62)
          || (ch =? 124) || (ch =? 126) then unicodedata.Sm
  else if ch =? 45 then unicodedata.Pd
  else if (ch =? 94) || (ch =? 96) then unicodedata.Sk
  else if ch =? 95 then unicodedata.Pc
  else unicodedata.Po.

(** The digits of a number in lower-case hexadecimal. *)
Fixpoint hex_chars (u : Hexadecimal.uint) : pystr :=
  match u with
  | Hexadecimal.Nil => []
  | Hexadecimal.D0 u => 48 :: hex_chars u
  | Hexadecimal.D1 u => 49 :: hex_chars u
  | Hexadecimal.D2 u => 50 :: hex_chars u
  | Hexadecimal.D3 u => 51 :: hex_chars u
  | Hexadecimal.D4 u => 52 :: hex_chars u
  | Hexadecimal.D5 u => 53 :: hex_chars u
  | Hexadecimal.D6 u => 54 :: hex_chars u
  | Hexadecimal.D7 u => 55 :: hex_chars u
  | Hexadecimal.D8 u => 56 :: hex_chars u
  | Hexadecimal.D9 u => 57 :: hex_chars u
  | Hexadecimal.Da u => 97 :: hex_chars u
  | Hexadecimal.Db u => 98 :: hex_chars u
  | Hexadecimal.Dc u => 99 :: hex_chars u
  | Hexadecimal.Dd u => 100 :: hex_chars u
  | Hexadecimal.De u => 101 :: hex_chars u
  | Hexadecimal.Df u => 102 :: hex_chars u
  end.

(** The characters an escape is written with. *)
Definition escape_alphabet : pystr := str_of "\u0123456789abcdef".

(** [format(n, "04x")]: the digits of [n] in lower-case hexadecimal
    after its sign, with zeros in between up to a width of four. *)
Definition format_04x (n : Z) : pystr :=
  let sign := if n <? 0 then [45] else [] in
  let digits := hex_chars (N.to_hex_uint (Z.abs_N n)) in
  sign ++ repeat 48 (4 - length sign - length digits)%nat ++ digits.

(** [{idx: pair for pair, idx in self.merges.items()}] *)
Definition inverted_merges (merges : dict (Z * Z) Z) : dict Z (Z * Z) :=
  fold_left (fun inv item => dict_set inv (snd item) (fst item)) merges [].

(** Writing to a text file opened with UTF-8: each [f.write(s)]
    encodes [s]; the file holds what was written before a call that
    raised.  A line is given as the result of the expression that
    computes it. *)
Fixpoint write_lines (lines : list (result pystr)) : pystr * option exn :=
  match lines with
  | [] => ([], None)
  | line :: rest =>
      match (s <- line ;; _ <- utf8_encode s ;; Ok s) with
      | Raise e => ([], Some e)
      | Ok s => let r := write_lines rest in (s ++ fst r, snd r)
      end
  end.

Section Rendering.

(** [unicodedata.category], on the code point of the character. *)
Variable category : Z -> unicodedata.general_category.

(** [unicodedata.category(ch)[0] == "C"] *)
Definition is_other (ch : Z) : bool :=
  nth 0 (unicodedata.abbreviation (category ch)) 0 =? 67.

(** The string appended for a character of a category C:
    a backslash, the letter u, and the code point in hexadecimal. *)
Definition escape (ch : Z) : pystr := [92; 117] ++ format_04x ch.

Definition replace_control_characters (text : pystr) : pystr :=
  concat (map (fun ch => if negb (is_other ch) then [ch] else escape ch)
              text).

Definition render_token (token : bytes) : pystr :=
  replace_control_characters (utf8_decode token).

(** One pass of the loop over [self.vocab.items()] in [save]: the line
    written for an entry. *)
Definition vocab_line (self : Tokenizer) (item : Z * bytes) : result pystr :=
  let s := render_token (snd item) in
  match dict_get (inverted_merges (merges self)) (fst item) with
  | Some children =>
      t0 <- dict_index (vocab self) (fst children) ;;
      t1 <- dict_index (vocab self) (snd children) ;;
      Ok ([91] ++ render_token t0 ++ [93; 91] ++ render_token t1
          ++ str_of "] -> [" ++ s ++ [93; 32] ++ str_of_int (fst item)
          ++ [10])
  | None =>
      Ok ([91] ++ s ++ [93; 32] ++ str_of_int (fst item) ++ [10])
  end.

(** [save(file_prefix)]: the files written, each with its content, and
    the exception that ended the call, if any.  The model file is
    written first; the vocabulary listing is opened only after the
    model file is complete. *)
Definition save_files (self : Tokenizer) (file_prefix : pystr)
  : list (pystr * pystr) * option exn :=
  let model := write_lines (map (fun l => Ok (l ++ [10])) (model_lines self)) in
  match snd model with
  | Some e => ([(file_prefix ++ str_of ".model", fst model)], Some e)
  | None =>
      let listing := write_lines (map (vocab_line self) (vocab self)) in
      ([(file_prefix ++ str_of ".model", fst model);
        (file_prefix ++ str_of ".vocab", fst listing)],
       snd listing)
  end.

End Rendering.

(** A text with the line endings of another platform: every "\n"
    written as "\r\n", or as "\r". *)
Definition crlf (s : pystr) : pystr :=
  flat_map (fun c => if c =? 10 then [13; 10] else [c]) s.

Definition cr (s : pystr) : pystr :=
  map (fun c => if c =? 10 then 13 else c) s.

(** A model file whose only merge line names ids that no entry of the
    vocabulary has, and the tokenizer [load] leaves behind on it,
    starting from a fresh one. *)
Definition file_unknown_id : pystr :=
  unlines [VERSION; str_of "PAT"; str_of "0"; str_of "300 301"].

Definition tokenizer_unknown_id : Tokenizer :=
  {| merges := [((300, 301), 256)]; patterns := str_of "PAT";
     special_tokens := []; vocab := byte_vocab |}.
(* ================================================================= *)
(** * Part II: properties *)

(* ----------------------------------------------------------------- *)
(** ** Keys and dictionaries *)

Class KeyLaws (K : Type) {KK : Key K} : Prop :=
  key_eqb_eq : forall a b : K, key_eqb a b = true <-> a = b.

#[export] Instance KeyLaws_Z : KeyLaws Z.
Proof. exact Z.eqb_eq. Qed.

#[export] Instance KeyLaws_pair : KeyLaws (Z * Z).
Proof.
  intros [a b] [c d]. unfold key_eqb, Key_pair, pair_eqb; simpl.
  rewrite andb_true_iff, !Z.eqb_eq. split; [intros [-> ->] | intros [= -> ->]];
    auto.
Qed.

Lemma str_eqb_eq (s t : pystr) : str_eqb s t = true <-> s = t.
Proof.
  revert t; induction s as [|a s IH]; intros [|b t]; simpl;
    try (split; congruence).
  rewrite andb_true_iff, Z.eqb_eq, IH.
  split; [intros [-> ->] | intros [= -> ->]]; auto.
Qed.

#[export] Instance KeyLaws_str : KeyLaws pystr.
Proof. exact str_eqb_eq. Qed.

Lemma key_eqb_spec {K : Type} {KK : Key K} {KL : KeyLaws K} (a b : K) :
  reflect (a = b) (key_eqb a b).
Proof.
  destruct (key_eqb a b) eqn:E; constructor.
  - now apply key_eqb_eq.
  - intros H. apply key_eqb_eq in H. congruence.
Qed.

Section DictFacts.

Context {K V : Type} {KK : Key K} {KL : KeyLaws K}.

Lemma key_eqb_refl (k : K) : key_eqb k k = true.
Proof. destruct (key_eqb_spec k k); congruence. Qed.

Lemma key_eqb_neq (a b : K) : a <> b -> key_eqb a b = false.
Proof. intros H. destruct (key_eqb_spec a b); congruence. Qed.

Lemma dict_get_set_same (d : dict K V) (k : K) (v : V) :
  dict_get (dict_set d k v) k = Some v.
Proof.
  induction d as [|[k' v'] d IH]; simpl.
  - now rewrite key_eqb_refl.
  - destruct (key_eqb_spec k' k) as [->|N]; simpl.
    + now rewrite key_eqb_refl.
    + now rewrite (key_eqb_neq _ _ N).
Qed.

Lemma dict_get_set_other (d : dict K V) (k k0 : K) (v : V) :
  k <> k0 -> dict_get (dict_set d k v) k0 = dict_get d k0.
Proof.
  intros N. induction d as [|[k' v'] d IH]; simpl.
  - now rewrite (key_eqb_neq _ _ N).
  - destruct (key_eqb_spec k' k) as [->|N']; simpl.
    + now rewrite (key_eqb_neq _ _ N).
    + now rewrite IH.
Qed.

Lemma dict_get_none_notin (d : dict K V) (k : K) :
  dict_get d k = None <-> ~ In k (dict_keys d).
Proof.
  induction d as [|[k' v'] d IH]; simpl.
  - tauto.
  - destruct (key_eqb_spec k' k) as [->|N].
    + split; [discriminate | tauto].
    + rewrite IH. tauto.
Qed.

Lemma dict_get_some_in (d : dict K V) (k : K) (v : V) :
  dict_get d k = Some v -> In (k, v) d.
Proof.
  induction d as [|[k' v'] d IH]; simpl; [discriminate|].
  destruct (key_eqb_spec k' k) as [->|N].
  - intros [= ->]. now left.
  - intros H. right. now apply IH.
Qed.

(** Assigning to a new key appends the entry. *)
Lemma dict_set_new (d : dict K V) (k : K) (v : V) :
  dict_get d k = None -> dict_set d k v = d ++ [(k, v)].
Proof.
  induction d as [|[k' v'] d IH]; simpl; [reflexivity|].
  destruct (key_eqb k' k); [discriminate|].
  intros H. now rewrite IH.
Qed.

(** Assigning to a key that is present keeps the keys and their order. *)
Lemma dict_set_old_keys (d : dict K V) (k : K) (v : V) :
  dict_get d k <> None -> dict_keys (dict_set d k v) = dict_keys d.
Proof.
  induction d as [|[k' v'] d IH]; simpl; [congruence|].
  destruct (key_eqb k' k); simpl; [reflexivity|].
  intros H. f_equal. now apply IH.
Qed.

Lemma dict_set_keys_nodup (d : dict K V) (k : K) (v : V) :
  NoDup (dict_keys d) -> NoDup (dict_keys (dict_set d k v)).
Proof.
  intros H. destruct (dict_get d k) eqn:E.
  - rewrite dict_set_old_keys; [assumption | congruence].
  - rewrite (dict_set_new _ _ _ E). unfold dict_keys. rewrite map_app. simpl.
    apply NoDup_app; [assumption | repeat constructor; simpl; tauto |].
    intros a Ha [<-|[]].
    now apply dict_get_none_notin in E.
Qed.

Lemma dict_get_nodup_in (d : dict K V) (k : K) (v : V) :
  NoDup (dict_keys d) -> In (k, v) d -> dict_get d k = Some v.
Proof.
  induction d as [|[k' v'] d IH]; simpl; [tauto|].
  intros ND [[= -> ->]|Hin].
  - now rewrite key_eqb_refl.
  - inversion ND as [|? ? Hn ND']; subst.
    destruct (key_eqb_spec k' k) as [->|N].
    + exfalso. apply Hn. change (In (fst (k, v)) (map fst d)).
      now apply in_map.
    + now apply IH.
Qed.

End DictFacts.

(* ----------------------------------------------------------------- *)
(** ** [merge] *)

(** Induction over a list two elements at a time. *)
Lemma list_ind2 (A : Type) (P : list A -> Prop) :
  P [] -> (forall x, P [x]) ->
  (forall x y l, P l -> P (y :: l) -> P (x :: y :: l)) ->
  forall l, P l.
Proof.
  intros H0 H1 H2.
  assert (H : forall l, P l /\ forall x, P (x :: l)).
  { induction l as [|y l [IH IH']]; split; auto. }
  apply H.
Qed.

Lemma merge_rec_cons2 (x y : Z) (l : list Z) (pair : Z * Z) (idx : Z) :
  merge_rec (x :: y :: l) pair idx =
  if (x =? fst pair) && (y =? snd pair)
  then idx :: merge_rec l pair idx
  else x :: merge_rec (y :: l) pair idx.
Proof. reflexivity. Qed.

Lemma merge_scan_rec (rest : list Z) (pair : Z * Z) (idx : Z) :
  forall newids,
    merge_scan rest pair idx newids = newids ++ merge_rec rest pair idx.
Proof.
  induction rest as [| x | x y l IHl IHyl] using list_ind2; intros acc.
  - simpl. now rewrite app_nil_r.
  - reflexivity.
  - rewrite merge_rec_cons2.
    change (merge_scan (x :: y :: l) pair idx acc)
      with (if (x =? fst pair) && (y =? snd pair)
            then merge_scan l pair idx (acc ++ [idx])
            else merge_scan (y :: l) pair idx (acc ++ [x])).
    destruct ((x =? fst pair) && (y =? snd pair)).
    + rewrite IHl, <- app_assoc. reflexivity.
    + rewrite IHyl, <- app_assoc. reflexivity.
Qed.

Lemma merge_eq_rec (ids : list Z) (pair : Z * Z) (idx : Z) :
  merge ids pair idx = merge_rec ids pair idx.
Proof. unfold merge. now rewrite merge_scan_rec. Qed.

Lemma merge_rec_length (ids : list Z) (pair : Z * Z) (idx : Z) :
  (length (merge_rec ids pair idx) <= length ids)%nat.
Proof.
  induction ids as [| x | x y l IHl IHyl] using list_ind2.
  - simpl; lia.
  - simpl; lia.
  - rewrite merge_rec_cons2.
    destruct ((x =? fst pair) && (y =? snd pair)); simpl in *; lia.
Qed.

Lemma merge_length (ids : list Z) (pair : Z * Z) (idx : Z) :
  (length (merge ids pair idx) <= length ids)%nat.
Proof. rewrite merge_eq_rec. apply merge_rec_length. Qed.

(* ----------------------------------------------------------------- *)
(** ** UTF-8 *)

Ltac arith := Z.to_euclidean_division_equations; lia.

(** Rewrite the test [c] of a conditional to the value the context
    gives it. *)
Ltac test_is c v := replace c with v by (symmetry; lia).

Lemma utf8_decode_1 (b0 : Z) (rest : bytes) :
  0 <= b0 < 0x80 ->
  utf8_decode (b0 :: rest) = b0 :: utf8_decode rest.
Proof.
  intros H. cbn [utf8_decode].
  test_is ((0 <=? b0) && (b0 <? 0x80)) true. reflexivity.
Qed.

Lemma utf8_decode_2 (b0 b1 : Z) (rest : bytes) :
  0xC2 <= b0 < 0xE0 -> is_cont b1 = true ->
  utf8_decode (b0 :: b1 :: rest)
  = ((b0 - 0xC0) * 64 + (b1 - 0x80)) :: utf8_decode rest.
Proof.
  intros H H1. cbn [utf8_decode].
  test_is ((0 <=? b0) && (b0 <? 0x80)) false.
  test_is ((0xC2 <=? b0) && (b0 <? 0xE0)) true.
  now rewrite H1.
Qed.

Lemma utf8_decode_3 (b0 b1 b2 : Z) (rest : bytes) :
  0xE0 <= b0 < 0xF0 -> second_ok b0 b1 = true -> is_cont b2 = true ->
  utf8_decode (b0 :: b1 :: b2 :: rest)
  = ((b0 - 0xE0) * 4096 + (b1 - 0x80) * 64 + (b2 - 0x80))
      :: utf8_decode rest.
Proof.
  intros H H1 H2. cbn [utf8_decode].
  test_is ((0 <=? b0) && (b0 <? 0x80)) false.
  test_is ((0xC2 <=? b0) && (b0 <? 0xE0)) false.
  test_is ((0xE0 <=? b0) && (b0 <? 0xF0)) true.
  now rewrite H1, H2.
Qed.

Lemma utf8_decode_4 (b0 b1 b2 b3 : Z) (rest : bytes) :
  0xF0 <= b0 < 0xF5 -> second_ok b0 b1 = true ->
  is_cont b2 = true -> is_cont b3 = true ->
  utf8_decode (b0 :: b1 :: b2 :: b3 :: rest)
  = ((b0 - 0xF0) * 262144 + (b1 - 0x80) * 4096
     + (b2 - 0x80) * 64 + (b3 - 0x80)) :: utf8_decode rest.
Proof.
  intros H H1 H2 H3. cbn [utf8_decode].
  test_is ((0 <=? b0) && (b0 <? 0x80)) false.
  test_is ((0xC2 <=? b0) && (b0 <? 0xE0)) false.
  test_is ((0xE0 <=? b0) && (b0 <? 0xF0)) false.
  test_is ((0xF0 <=? b0) && (b0 <? 0xF5)) true.
  now rewrite H1, H2, H3.
Qed.

Lemma second_ok_intro (b0 b1 : Z) :
  (b0 = 0xE0 -> 0xA0 <= b1 <= 0xBF) ->
  (b0 = 0xED -> 0x80 <= b1 <= 0x9F) ->
  (b0 = 0xF0 -> 0x90 <= b1 <= 0xBF) ->
  (b0 = 0xF4 -> 0x80 <= b1 <= 0x8F) ->
  0x80 <= b1 <= 0xBF ->
  second_ok b0 b1 = true.
Proof.
  intros HE0 HED HF0 HF4 H. unfold second_ok, is_cont.
  destruct (Z.eqb_spec b0 0xE0) as [E|_]; [specialize (HE0 E); lia|].
  destruct (Z.eqb_spec b0 0xED) as [E|_]; [specialize (HED E); lia|].
  destruct (Z.eqb_spec b0 0xF0) as [E|_]; [specialize (HF0 E); lia|].
  destruct (Z.eqb_spec b0 0xF4) as [E|_]; [specialize (HF4 E); lia|].
  lia.
Qed.

Lemma second_ok_elim (b0 b1 : Z) :
  second_ok b0 b1 = true ->
  (b0 = 0xE0 -> 0xA0 <= b1 <= 0xBF) /\
  (b0 = 0xED -> 0x80 <= b1 <= 0x9F) /\
  (b0 = 0xF0 -> 0x90 <= b1 <= 0xBF) /\
  (b0 = 0xF4 -> 0x80 <= b1 <= 0x8F) /\
  0x80 <= b1 <= 0xBF.
Proof.
  unfold second_ok, is_cont.
  destruct (Z.eqb_spec b0 0xE0) as [E|N1]; [intros; lia|].
  destruct (Z.eqb_spec b0 0xED) as [E|N2]; [intros; lia|].
  destruct (Z.eqb_spec b0 0xF0) as [E|N3]; [intros; lia|].
  destruct (Z.eqb_spec b0 0xF4) as [E|N4]; [intros; lia|].
  intros; lia.
Qed.

Lemma utf8_encode_char_scalar (c : Z) (bs : bytes) :
  utf8_encode_char c = Ok bs -> is_scalar c = true.
Proof.
  unfold utf8_encode_char, is_scalar.
  destruct (Z.ltb_spec c 0); [discriminate|].
  destruct (Z.ltb_spec c 0x80); [lia|].
  destruct (Z.ltb_spec c 0x800); [lia|].
  destruct (Z.ltb_spec c 0x10000).
  - destruct ((0xD800 <=? c) && (c <=? 0xDFFF)) eqn:E; [discriminate | lia].
  - destruct (Z.ltb_spec c 0x110000); [lia | discriminate].
Qed.

Lemma utf8_encode_char_total (c : Z) :
  is_scalar c = true -> exists bs, utf8_encode_char c = Ok bs.
Proof.
  unfold utf8_encode_char, is_scalar. intros H.
  destruct (Z.ltb_spec c 0); [lia|].
  destruct (Z.ltb_spec c 0x80); [eauto|].
  destruct (Z.ltb_spec c 0x800); [eauto|].
  destruct (Z.ltb_spec c 0x10000).
  - test_is ((0xD800 <=? c) && (c <=? 0xDFFF)) false. eauto.
  - destruct (Z.ltb_spec c 0x110000); [eauto | lia].
Qed.

(** A character's encoding, followed by anything, decodes to the
    character and then the rest. *)
Lemma utf8_decode_encode_char (c : Z) (bs rest : bytes) :
  utf8_encode_char c = Ok bs ->
  utf8_decode (bs ++ rest) = c :: utf8_decode rest.
Proof.
  unfold utf8_encode_char.
  destruct (Z.ltb_spec c 0); [discriminate|].
  destruct (Z.ltb_spec c 0x80).
  { intros Hb. replace bs with [c] by congruence.
    apply utf8_decode_1. lia. }
  destruct (Z.ltb_spec c 0x800).
  { intros Hb.
    replace bs with [0xC0 + c / 64; 0x80 + c mod 64] by congruence.
    rewrite <- !app_comm_cons, app_nil_l, utf8_decode_2.
    - f_equal. arith.
    - arith.
    - unfold is_cont. arith. }
  destruct (Z.ltb_spec c 0x10000).
  { destruct ((0xD800 <=? c) && (c <=? 0xDFFF)) eqn:E; [discriminate|].
    intros Hb.
    replace bs
      with [0xE0 + c / 4096; 0x80 + (c / 64) mod 64; 0x80 + c mod 64]
      by congruence.
    rewrite <- !app_comm_cons, app_nil_l, utf8_decode_3.
    - f_equal. arith.
    - arith.
    - apply second_ok_intro; intros; arith.
    - unfold is_cont. arith. }
  destruct (Z.ltb_spec c 0x110000); [|discriminate].
  intros Hb.
  replace bs
    with [0xF0 + c / 262144; 0x80 + (c / 4096) mod 64;
          0x80 + (c / 64) mod 64; 0x80 + c mod 64]
    by congruence.
  rewrite <- !app_comm_cons, app_nil_l, utf8_decode_4.
  - f_equal. arith.
  - arith.
  - apply second_ok_intro; intros; arith.
  - unfold is_cont. arith.
  - unfold is_cont. arith.
Qed.

Lemma utf8_decode_encode (s : pystr) (bs : bytes) :
  utf8_encode s = Ok bs -> utf8_decode bs = s.
Proof.
  revert bs. induction s as [|c s IH]; simpl; intros bs.
  - now intros [= <-].
  - destruct (utf8_encode_char c) as [b|] eqn:Ec; simpl; [|discriminate].
    destruct (utf8_encode s) as [bs'|]; simpl; [|discriminate].
    intros [= <-]. rewrite (utf8_decode_encode_char _ _ _ Ec). f_equal.
    now apply IH.
Qed.

Lemma utf8_encode_total (s : pystr) :
  Forall (fun c => is_scalar c = true) s -> exists bs, utf8_encode s = Ok bs.
Proof.
  induction 1 as [|c s Hc _ [bs IH]]; simpl; [eauto|].
  destruct (utf8_encode_char_total _ Hc) as [b ->]. rewrite IH. simpl. eauto.
Qed.

Lemma utf8_encode_scalar (s : pystr) (bs : bytes) :
  utf8_encode s = Ok bs -> Forall (fun c => is_scalar c = true) s.
Proof.
  revert bs. induction s as [|c s IH]; simpl; intros bs; [constructor|].
  destruct (utf8_encode_char c) as [b|] eqn:Ec; simpl; [|discriminate].
  destruct (utf8_encode s) as [bs'|]; simpl; [|discriminate].
  intros _. constructor; [eapply utf8_encode_char_scalar; eauto | eapply IH; eauto].
Qed.

(** Decoding with replacement is total and yields scalar values only:
    what is ill-formed comes out as U+FFFD. *)
Lemma utf8_decode_scalar_bounded (n : nat) :
  forall bs, (length bs <= n)%nat ->
             Forall (fun c => is_scalar c = true) (utf8_decode bs).
Proof.
  induction n as [|n IH]; intros bs Hn.
  { destruct bs; [constructor | simpl in Hn; lia]. }
  destruct bs as [|b0 r0]; [constructor|].
  assert (HR : is_scalar replacement_char = true) by reflexivity.
  assert (IH' : forall r, (length r <= length r0)%nat ->
                          Forall (fun c => is_scalar c = true) (utf8_decode r)).
  { intros r Hr. apply IH. simpl in Hn. lia. }
  clear IH Hn.
  cbn [utf8_decode].
  destruct ((0 <=? b0) && (b0 <? 0x80)) eqn:E1.
  { constructor; [unfold is_scalar; lia | apply IH'; lia]. }
  destruct ((0xC2 <=? b0) && (b0 <? 0xE0)) eqn:E2.
  { destruct r0 as [|b1 r1]; [repeat constructor|].
    destruct (is_cont b1) eqn:C1.
    - constructor; [|apply IH'; simpl; lia].
      unfold is_cont in C1. unfold is_scalar. lia.
    - constructor; [exact HR | apply IH'; lia]. }
  destruct ((0xE0 <=? b0) && (b0 <? 0xF0)) eqn:E3.
  { destruct r0 as [|b1 r1]; [repeat constructor|].
    destruct (second_ok b0 b1) eqn:S1;
      [|constructor; [exact HR | apply IH'; lia]].
    destruct r1 as [|b2 r2]; [repeat constructor|].
    destruct (is_cont b2) eqn:C2;
      [|constructor; [exact HR | apply IH'; simpl; lia]].
    constructor; [|apply IH'; simpl; lia].
    apply second_ok_elim in S1. unfold is_cont in C2. unfold is_scalar.
    lia. }
  destruct ((0xF0 <=? b0) && (b0 <? 0xF5)) eqn:E4.
  { destruct r0 as [|b1 r1]; [repeat constructor|].
    destruct (second_ok b0 b1) eqn:S1;
      [|constructor; [exact HR | apply IH'; lia]].
    destruct r1 as [|b2 r2]; [repeat constructor|].
    destruct (is_cont b2) eqn:C2;
      [|constructor; [exact HR | apply IH'; simpl; lia]].
    destruct r2 as [|b3 r3]; [repeat constructor|].
    destruct (is_cont b3) eqn:C3;
      [|constructor; [exact HR | apply IH'; simpl; lia]].
    constructor; [|apply IH'; simpl; lia].
    apply second_ok_elim in S1. unfold is_cont in C2, C3. unfold is_scalar.
    lia. }
  constructor; [exact HR | apply IH'; lia].
Qed.

Lemma utf8_decode_scalar (bs : bytes) :
  Forall (fun c => is_scalar c = true) (utf8_decode bs).
Proof. apply (utf8_decode_scalar_bounded (length bs)). lia. Qed.

(* ----------------------------------------------------------------- *)
(** ** [decode] *)

Lemma lookup_all_ok (vocab : dict Z bytes) (ids : list Z) :
  Forall (fun idx => dict_get vocab idx <> None) ids ->
  lookup_all vocab ids
  = Ok (map (fun idx => match dict_get vocab idx with
                        | Some b => b
                        | None => []
                        end) ids).
Proof.
  induction 1 as [|idx ids H _ IH]; simpl; [reflexivity|].
  unfold dict_index. destruct (dict_get vocab idx); [|congruence].
  simpl. now rewrite IH.
Qed.

Lemma lookup_all_raise (vocab : dict Z bytes) (ids : list Z) (e : exn) :
  lookup_all vocab ids = Raise e ->
  e = KeyError /\ Exists (fun idx => dict_get vocab idx = None) ids.
Proof.
  induction ids as [|idx ids IH]; simpl; [discriminate|].
  unfold dict_index. destruct (dict_get vocab idx) eqn:E; simpl.
  - destruct (lookup_all vocab ids); simpl; [discriminate|].
    intros [= <-]. destruct (IH eq_refl) as [-> Hex]. split; auto.
  - intros [= <-]. split; auto.
Qed.

Lemma lookup_all_absent (vocab : dict Z bytes) (ids : list Z) :
  Exists (fun idx => dict_get vocab idx = None) ids ->
  lookup_all vocab ids = Raise KeyError.
Proof.
  induction 1 as [idx ids H | idx ids _ IH]; simpl; unfold dict_index.
  - now rewrite H.
  - destruct (dict_get vocab idx); simpl; [now rewrite IH | reflexivity].
Qed.

(* ----------------------------------------------------------------- *)
(** ** [get_stats], [min] and the strict decrease of [merge] *)

Lemma dict_set_keys_in {K V : Type} {KK : Key K} {KL : KeyLaws K}
      (d : dict K V) (k k0 : K) (v : V) :
  In k0 (dict_keys (dict_set d k v)) <-> k0 = k \/ In k0 (dict_keys d).
Proof.
  induction d as [|[k' v'] d IH]; simpl.
  - intuition.
  - destruct (key_eqb_spec k' k) as [->|N]; simpl.
    + intuition.
    + rewrite IH. intuition.
Qed.

Lemma get_stats_fold_keys (pairs : list (Z * Z)) :
  forall (counts : stats) (p : Z * Z),
    In p (dict_keys
            (fold_left (fun counts p => dict_set counts p (count_of counts p + 1))
                       pairs counts))
    <-> In p (dict_keys counts) \/ In p pairs.
Proof.
  induction pairs as [|q pairs IH]; intros counts p; simpl.
  - intuition.
  - rewrite IH, dict_set_keys_in. intuition.
Qed.

(** The keys of [get_stats(ids, None)] are the adjacent pairs of [ids]. *)
Lemma get_stats_keys (ids : list Z) (p : Z * Z) :
  In p (dict_keys (get_stats ids None)) <-> In p (adjacent_pairs ids).
Proof.
  unfold get_stats. rewrite get_stats_fold_keys. simpl. intuition.
Qed.

Lemma adjacent_pairs_cons2 (x y : Z) (l : list Z) :
  adjacent_pairs (x :: y :: l) = (x, y) :: adjacent_pairs (y :: l).
Proof. reflexivity. Qed.

Lemma adjacent_pairs_nonempty (ids : list Z) :
  (2 <= length ids)%nat -> adjacent_pairs ids <> [].
Proof.
  destruct ids as [|x [|y l]]; simpl; try lia. discriminate.
Qed.

Lemma py_min_in {A K : Type} (ltb : K -> K -> bool) (key : A -> K)
      (xs : list A) (p : A) :
  py_min ltb key xs = Ok p -> In p xs.
Proof.
  destruct xs as [|x r]; simpl; [discriminate|]. intros [= <-].
  revert x. induction r as [|y r IH]; intros x; simpl; [auto|].
  destruct (IH (if ltb (key y) (key x) then y else x)) as [H|H]; auto.
  destruct (ltb (key y) (key x)); auto.
Qed.

Lemma py_min_nonempty {A K : Type} (ltb : K -> K -> bool) (key : A -> K)
      (xs : list A) :
  xs <> [] -> exists p, py_min ltb key xs = Ok p.
Proof. destruct xs; [congruence | simpl; eauto]. Qed.

(** When the pair [min] selects has no rank, no candidate has one. *)
Lemma py_min_rank_none (merges : dict (Z * Z) Z) (xs : list (Z * Z))
      (p : Z * Z) :
  py_min rank_ltb (dict_get merges) xs = Ok p ->
  dict_get merges p = None ->
  forall q, In q xs -> dict_get merges q = None.
Proof.
  destruct xs as [|x r]; simpl; [discriminate|]. intros [= <-].
  revert x. induction r as [|y r IH]; intros x; simpl.
  - intros H q [<-|[]]. exact H.
  - intros H. specialize (IH _ H).
    assert (Hx : dict_get merges x = None /\ dict_get merges y = None).
    { specialize (IH _ (or_introl eq_refl)).
      destruct (rank_ltb (dict_get merges y) (dict_get merges x)) eqn:E.
      - rewrite IH in E. discriminate.
      - rewrite IH in E. destruct (dict_get merges y); [discriminate|auto]. }
    intros q [<-|[<-|Hq]]; [tauto | tauto |].
    apply IH. now right.
Qed.

Lemma merge_rec_nonempty (x : Z) (l : list Z) (pair : Z * Z) (idx : Z) :
  (1 <= length (merge_rec (x :: l) pair idx))%nat.
Proof.
  destruct l as [|y l]; [simpl; lia|].
  rewrite merge_rec_cons2.
  destruct ((x =? fst pair) && (y =? snd pair)); simpl; lia.
Qed.

(** Merging a pair that occurs in the sequence shortens it. *)
Lemma merge_rec_shorter (ids : list Z) (pair : Z * Z) (idx : Z) :
  In pair (adjacent_pairs ids) ->
  (length (merge_rec ids pair idx) < length ids)%nat.
Proof.
  induction ids as [| x | x y l IHl IHyl] using list_ind2.
  - intros [].
  - intros [].
  - rewrite adjacent_pairs_cons2, merge_rec_cons2.
    destruct ((x =? fst pair) && (y =? snd pair)) eqn:E.
    + intros _. pose proof (merge_rec_length l pair idx). simpl. lia.
    + intros [H|H].
      * subst pair. simpl in E. rewrite !Z.eqb_refl in E. discriminate.
      * specialize (IHyl H). simpl in *. lia.
Qed.

(* ----------------------------------------------------------------- *)
(** ** [encode] *)

Lemma call_get_stats_binding (documented : bool) (ids : list Z) :
  call_get_stats (counts_binding documented) ids
  = if documented then Ok (get_stats ids None) else Raise TypeError.
Proof. destruct documented; reflexivity. Qed.

(** What one pass of the loop body does on a sequence of two or more
    ids. *)
Lemma encode_body_cases (documented : bool) (merges : dict (Z * Z) Z)
      (ids : list Z) :
  (2 <= length ids)%nat ->
  match encode_body (counts_binding documented) merges ids with
  | Continue ids' => (1 <= length ids' < length ids)%nat
  | Break => forall p, In p (adjacent_pairs ids) -> dict_get merges p = None
  | Throw e => e = TypeError /\ documented = false
  end.
Proof.
  intros Hlen. unfold encode_body. rewrite call_get_stats_binding.
  destruct documented; [|auto].
  assert (Hne : dict_keys (get_stats ids None) <> []).
  { intros E. apply (adjacent_pairs_nonempty _ Hlen).
    destruct (adjacent_pairs ids) as [|p ps] eqn:Ep; [reflexivity|].
    assert (Hin : In p (dict_keys (get_stats ids None)))
      by (apply get_stats_keys; rewrite Ep; now left).
    rewrite E in Hin. destruct Hin. }
  destruct (py_min_nonempty rank_ltb (dict_get merges) _ Hne) as [p Hp].
  rewrite Hp.
  pose proof (py_min_in _ _ _ _ Hp) as Hin. apply get_stats_keys in Hin.
  destruct (dict_get merges p) as [idx|] eqn:Em.
  - rewrite merge_eq_rec. split.
    + destruct ids as [|x l]; [simpl in Hlen; lia|]. apply merge_rec_nonempty.
    + now apply merge_rec_shorter.
  - intros q Hq. apply (py_min_rank_none _ _ _ Hp Em). now apply get_stats_keys.
Qed.

(** As many passes as the sequence is long are enough. *)
Lemma encode_loop_finishes (documented : bool) (merges : dict (Z * Z) Z) :
  forall (fuel : nat) (ids : list Z),
    (length ids <= fuel)%nat ->
    exists r, encode_loop (counts_binding documented) fuel merges ids = Some r.
Proof.
  induction fuel as [|fuel IH]; intros ids Hfuel.
  - destruct ids; [|simpl in Hfuel; lia]. simpl. eauto.
  - cbn [encode_loop]. destruct (Nat.ltb_spec (length ids) 2) as [H|H]; [eauto|].
    pose proof (encode_body_cases documented merges ids H) as Hb.
    destruct (encode_body (counts_binding documented) merges ids);
      [|eauto|eauto].
    apply IH. lia.
Qed.


(** C1 (the defect): on any text of two or more bytes [encode] raises
    TypeError, because [get_stats] is called without [counts] and the
    signature gives that parameter no default; nothing is returned
    that [decode] could turn back into the text. *)
Theorem encode_raises_type_error (self : Tokenizer) (text : pystr)
        (ids : bytes) :
  utf8_encode text = Ok ids -> (2 <= length ids)%nat ->
  encode self text = Some (Raise TypeError).
Proof.
  intros Hu Hlen. unfold encode, encode_with. rewrite Hu.
  destruct ids as [|a [|b l]]; simpl in Hlen; try lia.
  reflexivity.
Qed.

Lemma encode_raises_type_error_witness :
  utf8_encode (str_of "ab") = Ok [97; 98]
  /\ encode init (str_of "ab") = Some (Raise TypeError).
Proof.
  split; [reflexivity|].
  apply (encode_raises_type_error init (str_of "ab") [97; 98]);
    [reflexivity | simpl; lia].
Defined.

(* ----------------------------------------------------------------- *)
(** ** [train] *)

(** C6 (the defect): with [vocab_size > 256] the first pass of the
    training loop calls [get_stats(ids)] and raises TypeError; no merge
    step is made and the tokenizer is left as it was. *)
Theorem train_raises_type_error (self : Tokenizer) (text : pystr)
        (ids : bytes) (vocab_size : Z) :
  utf8_encode text = Ok ids -> 256 < vocab_size ->
  train self text vocab_size = Raised TypeError self.
Proof.
  intros Hu Hv. unfold train, train_with. rewrite Hu.
  destruct (Z.ltb_spec vocab_size 256); [lia|].
  destruct (Z.to_nat (vocab_size - 256)) eqn:E; [lia|].
  reflexivity.
Qed.

Lemma train_raises_type_error_witness :
  utf8_encode (str_of "aaabdaaabac")
  = Ok [97; 97; 97; 98; 100; 97; 97; 97; 98; 97; 99]
  /\ train init (str_of "aaabdaaabac") 259 = Raised TypeError init.
Proof.
  split; [reflexivity|].
  apply (train_raises_type_error init (str_of "aaabdaaabac")
           [97; 97; 97; 98; 100; 97; 97; 97; 98; 97; 99] 259);
    [reflexivity | lia].
Defined.

Lemma utf8_encode_char_raise (c : Z) (e : exn) :
  utf8_encode_char c = Raise e -> e = UnicodeEncodeError.
Proof.
  unfold utf8_encode_char.
  repeat match goal with
         | |- context [if ?c then _ else _] => destruct c
         end; congruence.
Qed.

Lemma utf8_encode_raise (s : pystr) (e : exn) :
  utf8_encode s = Raise e -> e = UnicodeEncodeError.
Proof.
  induction s as [|c s IH]; simpl; [discriminate|].
  destruct (utf8_encode_char c) eqn:Ec; simpl.
  - destruct (utf8_encode s); simpl; [discriminate|].
    intros [= <-]. now apply IH.
  - intros [= <-]. now apply utf8_encode_char_raise in Ec.
Qed.

(** The other outcomes of [train]: AssertionError exactly below 256,
    and at 256 an empty merge table with the 256 byte entries. *)
Lemma train_assertion (self : Tokenizer) (text : pystr) (vocab_size : Z) :
  (exists self', train self text vocab_size = Raised AssertionError self')
  <-> vocab_size < 256.
Proof.
  unfold train, train_with.
  destruct (Z.ltb_spec vocab_size 256) as [H|H]; [split; eauto|].
  split; [|lia]. intros [self' Hr]. exfalso.
  destruct (utf8_encode text) as [ids|e] eqn:Hu.
  - destruct (Z.to_nat (vocab_size - 256)); simpl in Hr; discriminate.
  - apply utf8_encode_raise in Hu. congruence.
Qed.

Lemma train_at_256 (self : Tokenizer) (text : pystr) (ids : bytes) :
  utf8_encode text = Ok ids ->
  train self text 256
  = Returned {| merges := []; patterns := patterns self;
                special_tokens := special_tokens self;
                vocab := byte_vocab |}.
Proof. intros Hu. unfold train, train_with. now rewrite Hu. Qed.

(* ----------------------------------------------------------------- *)
(** ** [load]: the stages and what each can raise *)

Lemma py_int_raise (s : pystr) (e : exn) :
  py_int s = Raise e -> e = ValueError.
Proof.
  unfold py_int. destruct (parse_uint _ false); [discriminate|].
  now intros [= <-].
Qed.

Lemma parse_merge_line_raise (line : pystr) (e : exn) :
  parse_merge_line line = Raise e -> e = ValueError.
Proof.
  unfold parse_merge_line.
  destruct (split (strip line)) as [|t1 [|t2 [|t3 ts]]];
    try (now intros [= <-]).
  destruct (py_int t1) eqn:E1; simpl.
  - destruct (py_int t2) eqn:E2; simpl; [discriminate|].
    intros [= <-]. now apply py_int_raise in E2.
  - intros [= <-]. now apply py_int_raise in E1.
Qed.

Lemma read_specials_raise (n : nat) :
  forall f acc idx e, read_specials n f acc idx = Raise e -> e = ValueError.
Proof.
  induction n as [|n IH]; intros f acc idx e; simpl; [discriminate|].
  destruct (split (strip (fst (readline f)))) as [|t1 [|t2 [|t3 ts]]];
    try (now intros [= <-]).
  destruct (py_int t2) eqn:E; simpl.
  - apply IH.
  - intros [= <-]. now apply py_int_raise in E.
Qed.

(** After the special-token loop [idx] is still the integer it was, or
    it is a string; the file has moved on by [n] lines. *)
Lemma read_specials_ok (n : nat) :
  forall f acc idx s idx' rest,
    read_specials n f acc idx = Ok (s, idx', rest) ->
    rest = skip_lines n f
    /\ ((n = O /\ idx' = idx /\ s = acc)
        \/ (n <> O /\ exists t, idx' = IdxStr t)).
Proof.
  induction n as [|n IH]; intros f acc idx s idx' rest; simpl.
  - intros [= <- <- <-]. auto.
  - destruct (split (strip (fst (readline f)))) as [|t1 [|t2 [|t3 ts]]];
      try discriminate.
    destruct (py_int t2) eqn:E; simpl; [|discriminate].
    intros H. apply IH in H. destruct H as [-> H]. split; [reflexivity|].
    right. split; [discriminate|].
    destruct H as [(_ & -> & _)|(_ & t & ->)]; eauto.
Qed.

Lemma read_merges_raise (lines : list pystr) :
  forall acc idx e,
    read_merges lines acc idx = Raise e -> e = ValueError \/ e = TypeError.
Proof.
  induction lines as [|line lines IH]; intros acc idx e; simpl;
    [discriminate|].
  destruct (parse_merge_line line) eqn:E; simpl.
  - destruct idx; [apply IH | intros [= <-]; auto].
  - intros [= <-]. left. now apply parse_merge_line_raise in E.
Qed.

Lemma read_merges_int (lines : list pystr) :
  forall acc n m,
    read_merges lines acc (IdxInt n) = Ok m ->
    exists pairs, map parse_merge_line lines = map Ok pairs
                  /\ m = assign_ids pairs acc n.
Proof.
  induction lines as [|line lines IH]; intros acc n m; simpl.
  - intros [= <-]. exists []. auto.
  - destruct (parse_merge_line line) as [p|] eqn:E; simpl; [|discriminate].
    intros H. apply IH in H. destruct H as (pairs & Hp & ->).
    exists (p :: pairs). simpl. now rewrite Hp.
Qed.

Lemma read_merges_str (lines : list pystr) (acc : dict (Z * Z) Z)
      (t : pystr) (m : dict (Z * Z) Z) :
  read_merges lines acc (IdxStr t) = Ok m -> lines = [] /\ m = acc.
Proof.
  destruct lines as [|line lines]; simpl.
  - intros [= <-]. auto.
  - destruct (parse_merge_line line); simpl; discriminate.
Qed.

Lemma vocab_of_merges_raise (items : list ((Z * Z) * Z)) :
  forall v e, vocab_of_merges items v = Raise e -> e = KeyError.
Proof.
  induction items as [|[p idx] items IH]; intros v e; simpl; [discriminate|].
  unfold dict_index.
  destruct (dict_get v (fst p)); simpl; [|now intros [= <-]].
  destruct (dict_get v (snd p)); simpl; [|now intros [= <-]].
  apply IH.
Qed.

Lemma vocab_of_specials_raise (items : list (pystr * Z)) :
  forall v e, vocab_of_specials items v = Raise e -> e = UnicodeEncodeError.
Proof.
  induction items as [|[s idx] items IH]; intros v e; simpl; [discriminate|].
  destruct (utf8_encode s) eqn:E; simpl; [apply IH|].
  intros [= <-]. now apply utf8_encode_raise in E.
Qed.

Lemma build_vocab_raise (m : dict (Z * Z) Z) (s : dict pystr Z) (e : exn) :
  _build_vocab m s = Raise e -> e = KeyError \/ e = UnicodeEncodeError.
Proof.
  unfold _build_vocab.
  destruct (vocab_of_merges m byte_vocab) eqn:E; simpl.
  - intros H. right. now apply vocab_of_specials_raise in H.
  - intros [= <-]. left. now apply vocab_of_merges_raise in E.
Qed.

(** A call of [load] that returns has gone through every stage. *)
Lemma load_returned (self : Tokenizer) (model_file content : pystr)
      (self' : Tokenizer) :
  load self model_file content = Returned self' ->
  exists n s idx m v,
    py_int (strip (fst (count_line content))) = Ok n
    /\ read_specials (Z.to_nat n) (snd (count_line content)) [] (IdxInt 256)
       = Ok (s, idx, skip_lines (Z.to_nat n) (snd (count_line content)))
    /\ read_merges (merge_lines content) [] idx = Ok m
    /\ _build_vocab m s = Ok v
    /\ version_line content = VERSION
    /\ endswith model_file (str_of ".model") = true
    /\ self' = {| merges := m; patterns := pattern_line content;
                  special_tokens := s; vocab := v |}.
Proof.
  unfold load.
  destruct (endswith model_file (str_of ".model")); simpl; [|discriminate].
  fold (version_line content).
  destruct (str_eqb (version_line content) VERSION) eqn:Ev; simpl;
    [|discriminate].
  apply str_eqb_eq in Ev.
  fold (pattern_line content). fold (count_line content).
  unfold merge_lines.
  destruct (py_int _) as [n|e1] eqn:En; [|discriminate].
  destruct (read_specials _ _ _ _) as [[[s idx] rest]|e1] eqn:Es;
    [|discriminate].
  destruct (read_merges _ _ _) as [m|e1] eqn:Em; [|discriminate].
  destruct (_build_vocab m s) as [v|e1] eqn:Eb; [|discriminate].
  intros [= <-].
  pose proof (read_specials_ok _ _ _ _ _ _ _ Es) as [-> _].
  exists n, s, idx, m, v. repeat split; auto.
Qed.

Lemma load_raised (self : Tokenizer) (model_file content : pystr)
      (e : exn) (self' : Tokenizer) :
  load self model_file content = Raised e self' ->
  (e = AssertionError /\ self' = self)
  \/ ((e = ValueError \/ e = TypeError)
      /\ self' = set_patterns self (pattern_line content))
  \/ ((e = KeyError \/ e = UnicodeEncodeError)
      /\ exists m s,
           self' = set_tables (set_patterns self (pattern_line content)) m s).
Proof.
  unfold load.
  destruct (endswith model_file (str_of ".model")); simpl;
    [|intros [= <- <-]; auto].
  destruct (str_eqb _ VERSION); simpl; [|intros [= <- <-]; auto].
  fold (pattern_line content). fold (count_line content).
  destruct (py_int _) as [n|e1] eqn:En.
  2:{ intros [= <- <-]. apply py_int_raise in En. auto. }
  destruct (read_specials _ _ _ _) as [[[s idx] rest]|e1] eqn:Es.
  2:{ intros [= <- <-]. apply read_specials_raise in Es. auto. }
  destruct (read_merges _ _ _) as [m|e1] eqn:Em.
  2:{ intros [= <- <-]. apply read_merges_raise in Em. auto 6. }
  destruct (_build_vocab m s) as [v|e1] eqn:Ev; [discriminate|].
  intros [= <- <-]. apply build_vocab_raise in Ev. right. right. eauto.
Qed.

(** C7 (as amended): [load] compares the first line with the version
    string after stripping the white space around it; when that
    differs, it raises AssertionError and the merge table, pattern,
    special tokens and vocabulary are those of before. *)
Theorem load_version_mismatch (self : Tokenizer) (model_file content : pystr) :
  version_line content <> VERSION ->
  load self model_file content = Raised AssertionError self.
Proof.
  intros H. unfold load.
  destruct (endswith model_file (str_of ".model")); simpl; [|reflexivity].
  fold (version_line content).
  destruct (str_eqb (version_line content) VERSION) eqn:E; [|reflexivity].
  apply str_eqb_eq in E. contradiction.
Qed.

Lemma load_version_mismatch_witness :
  version_line file_old_version = str_of "bpe v0.9"
  /\ load init model_name file_old_version = Raised AssertionError init.
Proof.
  split; [reflexivity|].
  apply (load_version_mismatch init model_name file_old_version).
  intros H. vm_compute in H. discriminate H.
Defined.

(** C7 as stated fails: a first line that is the version string
    followed by a space does not equal it, and [load] accepts the
    file. *)
Lemma load_accepts_padded_version :
  fst (readline (universal_newlines file_padded_version))
  = str_of "bpe v1.0 " ++ [10]
  /\ str_eqb (str_of "bpe v1.0 ") VERSION = false
  /\ load init model_name file_padded_version = Returned init.
Proof. repeat split. Qed.

(** C10: [load] is not atomic on parse errors.  A file with the right
    version line and a merge line of three tokens, or one with an id
    that is no integer, makes [load] raise ValueError after the pattern
    of the file has been installed, while the merge table, special
    tokens and vocabulary are those of before.  In general, whenever
    [load] raises ValueError or TypeError the tokenizer is the prior
    one with the pattern line of the file as its pattern. *)
Theorem load_not_atomic (self : Tokenizer) :
  load self model_name file_wrong_count
  = Raised ValueError (set_patterns self (str_of "PAT"))
  /\ load self model_name file_bad_int
     = Raised ValueError (set_patterns self (str_of "PAT"))
  /\ patterns (set_patterns self (str_of "PAT")) = str_of "PAT"
  /\ merges (set_patterns self (str_of "PAT")) = merges self
  /\ special_tokens (set_patterns self (str_of "PAT")) = special_tokens self
  /\ vocab (set_patterns self (str_of "PAT")) = vocab self
  /\ (forall model_file content e self',
         load self model_file content = Raised e self' ->
         e = ValueError \/ e = TypeError ->
         self' = set_patterns self (pattern_line content)).
Proof.
  repeat split.
  intros model_file content e self' H He.
  apply load_raised in H.
  destruct H as [[-> _]|[[_ ->]|[[Hk|Hk] _]]];
    try reflexivity; destruct He; congruence.
Qed.

(* ----------------------------------------------------------------- *)
(** ** The ids the merge loop of [load] assigns *)

Lemma ids_from_succ (n : Z) (k : nat) :
  ids_from n (S k) = n :: ids_from (n + 1) k.
Proof.
  unfold ids_from. simpl. f_equal; [lia|].
  rewrite <- seq_shift, map_map. apply map_ext. intros i. lia.
Qed.

Lemma ids_from_length (n : Z) (k : nat) : length (ids_from n k) = k.
Proof. unfold ids_from. now rewrite length_map, length_seq. Qed.

Lemma ids_from_nth (n : Z) (k i : nat) :
  (i < k)%nat -> nth i (ids_from n k) 0 = n + Z.of_nat i.
Proof.
  intros H. unfold ids_from.
  rewrite (nth_indep _ 0 (n + Z.of_nat 0))
    by (now rewrite length_map, length_seq).
  rewrite (map_nth (fun i => n + Z.of_nat i)), seq_nth by assumption.
  reflexivity.
Qed.

Section DictValues.

Context {K : Type} {KK : Key K} {KL : KeyLaws K}.

Lemma dict_set_values_in (d : dict K Z) (k : K) (v v' : Z) :
  In v' (dict_values (dict_set d k v)) -> v' = v \/ In v' (dict_values d).
Proof.
  induction d as [|[k0 v0] d IH]; simpl.
  - intuition.
  - destruct (key_eqb k0 k); simpl; intuition.
Qed.

Lemma dict_set_values_nodup (d : dict K Z) (k : K) (v : Z) :
  NoDup (dict_values d) -> ~ In v (dict_values d) ->
  NoDup (dict_values (dict_set d k v)).
Proof.
  induction d as [|[k0 v0] d IH]; simpl; intros ND Hn.
  - repeat constructor. simpl. tauto.
  - inversion ND as [|? ? Hn0 ND']; subst.
    destruct (key_eqb k0 k); simpl.
    + constructor; [tauto | assumption].
    + constructor.
      * intros Hin. apply dict_set_values_in in Hin. intuition.
      * apply IH; tauto.
Qed.

Lemma dict_set_length_le (d : dict K Z) (k : K) (v : Z) :
  (length d <= length (dict_set d k v) <= S (length d))%nat.
Proof.
  induction d as [|[k0 v0] d IH]; simpl; [lia|].
  destruct (key_eqb k0 k); simpl; lia.
Qed.

End DictValues.

(** Whatever pairs are read, the ids stored are distinct and lie in
    the range the loop has counted through. *)
Lemma assign_ids_values (pairs : list (Z * Z)) :
  forall (acc : dict (Z * Z) Z) (lo n : Z),
    lo <= n ->
    NoDup (dict_values acc) ->
    Forall (fun v => lo <= v < n) (dict_values acc) ->
    NoDup (dict_values (assign_ids pairs acc n))
    /\ Forall (fun v => lo <= v < n + Z.of_nat (length pairs))
              (dict_values (assign_ids pairs acc n)).
Proof.
  induction pairs as [|p pairs IH]; intros acc lo n Hlo ND HF; simpl.
  - split; [assumption|].
    eapply Forall_impl; [|exact HF]. simpl. intros; lia.
  - destruct (IH (dict_set acc p n) lo (n + 1)) as [H1 H2].
    + lia.
    + apply dict_set_values_nodup; [assumption|].
      intros Hin. rewrite Forall_forall in HF. specialize (HF _ Hin). lia.
    + rewrite Forall_forall in *. intros v Hv.
      apply dict_set_values_in in Hv. destruct Hv as [->|Hv]; [lia|].
      specialize (HF _ Hv). lia.
    + split; [assumption|].
      eapply Forall_impl; [|exact H2]. simpl. intros; lia.
Qed.

(** Pairs that are pairwise distinct, and new to the table, are
    appended in order with consecutive ids. *)
Lemma assign_ids_fresh (pairs : list (Z * Z)) :
  forall (acc : dict (Z * Z) Z) (n : Z),
    NoDup pairs ->
    (forall p, In p pairs -> dict_get acc p = None) ->
    assign_ids pairs acc n
    = acc ++ combine pairs (ids_from n (length pairs)).
Proof.
  induction pairs as [|p pairs IH]; intros acc n ND Hnew;
    cbn [assign_ids length].
  - simpl. now rewrite app_nil_r.
  - inversion ND as [|? ? Hnp ND']; subst.
    rewrite ids_from_succ. cbn [combine].
    rewrite IH; [| assumption |].
    + rewrite (dict_set_new acc p n) by (apply Hnew; now left).
      now rewrite <- app_assoc.
    + intros q Hq. rewrite dict_get_set_other.
      * apply Hnew. now right.
      * intros ->. contradiction.
Qed.

Lemma combine_values (pairs : list (Z * Z)) (ids : list Z) :
  length pairs = length ids ->
  dict_values (combine pairs ids) = ids.
Proof.
  revert ids. induction pairs as [|p pairs IH]; intros [|i ids]; simpl;
    try discriminate; [reflexivity|].
  intros [= H]. f_equal. now apply IH.
Qed.

Lemma assign_ids_gap_free (pairs : list (Z * Z)) :
  NoDup pairs -> gap_free (assign_ids pairs [] 256).
Proof.
  intros ND. unfold gap_free.
  rewrite assign_ids_fresh by (auto; intros; reflexivity).
  simpl. rewrite length_combine, ids_from_length, Nat.min_id.
  apply combine_values. now rewrite ids_from_length.
Qed.

(** The merge table of a tokenizer that [load] returned. *)
Lemma load_merges (self : Tokenizer) (model_file content : pystr)
      (self' : Tokenizer) :
  load self model_file content = Returned self' ->
  exists pairs,
    merges self' = assign_ids pairs [] 256
    /\ (length pairs <= length (merge_lines content))%nat
    /\ (NoDup (map parse_merge_line (merge_lines content)) -> NoDup pairs).
Proof.
  intros H. apply load_returned in H.
  destruct H as (n & s & idx & m & v & _ & Hs & Hm & _ & _ & _ & ->). simpl.
  apply read_specials_ok in Hs. destruct Hs as [_ Hs].
  destruct idx as [k|t].
  - destruct Hs as [(_ & [= <-] & _)|(_ & t & [=])].
    apply read_merges_int in Hm. destruct Hm as (pairs & Hp & ->).
    exists pairs. split; [reflexivity|].
    assert (Hlen : length pairs = length (merge_lines content)).
    { rewrite <- (length_map Ok pairs), <- Hp. apply length_map. }
    split; [lia|].
    rewrite Hp. apply NoDup_map_inv.
  - apply read_merges_str in Hm. destruct Hm as [_ ->].
    exists []. repeat split; [simpl; lia | constructor].
Qed.

(* ----------------------------------------------------------------- *)
(** ** More on [merge]: elements and adjacent pairs of the result *)

Lemma merge_rec_forall (P : Z -> Prop) (ids : list Z) (pair : Z * Z)
      (idx : Z) :
  Forall P ids -> P idx -> Forall P (merge_rec ids pair idx).
Proof.
  intros H Hidx.
  induction ids as [| x | x y l IHl IHyl] using list_ind2.
  - constructor.
  - assumption.
  - rewrite merge_rec_cons2.
    inversion H as [|? ? Hx H']; subst. inversion H' as [|? ? Hy H'']; subst.
    destruct ((x =? fst pair) && (y =? snd pair)); constructor; auto.
Qed.

Lemma adjacent_pairs_cons (a : Z) (r : list Z) :
  adjacent_pairs (a :: r)
  = match r with
    | [] => []
    | h :: _ => (a, h) :: adjacent_pairs r
    end.
Proof. destruct r; reflexivity. Qed.

Lemma adjacent_pairs_in (a b : Z) (ids : list Z) :
  In (a, b) (adjacent_pairs ids) -> In a ids /\ In b ids.
Proof.
  induction ids as [|x l IH]; [intros []|].
  rewrite adjacent_pairs_cons. destruct l as [|y l]; [intros []|].
  intros [[= <- <-]|H]; simpl; [tauto|].
  specialize (IH H). simpl in IH. tauto.
Qed.

(** The head of a merged sequence is the old head or the new id. *)
Lemma merge_rec_head (y : Z) (l : list Z) (pair : Z * Z) (idx : Z) :
  exists h r, merge_rec (y :: l) pair idx = h :: r /\ (h = y \/ h = idx).
Proof.
  destruct l as [|z l]; [simpl; eauto|].
  rewrite merge_rec_cons2.
  destruct ((y =? fst pair) && (z =? snd pair)); eauto.
Qed.

(** With an id that is neither component of the pair, no occurrence of
    the pair is left. *)
Lemma merge_rec_removes (ids : list Z) (pair : Z * Z) (idx : Z) :
  idx <> fst pair -> idx <> snd pair ->
  ~ In pair (adjacent_pairs (merge_rec ids pair idx)).
Proof.
  intros H1 H2.
  induction ids as [| x | x y l IHl IHyl] using list_ind2.
  - intros [].
  - intros [].
  - rewrite merge_rec_cons2.
    destruct ((x =? fst pair) && (y =? snd pair)) eqn:E;
      rewrite adjacent_pairs_cons.
    + destruct (merge_rec l pair idx) as [|h r]; [intros []|].
      intros [Hp|Hp]; [|contradiction].
      subst pair. simpl in H1. congruence.
    + destruct (merge_rec_head y l pair idx) as (h & r & Hr & Hh).
      rewrite Hr in *.
      intros [Hp|Hp]; [|contradiction].
      subst pair. simpl in *.
      destruct Hh as [-> | ->]; [|congruence].
      rewrite !Z.eqb_refl in E. discriminate.
Qed.

(** A pair of the result that does not involve the new id was a pair
    of the sequence. *)
Lemma merge_rec_pairs (ids : list Z) (pair q : Z * Z) (idx : Z) :
  In q (adjacent_pairs (merge_rec ids pair idx)) ->
  fst q <> idx -> snd q <> idx ->
  In q (adjacent_pairs ids).
Proof.
  intros Hq H1 H2. revert Hq.
  induction ids as [| x | x y l IHl IHyl] using list_ind2.
  - intros [].
  - intros [].
  - rewrite merge_rec_cons2, adjacent_pairs_cons2.
    destruct ((x =? fst pair) && (y =? snd pair)) eqn:E;
      rewrite adjacent_pairs_cons.
    + destruct (merge_rec l pair idx) as [|h r] eqn:Er; [intros []|].
      intros [Hp|Hp]; [subst q; simpl in H1; congruence|].
      right. specialize (IHl Hp).
      rewrite adjacent_pairs_cons. destruct l as [|z l]; [destruct IHl|].
      now right.
    + destruct (merge_rec_head y l pair idx) as (h & r & Hr & Hh).
      rewrite Hr in *.
      intros [Hp|Hp]; [|right; auto].
      subst q. simpl in *. destruct Hh as [-> | ->]; [now left | congruence].
Qed.

Lemma py_max_in {A K : Type} (ltb : K -> K -> bool) (key : A -> K)
      (xs : list A) (p : A) :
  py_max ltb key xs = Ok p -> In p xs.
Proof.
  destruct xs as [|x r]; simpl; [discriminate|]. intros [= <-].
  revert x. induction r as [|y r IH]; intros x; simpl; [auto|].
  destruct (IH (if ltb (key x) (key y) then y else x)) as [H|H]; auto.
  destruct (ltb (key x) (key y)); auto.
Qed.

Lemma py_max_raise {A K : Type} (ltb : K -> K -> bool) (key : A -> K)
      (xs : list A) (e : exn) :
  py_max ltb key xs = Raise e -> e = ValueError /\ xs = [].
Proof. destruct xs; simpl; [now intros [= <-] | discriminate]. Qed.

(* ----------------------------------------------------------------- *)
(** ** The byte table and the vocabulary of a merge table *)

Lemma byte_table_get (k : nat) :
  forall (a : nat) (b : Z),
    dict_get (map (fun i => (Z.of_nat i, [Z.of_nat i])) (seq a k)) b
    = if (Z.of_nat a <=? b) && (b <? Z.of_nat (a + k))
      then Some [b] else None.
Proof.
  induction k as [|k IH]; intros a b; simpl.
  - destruct (Z.leb_spec (Z.of_nat a) b), (Z.ltb_spec b (Z.of_nat (a + 0)));
      simpl; auto; lia.
  - unfold key_eqb at 1, Key_Z. destruct (Z.eqb_spec (Z.of_nat a) b) as [<-|N].
    + destruct (Z.leb_spec (Z.of_nat a) (Z.of_nat a)),
        (Z.ltb_spec (Z.of_nat a) (Z.of_nat (a + S k))); simpl; auto; lia.
    + rewrite IH.
      destruct (Z.leb_spec (Z.of_nat (S a)) b),
        (Z.ltb_spec b (Z.of_nat (S a + k))),
        (Z.leb_spec (Z.of_nat a) b),
        (Z.ltb_spec b (Z.of_nat (a + S k))); simpl; auto; lia.
Qed.

Lemma byte_vocab_get (b : Z) :
  dict_get byte_vocab b = if (0 <=? b) && (b <? 256) then Some [b] else None.
Proof. unfold byte_vocab. now rewrite byte_table_get. Qed.

Lemma vocab_of_merges_app (m1 m2 : list ((Z * Z) * Z)) (v : dict Z bytes) :
  vocab_of_merges (m1 ++ m2) v
  = (v1 <- vocab_of_merges m1 v ;; vocab_of_merges m2 v1).
Proof.
  revert v. induction m1 as [|[p idx] m1 IH]; intros v; simpl; [reflexivity|].
  destruct (dict_index v (fst p)); simpl; [|reflexivity].
  destruct (dict_index v (snd p)); simpl; [|reflexivity].
  apply IH.
Qed.

Lemma assign_ids_app (l1 l2 : list (Z * Z)) :
  forall (acc : dict (Z * Z) Z) (n : Z),
    assign_ids (l1 ++ l2) acc n
    = assign_ids l2 (assign_ids l1 acc n) (n + Z.of_nat (length l1)).
Proof.
  induction l1 as [|p l1 IH]; intros acc n.
  - simpl. f_equal. lia.
  - cbn [app assign_ids length]. rewrite IH. f_equal. lia.
Qed.

Lemma assign_ids_keys (pairs : list (Z * Z)) :
  forall (acc : dict (Z * Z) Z) (n : Z) (q : Z * Z),
    In q (dict_keys (assign_ids pairs acc n))
    <-> In q (dict_keys acc) \/ In q pairs.
Proof.
  induction pairs as [|p pairs IH]; intros acc n q; simpl.
  - tauto.
  - rewrite IH, dict_set_keys_in. intuition.
Qed.

Lemma assign_ids_length (pairs : list (Z * Z)) (n : Z) :
  NoDup pairs -> length (assign_ids pairs [] n) = length pairs.
Proof.
  intros ND. rewrite assign_ids_fresh by (auto; intros; reflexivity).
  simpl. now rewrite length_combine, ids_from_length, Nat.min_id.
Qed.

(** The bytes of an encoded text. *)
Lemma utf8_encode_char_bytes (c : Z) (bs : bytes) :
  utf8_encode_char c = Ok bs -> Forall (fun b => 0 <= b < 256) bs.
Proof.
  unfold utf8_encode_char.
  destruct (Z.ltb_spec c 0); [discriminate|].
  destruct (Z.ltb_spec c 0x80).
  { intros Hb. replace bs with [c] by congruence.
    repeat constructor; lia. }
  destruct (Z.ltb_spec c 0x800).
  { intros Hb.
    replace bs with [0xC0 + c / 64; 0x80 + c mod 64] by congruence.
    repeat constructor; arith. }
  destruct (Z.ltb_spec c 0x10000).
  { destruct ((0xD800 <=? c) && (c <=? 0xDFFF)) eqn:E; [discriminate|].
    intros Hb.
    replace bs
      with [0xE0 + c / 4096; 0x80 + (c / 64) mod 64; 0x80 + c mod 64]
      by congruence.
    repeat constructor; arith. }
  destruct (Z.ltb_spec c 0x110000); [|discriminate].
  intros Hb.
  replace bs
    with [0xF0 + c / 262144; 0x80 + (c / 4096) mod 64;
          0x80 + (c / 64) mod 64; 0x80 + c mod 64]
    by congruence.
  repeat constructor; arith.
Qed.

Lemma utf8_encode_bytes (s : pystr) (bs : bytes) :
  utf8_encode s = Ok bs -> Forall (fun b => 0 <= b < 256) bs.
Proof.
  revert bs. induction s as [|c s IH]; simpl; intros bs.
  - intros [= <-]. constructor.
  - destruct (utf8_encode_char c) as [b|] eqn:Ec; simpl; [|discriminate].
    destruct (utf8_encode s) as [bs'|]; simpl; [|discriminate].
    intros [= <-]. apply Forall_app. split.
    + eapply utf8_encode_char_bytes; eauto.
    + now apply IH.
Qed.

(** Undoing the merge gives the sequence back, when the new id does
    not occur in it: nothing but occurrences of the pair was replaced. *)
Lemma unmerge_merge_rec (ids : list Z) (pair : Z * Z) (idx : Z) :
  ~ In idx ids -> unmerge (merge_rec ids pair idx) pair idx = ids.
Proof.
  unfold unmerge.
  induction ids as [| x | x y l IHl IHyl] using list_ind2; intros Hn.
  - reflexivity.
  - simpl. destruct (Z.eqb_spec x idx) as [->|_]; [|reflexivity].
    exfalso. apply Hn. now left.
  - rewrite merge_rec_cons2.
    destruct ((x =? fst pair) && (y =? snd pair)) eqn:E.
    + apply andb_true_iff in E. destruct E as [Ex Ey].
      apply Z.eqb_eq in Ex, Ey. subst x y.
      cbn [flat_map]. rewrite Z.eqb_refl, IHl; [reflexivity|].
      intros H. apply Hn. now do 2 right.
    + cbn [flat_map]. destruct (Z.eqb_spec x idx) as [->|_].
      * exfalso. apply Hn. now left.
      * rewrite IHyl; [reflexivity|]. intros H. apply Hn. now right.
Qed.

(** C5: one left-to-right pass over non-overlapping occurrences.
    The scan is the recursion [merge_rec]: a matching head pair emits
    [idx] and skips both elements, anything else emits the head and
    moves on by one.  Hence [X,X,X] with pair (X,X) gives [R,X], the
    docstring example gives [4,3,4], and the output is never longer
    than the input.  With an id that does not occur in the sequence,
    putting the pair back for every [idx] restores the sequence; with
    an id that is neither component of the pair, no occurrence of the
    pair is left. *)
Theorem merge_single_pass :
  (forall ids pair idx, merge ids pair idx = merge_rec ids pair idx)
  /\ (forall X R, merge [X; X; X] (X, X) R = [R; X])
  /\ merge [1; 2; 3; 1; 2] (1, 2) 4 = [4; 3; 4]
  /\ (forall ids pair idx, (length (merge ids pair idx) <= length ids)%nat)
  /\ (forall ids pair idx,
         ~ In idx ids -> unmerge (merge ids pair idx) pair idx = ids)
  /\ (forall ids pair idx,
         idx <> fst pair -> idx <> snd pair ->
         ~ In pair (adjacent_pairs (merge ids pair idx))).
Proof.
  split; [exact merge_eq_rec|].
  split.
  { intros X R. unfold merge. simpl. rewrite Z.eqb_refl. reflexivity. }
  split; [reflexivity|].
  split; [exact merge_length|].
  split.
  - intros ids pair idx H. rewrite merge_eq_rec.
    now apply unmerge_merge_rec.
  - intros ids pair idx H0 H1. rewrite merge_eq_rec.
    now apply merge_rec_removes.
Qed.

(* ----------------------------------------------------------------- *)
(** ** The training loop, with [counts] bound to [None] *)

(** What holds of the loop variables before step [i]. *)
Record train_inv (i : Z) (ids : list Z) (merges : dict (Z * Z) Z)
       (vocab : dict Z bytes) : Prop := {
  ti_step : 0 <= i;
  ti_ids : Forall (fun x => 0 <= x < 256 + i) ids;
  ti_keys : forall p, In p (dict_keys merges) ->
                      fst p < 256 + i /\ snd p < 256 + i
                      /\ ~ In p (adjacent_pairs ids);
  ti_merges : exists pairs,
      NoDup pairs /\ merges = assign_ids pairs [] 256
      /\ Z.of_nat (length pairs) = i;
  ti_vocab : vocab_of_merges merges byte_vocab = Ok vocab;
  ti_vocab_keys : forall x, dict_get vocab x <> None <-> 0 <= x < 256 + i;
  ti_bytes : forall b, 0 <= b < 256 -> dict_get vocab b = Some [b];
  ti_entries : forall p idx,
      dict_get merges p = Some idx ->
      exists b0 b1,
        dict_get vocab (fst p) = Some b0
        /\ dict_get vocab (snd p) = Some b1
        /\ dict_get vocab idx = Some (b0 ++ b1)
}.

Lemma train_inv_start (ids : bytes) :
  Forall (fun b => 0 <= b < 256) ids -> train_inv 0 ids [] byte_vocab.
Proof.
  intros H. constructor.
  - lia.
  - eapply Forall_impl; [|exact H]. simpl. intros; lia.
  - intros p [].
  - exists []. repeat split. constructor.
  - reflexivity.
  - intros x. rewrite byte_vocab_get.
    destruct (Z.leb_spec 0 x), (Z.ltb_spec x 256); simpl;
      split; intros; try lia; congruence.
  - intros b Hb. rewrite byte_vocab_get.
    destruct (Z.leb_spec 0 b), (Z.ltb_spec b 256); simpl; auto; lia.
  - intros p idx [=].
Qed.

(** One step of the loop keeps the invariant. *)
Lemma train_inv_step (i : Z) (ids : list Z) (merges : dict (Z * Z) Z)
      (vocab : dict Z bytes) (p : Z * Z) :
  train_inv i ids merges vocab ->
  In p (adjacent_pairs ids) ->
  exists b0 b1,
    dict_index vocab (fst p) = Ok b0
    /\ dict_index vocab (snd p) = Ok b1
    /\ train_inv (i + 1) (merge ids p (256 + i))
                 (dict_set merges p (256 + i))
                 (dict_set vocab (256 + i) (b0 ++ b1)).
Proof.
  intros [Hi Hids Hkeys (pairs & ND & Hm & Hlen) Hv Hvk Hbytes Hent] Hp.
  assert (Hpin : In (fst p) ids /\ In (snd p) ids)
    by (apply adjacent_pairs_in; now destruct p).
  rewrite Forall_forall in Hids.
  assert (H0 : 0 <= fst p < 256 + i) by (apply Hids; tauto).
  assert (H1 : 0 <= snd p < 256 + i) by (apply Hids; tauto).
  unfold dict_index.
  destruct (dict_get vocab (fst p)) as [b0|] eqn:E0;
    [|exfalso; now apply (proj2 (Hvk (fst p)))].
  destruct (dict_get vocab (snd p)) as [b1|] eqn:E1;
    [|exfalso; now apply (proj2 (Hvk (snd p)))].
  exists b0, b1. split; [reflexivity|]. split; [reflexivity|].
  assert (Hnew : dict_get merges p = None).
  { apply dict_get_none_notin. intros Hin. now apply Hkeys in Hin. }
  constructor.
  - lia.
  - rewrite merge_eq_rec. apply merge_rec_forall; [|lia].
    rewrite Forall_forall. intros x Hx. specialize (Hids _ Hx). lia.
  - intros q Hq. apply dict_set_keys_in in Hq. rewrite merge_eq_rec.
    destruct Hq as [->|Hq].
    + repeat split; try lia. apply merge_rec_removes; lia.
    + destruct (Hkeys _ Hq) as (Hq0 & Hq1 & Hqn).
      repeat split; try lia.
      intros Hin. apply Hqn. eapply merge_rec_pairs; eauto; lia.
  - exists (pairs ++ [p]). split; [|split].
    + apply NoDup_app; [assumption | repeat constructor; simpl; tauto |].
      intros a Ha [<-|[]].
      apply dict_get_none_notin in Hnew. apply Hnew.
      rewrite Hm. apply assign_ids_keys. now right.
    + rewrite assign_ids_app. cbn [assign_ids]. rewrite <- Hm. f_equal. lia.
    + rewrite length_app. simpl. lia.
  - rewrite (dict_set_new _ _ _ Hnew), vocab_of_merges_app, Hv. simpl.
    unfold dict_index. now rewrite E0, E1.
  - intros x. destruct (Z.eq_dec x (256 + i)) as [->|N].
    + rewrite dict_get_set_same. split; [lia | congruence].
    + rewrite dict_get_set_other by congruence. rewrite Hvk. lia.
  - intros b Hb. rewrite dict_get_set_other by lia. now apply Hbytes.
  - assert (Hold : forall x, x < 256 + i ->
                             dict_get (dict_set vocab (256 + i) (b0 ++ b1)) x
                             = dict_get vocab x)
      by (intros x Hx; apply dict_get_set_other; lia).
    intros q idx Hq.
    destruct (key_eqb_spec p q) as [<-|N].
    + rewrite dict_get_set_same in Hq. injection Hq as <-.
      exists b0, b1. rewrite !Hold by lia.
      now rewrite E0, E1, dict_get_set_same.
    + rewrite dict_get_set_other in Hq by assumption.
      destruct (Hent _ _ Hq) as (c0 & c1 & G0 & G1 & G).
      assert (Hin : In q (dict_keys merges)).
      { change q with (fst (q, idx)). apply in_map.
        now apply dict_get_some_in. }
      destruct (Hkeys _ Hin) as (Hq0 & Hq1 & _).
      assert (Hidx : 0 <= idx < 256 + i) by (apply Hvk; congruence).
      exists c0, c1. now rewrite !Hold by lia.
Qed.

(** The loop either completes its [n] steps, each adding one entry, or
    stops with the ValueError of [max] over no pairs. *)
Lemma train_loop_bound (n : nat) :
  forall (i : Z) (ids : list Z) (merges : dict (Z * Z) Z)
         (vocab : dict Z bytes),
    train_inv i ids merges vocab ->
    match train_loop (Some None) n i ids merges vocab with
    | Ok (m, v) => exists ids', train_inv (i + Z.of_nat n) ids' m v
    | Raise e => e = ValueError
    end.
Proof.
  induction n as [|n IH]; intros i ids merges vocab Hinv.
  - simpl. exists ids. now replace (i + 0) with i by lia.
  - cbn [train_loop]. unfold call_get_stats. cbn [bind_param bind].
    destruct (py_max Z.ltb (count_of (get_stats ids None))
                     (dict_keys (get_stats ids None))) as [p|e] eqn:Ep;
      cbn [bind].
    + apply py_max_in, get_stats_keys in Ep.
      destruct (train_inv_step _ _ _ _ p Hinv Ep) as (b0 & b1 & -> & -> & H).
      cbn [bind]. specialize (IH _ _ _ _ H).
      destruct (train_loop _ n _ _ _ _) as [[m v]|e]; [|assumption].
      destruct IH as [ids' IH]. exists ids'.
      now replace (i + Z.of_nat (S n)) with (i + 1 + Z.of_nat n) by lia.
    + now apply py_max_raise in Ep.
Qed.

(** With [counts] unbound the first step raises. *)
Lemma train_loop_none (n : nat) (i : Z) (ids : list Z)
      (merges : dict (Z * Z) Z) (vocab : dict Z bytes) :
  train_loop None (S n) i ids merges vocab = Raise TypeError.
Proof. reflexivity. Qed.

Lemma train_inv_gap_free (i : Z) (ids : list Z) (merges : dict (Z * Z) Z)
      (vocab : dict Z bytes) :
  train_inv i ids merges vocab ->
  gap_free merges /\ Z.of_nat (length merges) = i.
Proof.
  intros [_ _ _ (pairs & ND & -> & Hlen) _ _ _ _]. split.
  - now apply assign_ids_gap_free.
  - now rewrite assign_ids_length.
Qed.

(** What a call of [train] that returns has established, under either
    binding of [counts]. *)
Lemma train_with_returned (documented : bool) (self : Tokenizer)
      (text : pystr) (vocab_size : Z) (self' : Tokenizer) :
  train_with (counts_binding documented) self text vocab_size
  = Returned self' ->
  256 <= vocab_size
  /\ patterns self' = patterns self
  /\ special_tokens self' = special_tokens self
  /\ gap_free (merges self')
  /\ Z.of_nat (length (merges self')) = vocab_size - 256
  /\ vocab_of_merges (merges self') byte_vocab = Ok (vocab self')
  /\ (documented = false -> vocab_size = 256)
  /\ (special_tokens self = [] -> derivation_invariant self').
Proof.
  unfold train_with.
  destruct (Z.ltb_spec vocab_size 256) as [Hlt|Hge]; [discriminate|].
  destruct (utf8_encode text) as [ids|e] eqn:Hu; [|discriminate].
  destruct documented; simpl.
  - pose proof (train_loop_bound (Z.to_nat (vocab_size - 256)) 0 ids []
                  byte_vocab
                  (train_inv_start _ (utf8_encode_bytes _ _ Hu))) as H.
    destruct (train_loop _ _ _ _ _ _) as [[m v]|e]; [|discriminate].
    intros [= <-]. cbn [merges patterns special_tokens vocab].
    destruct H as [ids' H].
    pose proof (train_inv_gap_free _ _ _ _ H) as [Hg Hl].
    split; [assumption|]. split; [reflexivity|]. split; [reflexivity|].
    split; [assumption|]. split; [lia|]. split; [now destruct H|].
    split; [discriminate|].
    intros Es. unfold derivation_invariant.
    cbn [merges patterns special_tokens vocab]. rewrite Es.
    destruct H. repeat split; auto. intros name idx [=].
  - destruct (Z.to_nat (vocab_size - 256)) eqn:En; cbn [train_loop];
      [|discriminate].
    intros [= <-]. cbn [merges patterns special_tokens vocab].
    split; [assumption|]. split; [reflexivity|]. split; [reflexivity|].
    split; [reflexivity|]. split; [simpl; lia|]. split; [reflexivity|].
    split; [intros _; lia|].
    intros Es. unfold derivation_invariant.
    cbn [merges patterns special_tokens vocab]. rewrite Es.
    repeat split.
    + intros b Hb. rewrite byte_vocab_get.
      destruct (Z.leb_spec 0 b), (Z.ltb_spec b 256); simpl; auto; lia.
    + intros p idx [=].
    + intros name idx [=].
Qed.

Lemma train_with_raised (documented : bool) (self : Tokenizer)
      (text : pystr) (vocab_size : Z) (e : exn) (self' : Tokenizer) :
  train_with (counts_binding documented) self text vocab_size
  = Raised e self' ->
  self' = self
  /\ ((e = AssertionError /\ vocab_size < 256)
      \/ (256 <= vocab_size
          /\ (e = UnicodeEncodeError
              \/ (e = ValueError /\ documented = true)
              \/ (e = TypeError /\ documented = false)))).
Proof.
  unfold train_with.
  destruct (Z.ltb_spec vocab_size 256) as [Hlt|Hge];
    [intros [= <- <-]; auto|].
  destruct (utf8_encode text) as [ids|e0] eqn:Hu.
  2:{ intros [= <- <-]. apply utf8_encode_raise in Hu. auto. }
  destruct documented; simpl.
  - pose proof (train_loop_bound (Z.to_nat (vocab_size - 256)) 0 ids []
                  byte_vocab
                  (train_inv_start _ (utf8_encode_bytes _ _ Hu))) as H.
    destruct (train_loop _ _ _ _ _ _) as [[m v]|e0]; [discriminate|].
    intros [= <- <-]. split; [reflexivity|]. right. split; [assumption|].
    right. left. auto.
  - destruct (Z.to_nat (vocab_size - 256)) eqn:En; simpl; [discriminate|].
    intros [= <- <-]. split; [reflexivity|]. right. split; [assumption|].
    right. right. auto.
Qed.

(* ----------------------------------------------------------------- *)
(** ** Merge ids in rank order *)

Lemma load_merge_ids (self : Tokenizer) (model_file content : pystr)
      (self' : Tokenizer) :
  load self model_file content = Returned self' ->
  NoDup (dict_values (merges self'))
  /\ Forall (fun idx =>
               256 <= idx < 256 + Z.of_nat (length (merge_lines content)))
            (dict_values (merges self'))
  /\ (NoDup (map parse_merge_line (merge_lines content)) ->
      gap_free (merges self')).
Proof.
  intros H. apply load_merges in H. destruct H as (pairs & -> & Hlen & Hnd).
  destruct (assign_ids_values pairs [] 256 256) as [H1 H2];
    [lia | constructor | constructor |].
  split; [assumption|]. split.
  - eapply Forall_impl; [|exact H2]. cbv beta. intros; lia.
  - intros ND. now apply assign_ids_gap_free, Hnd.
Qed.

(** C2 (as amended): after [train], and after a [load] of a file whose
    merge lines name pairwise distinct pairs, the k-th entry of the
    merge table has id 256 + k - 1.  After any [load] that returns, the
    ids are distinct and lie between 256 and 256 plus the number of
    merge lines.  The statement about [train] holds with [counts]
    unbound, as the signature stands, and with the default [None]. *)
Theorem merge_ids_gap_free :
  (forall self text vocab_size self',
      train self text vocab_size = Returned self' -> gap_free (merges self'))
  /\ (forall documented self text vocab_size self',
         train_with (counts_binding documented) self text vocab_size
         = Returned self' ->
         gap_free (merges self'))
  /\ (forall self model_file content self',
         load self model_file content = Returned self' ->
         NoDup (dict_values (merges self'))
         /\ Forall (fun idx =>
                      256 <= idx
                      < 256 + Z.of_nat (length (merge_lines content)))
                   (dict_values (merges self'))
         /\ (NoDup (map parse_merge_line (merge_lines content)) ->
             gap_free (merges self')))
  /\ (forall merges k,
         gap_free merges -> (k < length merges)%nat ->
         nth k (dict_values merges) 0 = 256 + Z.of_nat k).
Proof.
  split; [|split; [|split]].
  - intros self text vocab_size self' H.
    now apply (train_with_returned false) in H.
  - intros documented self text vocab_size self' H.
    now apply train_with_returned in H.
  - exact load_merge_ids.
  - intros m k Hg Hk. rewrite Hg. now apply ids_from_nth.
Qed.

Lemma merge_ids_gap_free_witness :
  load init model_name file_two_merges = Returned tokenizer_two_merges
  /\ gap_free (merges tokenizer_two_merges)
  /\ nth 1 (dict_values (merges tokenizer_two_merges)) 0 = 257.
Proof.
  assert (H : load init model_name file_two_merges
              = Returned tokenizer_two_merges) by reflexivity.
  split; [exact H|].
  destruct merge_ids_gap_free as (_ & _ & Hload & Hnth).
  destruct (Hload _ _ _ _ H) as (_ & _ & Hg).
  assert (G : gap_free (merges tokenizer_two_merges)).
  { apply Hg. vm_compute. repeat constructor; simpl; intuition discriminate. }
  split; [exact G|].
  apply (Hnth _ 1%nat G). simpl. lia.
Defined.

(** C2 as stated fails: a model file that names the same pair on two
    merge lines loads, and the only entry of the table has id 257. *)
Lemma load_duplicate_merge_lines :
  load init model_name file_duplicate_merges
  = Returned tokenizer_duplicate_merges
  /\ dict_values (merges tokenizer_duplicate_merges) = [257]
  /\ ids_from 256 (length (merges tokenizer_duplicate_merges)) = [256].
Proof. repeat split. Qed.

(* ----------------------------------------------------------------- *)
(** ** The vocabulary held and the vocabulary rebuilt *)

Lemma build_vocab_no_specials (m : dict (Z * Z) Z) (v : dict Z bytes) :
  vocab_of_merges m byte_vocab = Ok v -> _build_vocab m [] = Ok v.
Proof. intros H. unfold _build_vocab. now rewrite H. Qed.

Lemma vocab_of_specials_app (s1 s2 : list (pystr * Z)) (v : dict Z bytes) :
  vocab_of_specials (s1 ++ s2) v
  = (v1 <- vocab_of_specials s1 v ;; vocab_of_specials s2 v1).
Proof.
  revert v. induction s1 as [|[name idx] s1 IH]; intros v; simpl;
    [reflexivity|].
  destruct (utf8_encode name); simpl; [apply IH | reflexivity].
Qed.

Lemma vocab_of_specials_other (s : list (pystr * Z)) :
  forall (v v' : dict Z bytes) (idx : Z),
    vocab_of_specials s v = Ok v' -> ~ In idx (dict_values s) ->
    dict_get v' idx = dict_get v idx.
Proof.
  induction s as [|[name i] s IH]; intros v v' idx; simpl.
  - now intros [= <-].
  - destruct (utf8_encode name) as [b|]; simpl; [|discriminate].
    intros H Hn. rewrite (IH _ _ _ H) by tauto.
    apply dict_get_set_other. tauto.
Qed.

(** A special token whose id no later special token carries has its
    UTF-8 bytes in the vocabulary. *)
Lemma build_vocab_special (m : dict (Z * Z) Z) (s1 s2 : list (pystr * Z))
      (name : pystr) (idx : Z) (v : dict Z bytes) :
  _build_vocab m (s1 ++ (name, idx) :: s2) = Ok v ->
  ~ In idx (dict_values s2) ->
  exists b, utf8_encode name = Ok b /\ dict_get v idx = Some b.
Proof.
  unfold _build_vocab.
  destruct (vocab_of_merges m byte_vocab) as [v0|]; simpl; [|discriminate].
  rewrite vocab_of_specials_app.
  destruct (vocab_of_specials s1 v0) as [v1|]; simpl; [|discriminate].
  destruct (utf8_encode name) as [b|]; simpl; [|discriminate].
  intros H Hn. exists b. split; [reflexivity|].
  rewrite (vocab_of_specials_other _ _ _ _ H Hn).
  apply dict_get_set_same.
Qed.

(** C4 (as amended): after construction and after a [load] that
    returns, the vocabulary held is the one [_build_vocab] computes
    from the merge table and the special tokens, and a special token
    whose id no later special token carries has its UTF-8 bytes as its
    entry.  After [train], which leaves the special tokens alone, the
    vocabulary held is the one built from the merge table without
    special tokens; it is the full rebuild when there are none.  The
    statement about [train] holds with [counts] unbound, as the
    signature stands, and with the default [None]. *)
Theorem vocab_derivable :
  _build_vocab (merges init) (special_tokens init) = Ok (vocab init)
  /\ (forall self model_file content self',
         load self model_file content = Returned self' ->
         _build_vocab (merges self') (special_tokens self')
         = Ok (vocab self')
         /\ (forall s1 name idx s2,
                special_tokens self' = s1 ++ (name, idx) :: s2 ->
                ~ In idx (dict_values s2) ->
                exists b, utf8_encode name = Ok b
                          /\ dict_get (vocab self') idx = Some b))
  /\ (forall documented self text vocab_size self',
         train_with (counts_binding documented) self text vocab_size
         = Returned self' ->
         special_tokens self' = special_tokens self
         /\ _build_vocab (merges self') [] = Ok (vocab self')
         /\ (special_tokens self = [] ->
             _build_vocab (merges self') (special_tokens self')
             = Ok (vocab self')))
  /\ (forall self text vocab_size self',
         train self text vocab_size = Returned self' ->
         special_tokens self' = special_tokens self
         /\ _build_vocab (merges self') [] = Ok (vocab self')).
Proof.
  split; [reflexivity|]. split; [|split].
  - intros self model_file content self' H.
    apply load_returned in H.
    destruct H as (n & s & idx & m & v & _ & _ & _ & Hv & _ & _ & ->).
    simpl. split; [assumption|].
    intros s1 name i s2 -> Hn. eapply build_vocab_special; eauto.
  - intros documented self text vocab_size self' H.
    apply train_with_returned in H.
    destruct H as (_ & _ & Hs & _ & _ & Hv & _ & _).
    apply build_vocab_no_specials in Hv.
    repeat split; auto. intros E. now rewrite Hs, E.
  - intros self text vocab_size self' H.
    apply (train_with_returned false) in H.
    destruct H as (_ & _ & Hs & _ & _ & Hv & _ & _).
    apply build_vocab_no_specials in Hv. auto.
Qed.

Lemma vocab_derivable_witness :
  load init model_name file_one_special = Returned tokenizer_one_special
  /\ _build_vocab (merges tokenizer_one_special)
                  (special_tokens tokenizer_one_special)
     = Ok (vocab tokenizer_one_special)
  /\ dict_get (vocab tokenizer_one_special) 300 = Some [65].
Proof.
  assert (H : load init model_name file_one_special
              = Returned tokenizer_one_special) by reflexivity.
  split; [exact H|].
  destruct vocab_derivable as (_ & Hload & _).
  destruct (Hload _ _ _ _ H) as (Hv & Hs).
  split; [exact Hv|].
  destruct (Hs [] (str_of "A") 300 []) as (b & Hb & Hg);
    [reflexivity | simpl; tauto |].
  rewrite Hg. f_equal. vm_compute in Hb. congruence.
Defined.

(** C4 as stated fails.  After loading a file with one special token,
    [train] with [vocab_size = 256] returns a tokenizer that still has
    the special token but whose vocabulary has no entry for its id, so
    rebuilding gives another table.  And after loading a file with two
    special tokens of the same id, the entry for that id is the bytes
    of the second name, not of the first. *)
Lemma train_drops_special_tokens :
  load init model_name file_one_special = Returned tokenizer_one_special
  /\ train tokenizer_one_special [] 256
     = Returned (set_vocab tokenizer_one_special byte_vocab)
  /\ _build_vocab (merges (set_vocab tokenizer_one_special byte_vocab))
                  (special_tokens (set_vocab tokenizer_one_special byte_vocab))
     = Ok (byte_vocab ++ [(300, [65])])
  /\ dict_get (vocab (set_vocab tokenizer_one_special byte_vocab)) 300 = None
  /\ load init model_name file_two_specials = Returned tokenizer_two_specials
  /\ utf8_encode (str_of "A") = Ok [65]
  /\ dict_get (vocab tokenizer_two_specials) 300 = Some [66].
Proof. repeat split. Qed.

(* ----------------------------------------------------------------- *)
(** ** Lines, [strip] and [split] *)

Lemma nonspace_no_break (s : pystr) : nonspace s -> no_break s.
Proof.
  apply Forall_impl. intros c Hc.
  split; intros ->; discriminate Hc.
Qed.

Lemma no_break_app (s t : pystr) :
  no_break (s ++ t) <-> no_break s /\ no_break t.
Proof. apply Forall_app. Qed.

Lemma universal_newlines_id (s : pystr) :
  Forall (fun c => c <> 13) s -> universal_newlines s = s.
Proof.
  induction 1 as [|c s Hc _ IH]; simpl; [reflexivity|].
  destruct (Z.eqb_spec c 13); [contradiction|]. now rewrite IH.
Qed.

Lemma readline_line (l rest : pystr) :
  Forall (fun c => c <> 10) l ->
  readline (l ++ 10 :: rest) = (l ++ [10], rest).
Proof.
  induction 1 as [|c l Hc _ IH]; simpl; [reflexivity|].
  destruct (Z.eqb_spec c 10); [contradiction|]. now rewrite IH.
Qed.

Lemma readlines_run_line (l rest cur : pystr) :
  Forall (fun c => c <> 10) l ->
  readlines_run (l ++ 10 :: rest) cur
  = (cur ++ l ++ [10]) :: readlines_run rest [].
Proof.
  intros H. revert cur. induction H as [|c l Hc _ IH]; intros cur; simpl.
  - reflexivity.
  - destruct (Z.eqb_spec c 10); [contradiction|].
    rewrite IH. now rewrite <- app_assoc.
Qed.

Lemma unlines_cons (l : pystr) (ls : list pystr) :
  unlines (l :: ls) = l ++ 10 :: unlines ls.
Proof. unfold unlines. simpl. now rewrite <- app_assoc. Qed.

Lemma unlines_app (ls1 ls2 : list pystr) :
  unlines (ls1 ++ ls2) = unlines ls1 ++ unlines ls2.
Proof. unfold unlines. apply flat_map_app. Qed.

Lemma readlines_unlines (ls : list pystr) :
  Forall (Forall (fun c => c <> 10)) ls ->
  readlines (unlines ls) = map (fun l => l ++ [10]) ls.
Proof.
  unfold readlines. induction 1 as [|l ls Hl _ IH]; [reflexivity|].
  rewrite unlines_cons, readlines_run_line by assumption.
  simpl. now rewrite IH.
Qed.

Lemma lstrip_nonspace_head (c : Z) (s : pystr) :
  py_isspace c = false -> lstrip (c :: s) = c :: s.
Proof. intros H. simpl. now rewrite H. Qed.

Lemma lstrip_space_head (c : Z) (s : pystr) :
  py_isspace c = true -> lstrip (c :: s) = lstrip s.
Proof. intros H. simpl. now rewrite H. Qed.

(** White space at the end does not survive [strip]. *)
Lemma lstrip_app (s t : pystr) :
  lstrip (s ++ t) = match lstrip s with
                    | [] => lstrip t
                    | _ => lstrip s ++ t
                    end.
Proof.
  induction s as [|c s IH]; simpl; [now destruct (lstrip t)|].
  destruct (py_isspace c); [assumption | reflexivity].
Qed.

Lemma strip_space_end (s : pystr) (c : Z) :
  py_isspace c = true -> strip (s ++ [c]) = strip s.
Proof.
  intros Hc. unfold strip, rstrip. rewrite lstrip_app.
  destruct (lstrip s) as [|a r] eqn:E.
  - simpl. now rewrite Hc.
  - rewrite rev_unit. now rewrite lstrip_space_head.
Qed.

Lemma strip_ends (c d : Z) (mid : pystr) :
  py_isspace c = false -> py_isspace d = false ->
  strip (c :: mid ++ [d]) = c :: mid ++ [d].
Proof.
  intros Hc Hd. unfold strip, rstrip.
  rewrite lstrip_nonspace_head by assumption.
  change (c :: mid ++ [d]) with ((c :: mid) ++ [d]).
  rewrite rev_unit.
  rewrite lstrip_nonspace_head by assumption.
  rewrite <- rev_unit. apply rev_involutive.
Qed.

Lemma strip_single (c : Z) :
  py_isspace c = false -> strip [c] = [c].
Proof. intros H. unfold strip, rstrip. simpl. rewrite H. simpl. now rewrite H. Qed.

(** A string that starts and ends with a character that is no white
    space is its own [strip]. *)
Lemma strip_id (s : pystr) :
  s <> [] ->
  py_isspace (hd 0 s) = false -> py_isspace (last s 0) = false ->
  strip s = s.
Proof.
  intros Hne Hh Hl. destruct s as [|c s]; [congruence|]. simpl in Hh.
  destruct (exists_last (l := c :: s) Hne) as (s' & d & E).
  rewrite E in Hl. rewrite last_last in Hl.
  destruct s' as [|c' s'].
  - simpl in E. injection E as -> ->. now apply strip_single.
  - simpl in E. injection E as -> ->. now apply strip_ends.
Qed.

Lemma nonspace_hd_last (s : pystr) :
  s <> [] -> nonspace s ->
  py_isspace (hd 0 s) = false /\ py_isspace (last s 0) = false.
Proof.
  intros Hne H. unfold nonspace in H. rewrite Forall_forall in H. split.
  - destruct s; [congruence|]. apply H. now left.
  - destruct (exists_last Hne) as (s' & d & ->). rewrite last_last.
    apply H. apply in_or_app. right. now left.
Qed.

Lemma strip_nonspace (s : pystr) : nonspace s -> strip s = s.
Proof.
  intros H. destruct s as [|c s]; [reflexivity|].
  destruct (nonspace_hd_last (c :: s)) as [H1 H2]; [discriminate|assumption|].
  apply strip_id; [discriminate | assumption | assumption].
Qed.

Lemma split_run_word (w : pystr) :
  nonspace w ->
  forall rest cur, split_run (w ++ rest) cur = split_run rest (cur ++ w).
Proof.
  induction 1 as [|c w Hc _ IH]; intros rest cur; simpl.
  - now rewrite app_nil_r.
  - rewrite Hc, IH. now rewrite <- app_assoc.
Qed.

(** Two words with one space between them. *)
Lemma split_two_words (a b : pystr) :
  a <> [] -> b <> [] -> nonspace a -> nonspace b ->
  split (a ++ [32] ++ b) = [a; b].
Proof.
  intros Ha Hb Na Nb. unfold split.
  rewrite (split_run_word a Na). simpl app at 1.
  destruct a as [|c a]; [congruence|].
  cbn [app split_run].
  change (py_isspace 32) with true. cbv iota. f_equal.
  pose proof (split_run_word b Nb [] []) as H.
  rewrite app_nil_r in H. rewrite H. simpl.
  destruct b; [congruence | reflexivity].
Qed.

Lemma strip_two_words_line (a b : pystr) :
  a <> [] -> b <> [] -> nonspace a -> nonspace b ->
  strip ((a ++ [32] ++ b) ++ [10]) = a ++ [32] ++ b.
Proof.
  intros Ha Hb Na Nb. rewrite strip_space_end by reflexivity.
  destruct (nonspace_hd_last a Ha Na) as [H1 _].
  destruct (nonspace_hd_last b Hb Nb) as [_ H2].
  apply strip_id.
  - destruct a; [congruence | discriminate].
  - destruct a; [congruence | exact H1].
  - destruct (exists_last Hb) as (b' & d & ->).
    rewrite last_last in H2.
    replace (a ++ [32] ++ b' ++ [d]) with ((a ++ [32] ++ b') ++ [d])
      by (now rewrite <- !app_assoc).
    now rewrite last_last.
Qed.

(* ----------------------------------------------------------------- *)
(** ** [str] and [int] on integers *)

Lemma uint_chars_nonspace (u : Decimal.uint) : nonspace (uint_chars u).
Proof. induction u; simpl; constructor; auto. Qed.

Lemma parse_uint_chars_after (u : Decimal.uint) :
  parse_uint (uint_chars u) true = Some u.
Proof. induction u; simpl; try reflexivity; now rewrite IHu. Qed.

Lemma parse_uint_chars (u : Decimal.uint) :
  u <> Decimal.Nil -> parse_uint (uint_chars u) false = Some u.
Proof.
  destruct u; [congruence | ..]; intros _; simpl;
    now rewrite parse_uint_chars_after.
Qed.

Lemma to_int_nonnil (n : Z) :
  match Z.to_int n with
  | Decimal.Pos u | Decimal.Neg u => u <> Decimal.Nil
  end.
Proof.
  destruct n; simpl; [discriminate | ..];
    apply DecimalPos.Unsigned.to_uint_nonnil.
Qed.

Lemma str_of_int_nonspace (n : Z) : nonspace (str_of_int n).
Proof.
  unfold str_of_int. destruct (Z.to_int n).
  - apply uint_chars_nonspace.
  - constructor; [reflexivity | apply uint_chars_nonspace].
Qed.

Lemma str_of_int_nonempty (n : Z) : str_of_int n <> [].
Proof.
  unfold str_of_int. pose proof (to_int_nonnil n) as H.
  destruct (Z.to_int n) as [u|u]; [|discriminate].
  destruct u; [congruence | ..]; discriminate.
Qed.

(** [int(str(n)) == n] *)
Lemma py_int_str_of_int (n : Z) : py_int (str_of_int n) = Ok n.
Proof.
  unfold py_int. rewrite strip_nonspace by apply str_of_int_nonspace.
  unfold str_of_int.
  pose proof (to_int_nonnil n) as H. pose proof (DecimalZ.of_to n) as Hn.
  destruct (Z.to_int n) as [u|u].
  - assert (E : parse_uint (uint_chars u) false = Some u)
      by now apply parse_uint_chars.
    destruct u; [congruence | ..]; cbn [uint_chars fst snd Z.eqb Pos.eqb];
      cbn [uint_chars] in E; rewrite E; now rewrite Hn.
  - cbn [fst snd Z.eqb Pos.eqb]. rewrite parse_uint_chars by assumption.
    now rewrite Hn.
Qed.

(* ----------------------------------------------------------------- *)
(** ** [save] then [load] *)

Lemma dict_update_fresh {K V : Type} {KK : Key K} {KL : KeyLaws K}
      (items : list (K * V)) :
  forall d : dict K V,
    NoDup (dict_keys items) ->
    (forall k, In k (dict_keys items) -> dict_get d k = None) ->
    dict_update d items = d ++ items.
Proof.
  unfold dict_update.
  induction items as [|[k v] items IH]; intros d ND Hnew; simpl.
  - now rewrite app_nil_r.
  - inversion ND as [|? ? Hn ND']; subst.
    rewrite IH; [| assumption |].
    + rewrite dict_set_new by (apply Hnew; now left).
      now rewrite <- app_assoc.
    + intros k0 Hk0. rewrite dict_get_set_other.
      * apply Hnew. now right.
      * intros ->. contradiction.
Qed.

Lemma combine_fst_snd {A B : Type} (l : list (A * B)) :
  combine (map fst l) (map snd l) = l.
Proof. induction l as [|[a b] l IH]; simpl; [reflexivity | now rewrite IH]. Qed.

Lemma renumber_gap_free (m : dict (Z * Z) Z) :
  gap_free m -> renumber m = m.
Proof.
  unfold gap_free, renumber, dict_values, dict_keys. intros <-.
  apply combine_fst_snd.
Qed.

Lemma renumber_assign (m : dict (Z * Z) Z) :
  NoDup (dict_keys m) -> assign_ids (dict_keys m) [] 256 = renumber m.
Proof.
  intros ND. rewrite assign_ids_fresh by (auto; intros; reflexivity).
  unfold renumber, dict_keys. now rewrite length_map.
Qed.

Lemma special_line_parts (name : pystr) (idx : Z) :
  name <> [] -> nonspace name ->
  split (strip (special_line (name, idx) ++ [10]))
  = [name; str_of_int idx].
Proof.
  intros Hne Hns. unfold special_line. cbn [fst snd].
  rewrite strip_two_words_line, split_two_words;
    auto using str_of_int_nonempty, str_of_int_nonspace.
Qed.

Lemma merge_line_parse (p : Z * Z) (idx : Z) :
  parse_merge_line (merge_line (p, idx) ++ [10]) = Ok p.
Proof.
  unfold parse_merge_line, merge_line. cbn [fst snd].
  rewrite strip_two_words_line, split_two_words;
    auto using str_of_int_nonempty, str_of_int_nonspace.
  rewrite !py_int_str_of_int. simpl. now destruct p.
Qed.

Lemma special_line_no_break (name : pystr) (idx : Z) :
  nonspace name -> no_break (special_line (name, idx)).
Proof.
  intros H. unfold special_line. cbn [fst snd].
  apply no_break_app. split; [now apply nonspace_no_break|].
  apply no_break_app. split.
  - repeat constructor; discriminate.
  - apply nonspace_no_break, str_of_int_nonspace.
Qed.

Lemma merge_line_no_break (item : (Z * Z) * Z) : no_break (merge_line item).
Proof.
  unfold merge_line.
  apply no_break_app. split;
    [apply nonspace_no_break, str_of_int_nonspace|].
  apply no_break_app. split.
  - repeat constructor; discriminate.
  - apply nonspace_no_break, str_of_int_nonspace.
Qed.

Lemma no_break_10 (l : pystr) : no_break l -> Forall (fun c => c <> 10) l.
Proof. apply Forall_impl. tauto. Qed.

Lemma no_break_13 (l : pystr) : no_break l -> Forall (fun c => c <> 13) l.
Proof. apply Forall_impl. tauto. Qed.

Lemma unlines_no_13 (ls : list pystr) :
  Forall no_break ls -> Forall (fun c => c <> 13) (unlines ls).
Proof.
  induction 1 as [|l ls Hl _ IH]; [constructor|].
  rewrite unlines_cons. apply Forall_app. split; [now apply no_break_13|].
  constructor; [discriminate | assumption].
Qed.

Lemma readline_unlines (l : pystr) (ls : list pystr) :
  no_break l -> readline (unlines (l :: ls)) = (l ++ [10], unlines ls).
Proof.
  intros H. rewrite unlines_cons. apply readline_line. now apply no_break_10.
Qed.

(** The special-token loop reads back the lines [save] wrote. *)
Lemma read_specials_saved (s : list (pystr * Z)) :
  forall (more : list pystr) (acc : dict pystr Z) (idx : idx_value),
    Forall (fun name => name <> [] /\ nonspace name) (dict_keys s) ->
    exists idx',
      read_specials (length s) (unlines (map special_line s ++ more)) acc idx
      = Ok (dict_update acc s, idx', unlines more)
      /\ (s = [] -> idx' = idx)
      /\ (s <> [] -> exists t, idx' = IdxStr t).
Proof.
  induction s as [|[name i] s IH]; intros more acc idx Hwf.
  - exists idx. split; [reflexivity|]. split; [reflexivity|]. now intros [].
  - inversion Hwf as [|? ? [Hne Hns] Hwf']; subst.
    cbn [length map app read_specials].
    rewrite readline_unlines by now apply special_line_no_break.
    cbn [fst snd]. rewrite special_line_parts by assumption.
    rewrite py_int_str_of_int. cbn [bind].
    destruct (IH more (dict_set acc name i) (IdxStr (str_of_int i)) Hwf')
      as (idx' & -> & H0 & H1).
    exists idx'. split; [reflexivity|]. split; [discriminate|].
    intros _. destruct s as [|item s'].
    + rewrite H0 by reflexivity. eauto.
    + apply H1. discriminate.
Qed.

(** The merge loop reads back the lines [save] wrote, numbering the
    pairs anew. *)
Lemma read_merges_saved (m : list ((Z * Z) * Z)) :
  forall (acc : dict (Z * Z) Z) (n : Z),
    read_merges (map (fun l => l ++ [10]) (map merge_line m)) acc (IdxInt n)
    = Ok (assign_ids (dict_keys m) acc n).
Proof.
  induction m as [|[p i] m IH]; intros acc n; [reflexivity|].
  cbn [map read_merges dict_keys]. rewrite merge_line_parse. cbn [bind].
  apply IH.
Qed.

Lemma version_no_break : no_break VERSION.
Proof. repeat constructor; intros H; vm_compute in H; discriminate H. Qed.

Lemma model_lines_no_break (self : Tokenizer) :
  storable self -> Forall no_break (model_lines self).
Proof.
  intros (Hp & _ & Hs & _). unfold model_lines. cbn [app].
  constructor; [|constructor; [|constructor]].
  - exact version_no_break.
  - assumption.
  - apply nonspace_no_break, str_of_int_nonspace.
  - apply Forall_app. split.
    + unfold dict_keys in Hs. rewrite Forall_map in Hs. rewrite Forall_map.
      eapply Forall_impl; [|exact Hs].
      intros [name i] [_ H]. now apply special_line_no_break.
    + rewrite Forall_map. apply Forall_forall. intros item _.
      apply merge_line_no_break.
Qed.

(** What [load] does with the text [save] wrote for a storable
    tokenizer. *)
Lemma load_model_text (self prior : Tokenizer) (model_file : pystr) :
  storable self ->
  endswith model_file (str_of ".model") = true ->
  load prior model_file (model_text self)
  = match _build_vocab (renumber (merges self)) (special_tokens self) with
    | Ok v =>
        Returned {| merges := renumber (merges self);
                    patterns := patterns self;
                    special_tokens := special_tokens self;
                    vocab := v |}
    | Raise e =>
        Raised e (set_tables (set_patterns prior (patterns self))
                             (renumber (merges self))
                             (special_tokens self))
    end.
Proof.
  intros Hst Hname.
  pose proof (model_lines_no_break self Hst) as Hnb.
  destruct Hst as (Hp & Hstrip & Hs & NDs & NDm & Hdisj).
  unfold load. rewrite Hname. cbn [negb].
  unfold model_text in *.
  rewrite universal_newlines_id by now apply unlines_no_13.
  unfold model_lines in *. cbn [app] in *.
  inversion Hnb as [|? ? Hv Hnb1]; subst.
  inversion Hnb1 as [|? ? Hpat Hnb2]; subst.
  inversion Hnb2 as [|? ? Hcnt Hnb3]; subst.
  rewrite readline_unlines by assumption. cbn [fst snd].
  change (strip (VERSION ++ [10])) with VERSION.
  change (str_eqb VERSION VERSION) with true. cbn [negb].
  rewrite readline_unlines by assumption. cbn [fst snd].
  rewrite strip_space_end by reflexivity. rewrite Hstrip.
  rewrite readline_unlines by assumption. cbn [fst snd].
  rewrite strip_space_end by reflexivity.
  rewrite strip_nonspace by apply str_of_int_nonspace.
  rewrite py_int_str_of_int, Nat2Z.id.
  destruct (read_specials_saved (special_tokens self)
              (map merge_line (merges self)) [] (IdxInt 256) Hs)
    as (idx' & -> & Hidx & _).
  rewrite readlines_unlines.
  2:{ rewrite Forall_map. apply Forall_forall. intros item _.
      apply no_break_10, merge_line_no_break. }
  rewrite dict_update_fresh by (auto; intros; reflexivity). cbn [app].
  assert (Hm : read_merges
                 (map (fun l => l ++ [10]) (map merge_line (merges self)))
                 [] idx'
               = Ok (renumber (merges self))).
  { destruct Hdisj as [E|E].
    - rewrite (Hidx E), read_merges_saved. now rewrite renumber_assign.
    - rewrite E. reflexivity. }
  rewrite Hm.
  destruct (_build_vocab _ _); reflexivity.
Qed.

(** On storable tokenizers [load] restores what [save] wrote: the
    tokenizer is left with the same pairs in the same rank order,
    their ids reconstructed as 256 plus the index of the merge line,
    the same pattern and the same special tokens; [load] returns when
    the vocabulary can be built from these tables, and the
    reconstructed merge table is the saved one when its ids were
    256, 257, ... already. *)
Theorem save_load (self prior : Tokenizer) (model_file content : pystr) :
  storable self ->
  save self = Ok content ->
  endswith model_file (str_of ".model") = true ->
  merges (outcome_state (load prior model_file content))
  = renumber (merges self)
  /\ patterns (outcome_state (load prior model_file content))
     = patterns self
  /\ special_tokens (outcome_state (load prior model_file content))
     = special_tokens self
  /\ (forall v,
         _build_vocab (renumber (merges self)) (special_tokens self) = Ok v ->
         load prior model_file content
         = Returned {| merges := renumber (merges self);
                       patterns := patterns self;
                       special_tokens := special_tokens self;
                       vocab := v |})
  /\ (gap_free (merges self) -> renumber (merges self) = merges self).
Proof.
  intros Hst Hsave Hname.
  assert (Hc : content = model_text self).
  { unfold save in Hsave.
    destruct (utf8_encode (model_text self)); simpl in Hsave; congruence. }
  subst content. rewrite (load_model_text self prior model_file Hst Hname).
  repeat split.
  - destruct (_build_vocab _ _); reflexivity.
  - destruct (_build_vocab _ _); reflexivity.
  - destruct (_build_vocab _ _); reflexivity.
  - intros v ->. reflexivity.
  - apply renumber_gap_free.
Qed.

Lemma save_load_witness :
  save tokenizer_two_merges = Ok (model_text tokenizer_two_merges)
  /\ load init model_name (model_text tokenizer_two_merges)
     = Returned tokenizer_two_merges.
Proof.
  assert (Hs : save tokenizer_two_merges
               = Ok (model_text tokenizer_two_merges)) by reflexivity.
  split; [exact Hs|].
  assert (Hst : storable tokenizer_two_merges).
  { unfold storable. simpl.
    repeat split; try constructor; auto.
    - simpl. intros [H|[]]. discriminate H.
    - repeat constructor. simpl. tauto. }
  destruct (save_load tokenizer_two_merges init model_name
                      (model_text tokenizer_two_merges) Hst Hs eq_refl)
    as (_ & _ & _ & Hret & _).
  apply (Hret (vocab tokenizer_two_merges)). reflexivity.
Defined.

(** [load] strips the pattern line: a pattern that begins with a space
    is saved as it is and loaded without the space. *)
Lemma save_load_strips_pattern :
  save tokenizer_space_pattern = Ok (model_text tokenizer_space_pattern)
  /\ load init model_name (model_text tokenizer_space_pattern)
     = Returned (set_patterns init (str_of "?\w+|\s+"))
  /\ patterns tokenizer_space_pattern = 32 :: str_of "?\w+|\s+".
Proof. repeat split. Qed.

(** The tokenizers that [storable] leaves aside: with a special token
    and a merge, [save] writes a file on which [load] raises TypeError,
    since the special-token loop has left a string in [idx] by the time
    the merge loop adds 1 to it. *)
Lemma load_special_and_merge :
  save tokenizer_special_and_merge = Ok file_special_and_merge
  /\ _build_vocab (merges tokenizer_special_and_merge)
                  (special_tokens tokenizer_special_and_merge)
     = Ok (vocab tokenizer_special_and_merge)
  /\ forall prior,
      load prior model_name file_special_and_merge
      = Raised TypeError (set_patterns prior []).
Proof. repeat split. Qed.

(** In general: once [idx] holds a string, any merge line that parses
    makes the merge loop raise TypeError. *)
Lemma read_merges_after_special (line : pystr) (lines : list pystr)
      (acc : dict (Z * Z) Z) (t : pystr) (p : Z * Z) :
  parse_merge_line line = Ok p ->
  read_merges (line :: lines) acc (IdxStr t) = Raise TypeError.
Proof. intros H. simpl. now rewrite H. Qed.

(* ----------------------------------------------------------------- *)
(** ** [save] then [load], with special tokens and merges *)

(** What [load] does with the text [save] wrote for a tokenizer that
    has a special token and a merge: the special-token loop has left a
    string in [idx], and the first merge line raises TypeError at
    [idx += 1]. *)
Lemma load_model_text_type_error (self prior : Tokenizer)
      (model_file : pystr) :
  no_break (patterns self) ->
  Forall (fun name => name <> [] /\ nonspace name)
         (dict_keys (special_tokens self)) ->
  special_tokens self <> [] ->
  merges self <> [] ->
  endswith model_file (str_of ".model") = true ->
  load prior model_file (model_text self)
  = Raised TypeError (set_patterns prior (strip (patterns self))).
Proof.
  intros Hp Hs Hsp Hme Hname.
  assert (Hcnt : no_break (str_of_int (Z.of_nat (length (special_tokens self))))).
  { apply nonspace_no_break, str_of_int_nonspace. }
  assert (Hsl : Forall no_break (map special_line (special_tokens self))).
  { unfold dict_keys in Hs. rewrite Forall_map in Hs. rewrite Forall_map.
    eapply Forall_impl; [|exact Hs].
    intros [name i] [_ H]. now apply special_line_no_break. }
  assert (Hml : Forall no_break (map merge_line (merges self))).
  { rewrite Forall_map. apply Forall_forall. intros item _.
    apply merge_line_no_break. }
  unfold load. rewrite Hname. cbn [negb].
  unfold model_text, model_lines. cbn [app].
  rewrite universal_newlines_id.
  2:{ apply unlines_no_13. constructor; [exact version_no_break|].
      constructor; [assumption|]. constructor; [assumption|].
      apply Forall_app. now split. }
  rewrite readline_unlines by exact version_no_break. cbn [fst snd].
  change (strip (VERSION ++ [10])) with VERSION.
  change (str_eqb VERSION VERSION) with true. cbn [negb].
  rewrite readline_unlines by assumption. cbn [fst snd].
  rewrite strip_space_end by reflexivity.
  rewrite readline_unlines by assumption. cbn [fst snd].
  rewrite strip_space_end by reflexivity.
  rewrite strip_nonspace by apply str_of_int_nonspace.
  rewrite py_int_str_of_int, Nat2Z.id.
  destruct (read_specials_saved (special_tokens self)
              (map merge_line (merges self)) [] (IdxInt 256) Hs)
    as (idx' & -> & _ & Hidx).
  destruct (Hidx Hsp) as [t ->].
  rewrite readlines_unlines.
  2:{ rewrite Forall_map. apply Forall_forall. intros item _.
      apply no_break_10, merge_line_no_break. }
  destruct (merges self) as [|item m]; [now elim Hme|].
  cbn [map]. rewrite (read_merges_after_special _ _ _ _ (fst item)).
  - reflexivity.
  - destruct item as [p i]. apply merge_line_parse.
Qed.

(** C3 (the defect): [load] does not restore what [save] wrote for a
    tokenizer that has both a special token and a merge.  The
    special-token loop of [load] assigns the id it reads, a string, to
    [idx], the counter of the merge loop; the first merge line then
    raises TypeError at [idx += 1].  So for every such tokenizer
    (pattern without line breaks, names of special tokens non-empty
    and free of white space) loading the saved text raises TypeError
    with nothing but the pattern assigned: the merge table and the
    special tokens are those of before the call.  No model file at all
    makes [load] return such a tokenizer.  The last part is the call
    on a tokenizer with the merge (97, 98) and the special token
    "<|endoftext|>". *)
Theorem save_load_state_lost :
  (forall self prior model_file content,
      no_break (patterns self) ->
      Forall (fun name => name <> [] /\ nonspace name)
             (dict_keys (special_tokens self)) ->
      special_tokens self <> [] ->
      merges self <> [] ->
      save self = Ok content ->
      endswith model_file (str_of ".model") = true ->
      load prior model_file content
      = Raised TypeError (set_patterns prior (strip (patterns self)))
      /\ merges (outcome_state (load prior model_file content))
         = merges prior
      /\ special_tokens (outcome_state (load prior model_file content))
         = special_tokens prior)
  /\ (forall self prior model_file content self',
         special_tokens self <> [] ->
         merges self <> [] ->
         load prior model_file content = Returned self' ->
         special_tokens self' <> special_tokens self
         \/ merges self' <> merges self)
  /\ save tokenizer_special_and_merge = Ok file_special_and_merge
  /\ _build_vocab (merges tokenizer_special_and_merge)
                  (special_tokens tokenizer_special_and_merge)
     = Ok (vocab tokenizer_special_and_merge)
  /\ (forall prior,
         load prior model_name file_special_and_merge
         = Raised TypeError (set_patterns prior [])).
Proof.
  split; [|split].
  - intros self prior model_file content Hp Hs Hsp Hme Hsave Hname.
    assert (Hc : content = model_text self).
    { unfold save in Hsave.
      destruct (utf8_encode (model_text self)); simpl in Hsave; congruence. }
    subst content.
    rewrite (load_model_text_type_error self prior model_file Hp Hs Hsp Hme
               Hname).
    repeat split.
  - intros self prior model_file content self' Hsp Hme H.
    apply load_returned in H.
    destruct H as (n & s & idx & m & v & _ & Hs & Hm & _ & _ & _ & ->).
    cbn [merges special_tokens].
    apply read_specials_ok in Hs.
    destruct Hs as [_ [(_ & -> & ->)|(_ & t & ->)]].
    + left. congruence.
    + right. apply read_merges_str in Hm. destruct Hm as [_ ->]. congruence.
  - repeat split.
Qed.

(* ----------------------------------------------------------------- *)
(** ** [decode] after [encode] *)

Lemma lookup_all_bytes (vocab : dict Z bytes) (ids : list Z) :
  (forall b, 0 <= b < 256 -> dict_get vocab b = Some [b]) ->
  Forall (fun b => 0 <= b < 256) ids ->
  exists parts, lookup_all vocab ids = Ok parts /\ concat parts = ids.
Proof.
  intros Hb. induction 1 as [|x ids Hx _ (parts & IH & Hc)]; simpl.
  - exists []. auto.
  - unfold dict_index. rewrite (Hb _ Hx), IH. simpl.
    exists ([x] :: parts). split; [reflexivity|]. simpl. now rewrite Hc.
Qed.

(** A merge whose entry is the concatenation of the entries of its
    pair leaves the bytes of the sequence as they are. *)
Lemma merge_rec_lookup (vocab : dict Z bytes) (pair : Z * Z) (idx : Z)
      (b0 b1 : bytes) :
  dict_get vocab (fst pair) = Some b0 ->
  dict_get vocab (snd pair) = Some b1 ->
  dict_get vocab idx = Some (b0 ++ b1) ->
  forall ids parts,
    lookup_all vocab ids = Ok parts ->
    exists parts',
      lookup_all vocab (merge_rec ids pair idx) = Ok parts'
      /\ concat parts' = concat parts.
Proof.
  intros H0 H1 Hidx ids.
  induction ids as [| x | x y l IHl IHyl] using list_ind2; intros parts Hp.
  - exists parts. auto.
  - exists parts. auto.
  - rewrite merge_rec_cons2.
    destruct ((x =? fst pair) && (y =? snd pair)) eqn:E.
    + apply andb_true_iff in E. destruct E as [Ex Ey].
      apply Z.eqb_eq in Ex, Ey. subst x y.
      cbn [lookup_all] in Hp. unfold dict_index in Hp.
      rewrite H0, H1 in Hp. cbn [bind] in Hp.
      destruct (lookup_all vocab l) as [pl|] eqn:El; [|discriminate].
      cbn [bind] in Hp. injection Hp as <-.
      destruct (IHl pl eq_refl) as (pl' & Hl' & Hc).
      exists ((b0 ++ b1) :: pl'). cbn [lookup_all]. unfold dict_index.
      rewrite Hidx, Hl'. split; [reflexivity|].
      simpl. now rewrite Hc, app_assoc.
    + change (lookup_all vocab (x :: y :: l))
        with (b <- dict_index vocab x ;;
              bs <- lookup_all vocab (y :: l) ;; Ok (b :: bs)) in Hp.
      destruct (dict_index vocab x) as [bx|] eqn:Ex; [|discriminate].
      cbn [bind] in Hp.
      destruct (lookup_all vocab (y :: l)) as [pyl|] eqn:Eyl; [|discriminate].
      cbn [bind] in Hp. injection Hp as <-.
      destruct (IHyl pyl eq_refl) as (pyl' & Hyl' & Hc).
      exists (bx :: pyl').
      change (lookup_all vocab (x :: merge_rec (y :: l) pair idx))
        with (b <- dict_index vocab x ;;
              bs <- lookup_all vocab (merge_rec (y :: l) pair idx) ;;
              Ok (b :: bs)).
      rewrite Ex, Hyl'. split; [reflexivity|]. simpl. now rewrite Hc.
Qed.

(** A pass that goes on has merged a pair of the merge table, under
    any binding of [counts]. *)
Lemma encode_body_continue (d : option (option stats))
      (merges : dict (Z * Z) Z) (ids ids' : list Z) :
  encode_body d merges ids = Continue ids' ->
  exists p idx, dict_get merges p = Some idx /\ ids' = merge ids p idx.
Proof.
  unfold encode_body.
  destruct (call_get_stats d ids) as [st|]; [|discriminate].
  destruct (py_min _ _ _) as [p|]; [|discriminate].
  destruct (dict_get merges p) as [idx|] eqn:E; [|discriminate].
  intros [= <-]. eauto.
Qed.

Lemma encode_loop_lookup (d : option (option stats)) (self : Tokenizer) :
  derivation_invariant self ->
  forall (fuel : nat) (ids ids' : list Z) (parts : list bytes),
    encode_loop d fuel (merges self) ids = Some (Ok ids') ->
    lookup_all (vocab self) ids = Ok parts ->
    exists parts',
      lookup_all (vocab self) ids' = Ok parts'
      /\ concat parts' = concat parts.
Proof.
  intros (_ & Hm & _).
  induction fuel as [|fuel IH]; intros ids ids' parts; cbn [encode_loop].
  - destruct (length ids <? 2)%nat; [|discriminate].
    intros [= <-]. eauto.
  - destruct (length ids <? 2)%nat; [intros [= <-]; eauto|].
    destruct (encode_body d (merges self) ids) as [ids1| |e] eqn:Eb;
      [| intros [= <-]; eauto | discriminate].
    apply encode_body_continue in Eb. destruct Eb as (p & idx & Hp & ->).
    destruct (Hm _ _ Hp) as (b0 & b1 & H0 & H1 & Hidx).
    intros Hl Hparts. rewrite merge_eq_rec in Hl.
    destruct (merge_rec_lookup _ _ _ _ _ H0 H1 Hidx _ _ Hparts)
      as (parts1 & Hl1 & Hc1).
    destruct (IH _ _ _ Hl Hl1) as (parts' & Hl' & Hc').
    exists parts'. split; [assumption | congruence].
Qed.

(** Whatever [encode] returns, [decode] turns back into the text, on a
    tokenizer whose vocabulary satisfies the derivation invariant.
    With [counts] unbound [encode] returns on texts of at most one
    byte; with the default [None] it returns on every text that can
    be encoded in UTF-8. *)
Theorem decode_encode (documented : bool) (self : Tokenizer)
        (text : pystr) (ids : list Z) :
  derivation_invariant self ->
  encode_with (counts_binding documented) self text = Some (Ok ids) ->
  decode self ids = Ok text.
Proof.
  intros Hinv. unfold encode_with.
  destruct (utf8_encode text) as [bs|] eqn:Hu; [|discriminate].
  intros Hl.
  destruct (lookup_all_bytes (vocab self) bs (proj1 Hinv)
              (utf8_encode_bytes _ _ Hu)) as (parts & Hp & Hc).
  destruct (encode_loop_lookup _ self Hinv _ _ _ _ Hl Hp)
    as (parts' & Hp' & Hc').
  unfold decode. rewrite Hp'. simpl. rewrite Hc', Hc.
  now rewrite (utf8_decode_encode _ _ Hu).
Qed.

(** With the default [None], [encode] returns ids for every text that
    UTF-8 can encode. *)
Lemma encode_loop_documented_ok (merges : dict (Z * Z) Z) :
  forall (fuel : nat) (ids : list Z) (r : result (list Z)),
    encode_loop (Some None) fuel merges ids = Some r ->
    exists ids', r = Ok ids'.
Proof.
  induction fuel as [|fuel IH]; intros ids r; cbn [encode_loop].
  - destruct (length ids <? 2)%nat; [|discriminate]. intros [= <-]. eauto.
  - destruct (Nat.ltb_spec (length ids) 2) as [H|H]; [intros [= <-]; eauto|].
    pose proof (encode_body_cases true merges ids H) as Hb.
    change (counts_binding true) with (@Some (option stats) None) in Hb.
    destruct (encode_body (Some None) merges ids) as [ids1| |e].
    + apply IH.
    + intros [= <-]. eauto.
    + destruct Hb as [_ Hb]. discriminate Hb.
Qed.

Lemma encode_documented_returns (self : Tokenizer) (text : pystr)
      (bs : bytes) :
  utf8_encode text = Ok bs ->
  exists ids, encode_with (Some None) self text = Some (Ok ids).
Proof.
  intros Hu.
  destruct (encode_loop_finishes true (merges self) (length bs) bs
              (Nat.le_refl _)) as [r Hr].
  change (counts_binding true) with (@Some (option stats) None) in Hr.
  destruct (encode_loop_documented_ok _ _ _ _ Hr) as [ids ->].
  exists ids. unfold encode_with. now rewrite Hu.
Qed.

Lemma dict_get_app {K V : Type} {KK : Key K} (d1 d2 : dict K V) (k : K) :
  dict_get (d1 ++ d2) k
  = match dict_get d1 k with
    | Some v => Some v
    | None => dict_get d2 k
    end.
Proof.
  induction d1 as [|[k' v'] d1 IH]; simpl; [reflexivity|].
  destruct (key_eqb k' k); [reflexivity | exact IH].
Qed.

(** The tokenizer that [load] returns on [file_two_merges] satisfies
    the derivation invariant. *)
Lemma two_merges_invariant : derivation_invariant tokenizer_two_merges.
Proof.
  unfold derivation_invariant, tokenizer_two_merges.
  cbn [merges special_tokens vocab]. split; [|split].
  - intros b Hb. rewrite dict_get_app, byte_vocab_get.
    destruct (Z.leb_spec 0 b), (Z.ltb_spec b 256); try lia. reflexivity.
  - intros p idx. cbn [dict_get].
    change (@key_eqb (Z * Z) Key_pair) with pair_eqb.
    destruct (pair_eqb (97, 98) p) eqn:E1.
    + apply (proj1 (key_eqb_eq (97, 98) p)) in E1. subst p.
      intros [= <-]. exists [97], [98]. repeat split.
    + destruct (pair_eqb (256, 99) p) eqn:E2; [|discriminate].
      apply (proj1 (key_eqb_eq (256, 99) p)) in E2. subst p.
      intros [= <-]. exists [97; 98], [99]. repeat split.
  - intros name idx [=].
Qed.

Lemma decode_encode_witness :
  encode tokenizer_two_merges (str_of "c") = Some (Ok [99])
  /\ decode tokenizer_two_merges [99] = Ok (str_of "c").
Proof.
  split; [reflexivity|].
  apply (decode_encode false tokenizer_two_merges (str_of "c") [99]).
  - exact two_merges_invariant.
  - reflexivity.
Defined.

(** The loops as they run once [counts] defaults to [None]: training
    on "aaabdaaabac" up to 259 entries merges (a,a), then (aa,a), then
    (aaa,b); the text is then encoded in five ids and decoded back. *)
Lemma train_documented_example :
  train_with (Some None) init (str_of "aaabdaaabac") 259
  = Returned tokenizer_trained
  /\ encode_with (Some None) tokenizer_trained (str_of "aaabdaaabac")
     = Some (Ok [258; 100; 258; 97; 99])
  /\ decode tokenizer_trained [258; 100; 258; 97; 99]
     = Ok (str_of "aaabdaaabac").
Proof. repeat split; vm_compute; reflexivity. Qed.

(* ----------------------------------------------------------------- *)
(** ** [decode]: what becomes of ill-formed bytes *)

(** The encoding of a character that was decoded from a well-formed
    sequence is that sequence. *)
Lemma utf8_encode_char_1 (b0 : Z) :
  0 <= b0 < 0x80 -> utf8_encode_char b0 = Ok [b0].
Proof.
  intros H. unfold utf8_encode_char.
  test_is (b0 <? 0) false. test_is (b0 <? 0x80) true. reflexivity.
Qed.

Lemma utf8_encode_char_2 (b0 b1 : Z) :
  0xC2 <= b0 < 0xE0 -> is_cont b1 = true ->
  utf8_encode_char ((b0 - 0xC0) * 64 + (b1 - 0x80)) = Ok [b0; b1].
Proof.
  intros H C. unfold is_cont in C.
  assert (Hc : 0x80 <= (b0 - 0xC0) * 64 + (b1 - 0x80) < 0x800) by lia.
  remember ((b0 - 0xC0) * 64 + (b1 - 0x80)) as c eqn:Ec.
  unfold utf8_encode_char.
  test_is (c <? 0) false. test_is (c <? 0x80) false.
  test_is (c <? 0x800) true.
  assert (H0 : 0xC0 + c / 64 = b0) by arith.
  assert (H1 : 0x80 + c mod 64 = b1) by arith.
  now rewrite H0, H1.
Qed.

Lemma utf8_encode_char_3 (b0 b1 b2 : Z) :
  0xE0 <= b0 < 0xF0 -> second_ok b0 b1 = true -> is_cont b2 = true ->
  utf8_encode_char ((b0 - 0xE0) * 4096 + (b1 - 0x80) * 64 + (b2 - 0x80))
  = Ok [b0; b1; b2].
Proof.
  intros H S C. unfold is_cont in C.
  apply second_ok_elim in S. destruct S as (S1 & S2 & _ & _ & S5).
  assert (Hc : 0x800 <= (b0 - 0xE0) * 4096 + (b1 - 0x80) * 64 + (b2 - 0x80)
               < 0x10000) by lia.
  assert (Hs : ~ (0xD800 <= (b0 - 0xE0) * 4096 + (b1 - 0x80) * 64
                             + (b2 - 0x80) <= 0xDFFF)) by lia.
  remember ((b0 - 0xE0) * 4096 + (b1 - 0x80) * 64 + (b2 - 0x80)) as c eqn:Ec.
  unfold utf8_encode_char.
  test_is (c <? 0) false. test_is (c <? 0x80) false.
  test_is (c <? 0x800) false. test_is (c <? 0x10000) true.
  test_is ((0xD800 <=? c) && (c <=? 0xDFFF)) false.
  assert (H0 : 0xE0 + c / 4096 = b0) by arith.
  assert (H1 : 0x80 + (c / 64) mod 64 = b1) by arith.
  assert (H2 : 0x80 + c mod 64 = b2) by arith.
  now rewrite H0, H1, H2.
Qed.

Lemma utf8_encode_char_4 (b0 b1 b2 b3 : Z) :
  0xF0 <= b0 < 0xF5 -> second_ok b0 b1 = true ->
  is_cont b2 = true -> is_cont b3 = true ->
  utf8_encode_char ((b0 - 0xF0) * 262144 + (b1 - 0x80) * 4096
                    + (b2 - 0x80) * 64 + (b3 - 0x80))
  = Ok [b0; b1; b2; b3].
Proof.
  intros H S C2 C3. unfold is_cont in C2, C3.
  apply second_ok_elim in S. destruct S as (_ & _ & S3 & S4 & S5).
  assert (Hc : 0x10000 <= (b0 - 0xF0) * 262144 + (b1 - 0x80) * 4096
                          + (b2 - 0x80) * 64 + (b3 - 0x80) < 0x110000) by lia.
  remember ((b0 - 0xF0) * 262144 + (b1 - 0x80) * 4096
            + (b2 - 0x80) * 64 + (b3 - 0x80)) as c eqn:Ec.
  unfold utf8_encode_char.
  test_is (c <? 0) false. test_is (c <? 0x80) false.
  test_is (c <? 0x800) false. test_is (c <? 0x10000) false.
  test_is (c <? 0x110000) true.
  assert (H0 : 0xF0 + c / 262144 = b0) by arith.
  assert (H1 : 0x80 + (c / 4096) mod 64 = b1) by arith.
  assert (H2 : 0x80 + (c / 64) mod 64 = b2) by arith.
  assert (H3 : 0x80 + c mod 64 = b3) by arith.
  now rewrite H0, H1, H2, H3.
Qed.

Lemma utf8_decode_encode_app (s : pystr) :
  forall bs rest,
    utf8_encode s = Ok bs -> utf8_decode (bs ++ rest) = s ++ utf8_decode rest.
Proof.
  induction s as [|c s IH]; simpl; intros bs rest.
  - now intros [= <-].
  - destruct (utf8_encode_char c) as [b|] eqn:Ec; simpl; [|discriminate].
    destruct (utf8_encode s) as [bs'|] eqn:Es; simpl; [|discriminate].
    intros [= <-]. rewrite <- app_assoc.
    rewrite (utf8_decode_encode_char _ _ _ Ec). f_equal. now apply IH.
Qed.

(** Decoding that made no U+FFFD has read well-formed UTF-8: encoding
    the text gives the bytes back.  So bytes that are the encoding of
    no string always leave a U+FFFD in the text. *)
Lemma utf8_decode_clean_bounded (n : nat) :
  forall bs, (length bs <= n)%nat ->
             ~ In replacement_char (utf8_decode bs) ->
             utf8_encode (utf8_decode bs) = Ok bs.
Proof.
  induction n as [|n IH]; intros bs Hn.
  { destruct bs; [reflexivity | simpl in Hn; lia]. }
  destruct bs as [|b0 r0]; [reflexivity|].
  assert (IH' : forall r, (length r <= length r0)%nat ->
                          ~ In replacement_char (utf8_decode r) ->
                          utf8_encode (utf8_decode r) = Ok r).
  { intros r Hr. apply IH. simpl in Hn. lia. }
  clear IH Hn.
  assert (Hbad : forall l, ~ In replacement_char (replacement_char :: l) ->
                           False).
  { intros l H. apply H. now left. }
  cbn [utf8_decode].
  destruct ((0 <=? b0) && (b0 <? 0x80)) eqn:E1.
  { intros H. cbn [utf8_encode].
    rewrite utf8_encode_char_1 by lia.
    rewrite IH'; [reflexivity | lia | intros Hin; apply H; now right]. }
  destruct ((0xC2 <=? b0) && (b0 <? 0xE0)) eqn:E2.
  { destruct r0 as [|b1 r1]; [intros H; now apply Hbad in H|].
    destruct (is_cont b1) eqn:C1; [|intros H; now apply Hbad in H].
    intros H. cbn [utf8_encode].
    rewrite utf8_encode_char_2 by (assumption || lia).
    rewrite IH'; [reflexivity | simpl; lia | intros Hin; apply H; now right]. }
  destruct ((0xE0 <=? b0) && (b0 <? 0xF0)) eqn:E3.
  { destruct r0 as [|b1 r1]; [intros H; now apply Hbad in H|].
    destruct (second_ok b0 b1) eqn:S1; [|intros H; now apply Hbad in H].
    destruct r1 as [|b2 r2]; [intros H; now apply Hbad in H|].
    destruct (is_cont b2) eqn:C2; [|intros H; now apply Hbad in H].
    intros H. cbn [utf8_encode].
    rewrite utf8_encode_char_3 by (assumption || lia).
    rewrite IH'; [reflexivity | simpl; lia | intros Hin; apply H; now right]. }
  destruct ((0xF0 <=? b0) && (b0 <? 0xF5)) eqn:E4.
  { destruct r0 as [|b1 r1]; [intros H; now apply Hbad in H|].
    destruct (second_ok b0 b1) eqn:S1; [|intros H; now apply Hbad in H].
    destruct r1 as [|b2 r2]; [intros H; now apply Hbad in H|].
    destruct (is_cont b2) eqn:C2; [|intros H; now apply Hbad in H].
    destruct r2 as [|b3 r3]; [intros H; now apply Hbad in H|].
    destruct (is_cont b3) eqn:C3; [|intros H; now apply Hbad in H].
    intros H. cbn [utf8_encode].
    rewrite utf8_encode_char_4 by (assumption || lia).
    rewrite IH'; [reflexivity | simpl; lia | intros Hin; apply H; now right]. }
  intros H. now apply Hbad in H.
Qed.

Lemma utf8_decode_clean (bs : bytes) :
  ~ In replacement_char (utf8_decode bs) ->
  utf8_encode (utf8_decode bs) = Ok bs.
Proof. apply (utf8_decode_clean_bounded (length bs)). lia. Qed.

Lemma utf8_decode_ill_formed (bs : bytes) :
  (forall s, utf8_encode s <> Ok bs) -> In replacement_char (utf8_decode bs).
Proof.
  intros H.
  destruct (in_dec Z.eq_dec replacement_char (utf8_decode bs)) as [Hin|Hn];
    [assumption|].
  exfalso. apply (H (utf8_decode bs)). now apply utf8_decode_clean.
Qed.

Lemma ok_head_eq (x f : Z) (l1 l2 r bc : bytes) :
  Ok (x :: l1) = Ok bc -> Ok (bc ++ l2) = Ok (f :: r) -> f = x.
Proof. intros [= <-] [= <- _]. reflexivity. Qed.

(** The first byte of an encoded text is no continuation byte. *)
Lemma utf8_encode_head (s : pystr) (f : Z) (r : bytes) :
  utf8_encode s = Ok (f :: r) -> is_cont f = false.
Proof.
  destruct s as [|c s]; simpl; [discriminate|].
  destruct (utf8_encode_char c) as [bc|] eqn:Ec; simpl; [|discriminate].
  destruct (utf8_encode s) as [bs|]; simpl; [|discriminate].
  intros Hb. unfold utf8_encode_char in Ec. unfold is_cont.
  apply andb_false_iff.
  destruct (Z.ltb_spec c 0); [discriminate|].
  destruct (Z.ltb_spec c 0x80).
  { rewrite (ok_head_eq _ _ _ _ _ _ Ec Hb). left. apply Z.leb_gt. lia. }
  destruct (Z.ltb_spec c 0x800).
  { rewrite (ok_head_eq _ _ _ _ _ _ Ec Hb). right. apply Z.leb_gt. arith. }
  destruct (Z.ltb_spec c 0x10000).
  { destruct ((0xD800 <=? c) && (c <=? 0xDFFF)); [discriminate|].
    rewrite (ok_head_eq _ _ _ _ _ _ Ec Hb). right. apply Z.leb_gt. arith. }
  destruct (Z.ltb_spec c 0x110000); [|discriminate].
  rewrite (ok_head_eq _ _ _ _ _ _ Ec Hb). right. apply Z.leb_gt. arith.
Qed.

(** A byte from 128 on that no continuation byte follows is ill-formed
    by itself: it becomes one U+FFFD and decoding goes on after it. *)
Lemma utf8_decode_stray (b : Z) (r0 : bytes) :
  128 <= b < 256 ->
  (forall f r, r0 = f :: r -> is_cont f = false) ->
  utf8_decode (b :: r0) = replacement_char :: utf8_decode r0.
Proof.
  intros Hb Hr. cbn [utf8_decode].
  test_is ((0 <=? b) && (b <? 0x80)) false.
  destruct ((0xC2 <=? b) && (b <? 0xE0)).
  { destruct r0 as [|b1 r1]; [reflexivity|].
    now rewrite (Hr b1 r1 eq_refl). }
  assert (Hs : forall b1 r1, r0 = b1 :: r1 -> second_ok b b1 = false).
  { intros b1 r1 E. specialize (Hr b1 r1 E). unfold is_cont in Hr.
    destruct (second_ok b b1) eqn:S; [|reflexivity].
    apply second_ok_elim in S. lia. }
  destruct ((0xE0 <=? b) && (b <? 0xF0)).
  { destruct r0 as [|b1 r1]; [reflexivity|].
    now rewrite (Hs b1 r1 eq_refl). }
  destruct ((0xF0 <=? b) && (b <? 0xF5)).
  { destruct r0 as [|b1 r1]; [reflexivity|].
    now rewrite (Hs b1 r1 eq_refl). }
  reflexivity.
Qed.

Lemma utf8_decode_stray_between (s t : pystr) (bs bt : bytes) (b : Z) :
  utf8_encode s = Ok bs -> utf8_encode t = Ok bt -> 128 <= b < 256 ->
  utf8_decode (bs ++ b :: bt) = s ++ replacement_char :: t.
Proof.
  intros Hs Ht Hb.
  rewrite (utf8_decode_encode_app _ _ _ Hs). f_equal.
  rewrite utf8_decode_stray; [|assumption|].
  - now rewrite (utf8_decode_encode _ _ Ht).
  - intros f r E. subst bt. now apply utf8_encode_head in Ht.
Qed.

(** C8: [decode] raises exactly when some id has no entry in the
    vocabulary, and the exception is then KeyError.  When every id is
    present it returns a string: the lenient UTF-8 decoding of the
    concatenated entries, made of scalar values only.  Bytes that are
    the UTF-8 encoding of a string are decoded to that string; bytes
    that are the encoding of no string are never refused and always
    leave a U+FFFD in the text (a text without U+FFFD encodes back to
    the very bytes); and a byte from 128 on that stands between two
    encoded strings comes out as exactly one U+FFFD between them. *)
Theorem decode_unknown_token_id (self : Tokenizer) (ids : list Z) :
  (decode self ids = Raise KeyError
   <-> Exists (fun idx => dict_get (vocab self) idx = None) ids)
  /\ (forall e, decode self ids = Raise e -> e = KeyError)
  /\ (Forall (fun idx => dict_get (vocab self) idx <> None) ids ->
      exists text,
        decode self ids = Ok text
        /\ text = utf8_decode
                    (concat (map (fun idx =>
                                    match dict_get (vocab self) idx with
                                    | Some b => b
                                    | None => []
                                    end) ids))
        /\ Forall (fun c => is_scalar c = true) text)
  /\ (forall parts s,
         lookup_all (vocab self) ids = Ok parts ->
         utf8_encode s = Ok (concat parts) ->
         decode self ids = Ok s)
  /\ (forall parts,
         lookup_all (vocab self) ids = Ok parts ->
         (forall s, utf8_encode s <> Ok (concat parts)) ->
         exists text,
           decode self ids = Ok text /\ In replacement_char text)
  /\ (forall parts text,
         lookup_all (vocab self) ids = Ok parts ->
         decode self ids = Ok text ->
         ~ In replacement_char text ->
         utf8_encode text = Ok (concat parts))
  /\ (forall parts s t bs bt b,
         lookup_all (vocab self) ids = Ok parts ->
         concat parts = bs ++ b :: bt ->
         utf8_encode s = Ok bs -> utf8_encode t = Ok bt ->
         128 <= b < 256 ->
         decode self ids = Ok (s ++ replacement_char :: t))
  /\ decode init [0xE2; 0x82; 0x41] = Ok [replacement_char; 0x41].
Proof.
  unfold decode.
  split; [split|].
  { destruct (lookup_all (vocab self) ids) eqn:E; simpl; [discriminate|].
    intros _. now apply lookup_all_raise in E. }
  { intros H. now rewrite (lookup_all_absent _ _ H). }
  split.
  { intros e. destruct (lookup_all (vocab self) ids) eqn:E; simpl;
      [discriminate|].
    intros [= <-]. now apply lookup_all_raise in E. }
  split.
  { intros H. rewrite (lookup_all_ok _ _ H). simpl.
    eexists. split; [reflexivity|]. split; [reflexivity|].
    apply utf8_decode_scalar. }
  split.
  { intros parts s -> Hu. cbn [bind].
    now rewrite (utf8_decode_encode _ _ Hu). }
  split.
  { intros parts -> Hill. cbn [bind]. eexists. split; [reflexivity|].
    now apply utf8_decode_ill_formed. }
  split.
  { intros parts text ->. cbn [bind]. intros [= <-].
    apply utf8_decode_clean. }
  split; [|reflexivity].
  intros parts s t bs bt b -> Hc Hs Ht Hb. cbn [bind]. rewrite Hc.
  now rewrite (utf8_decode_stray_between _ _ _ _ _ Hs Ht Hb).
Qed.
(* ----------------------------------------------------------------- *)
(** ** Further properties of the code *)

Lemma count_of_set (counts : stats) (q p : Z * Z) (n : Z) :
  count_of (dict_set counts q n) p
  = if pair_eqb p q then n else count_of counts p.
Proof.
  unfold count_of.
  destruct (key_eqb_spec p q) as [->|N].
  - change (pair_eqb q q) with (key_eqb q q).
    now rewrite key_eqb_refl, dict_get_set_same.
  - change (pair_eqb p q) with (key_eqb p q).
    rewrite (key_eqb_neq _ _ N).
    rewrite dict_get_set_other; [reflexivity | congruence].
Qed.

Lemma get_stats_fold_count (pairs : list (Z * Z)) (p : Z * Z) :
  forall counts : stats,
    count_of (fold_left (fun counts p => dict_set counts p (count_of counts p + 1))
                        pairs counts) p
    = count_of counts p + Z.of_nat (length (filter (pair_eqb p) pairs)).
Proof.
  induction pairs as [|q pairs IH]; intros counts; cbn [fold_left filter].
  - simpl. lia.
  - rewrite IH, count_of_set.
    destruct (key_eqb_spec p q) as [->|N].
    + change (pair_eqb q q) with (key_eqb q q). rewrite key_eqb_refl.
      cbn [length]. lia.
    + change (pair_eqb p q) with (key_eqb p q).
      rewrite (key_eqb_neq _ _ N). lia.
Qed.

(** X2: [get_stats] counts: the entry of a pair in the returned dictionary
    is what the dictionary passed in held for it (0 when absent or
    when [None] was passed) plus the number of positions at which the
    pair occurs in [ids]; a pair is a key of the result of a call with
    [None] exactly when it occurs. *)
Theorem get_stats_counts :
  (forall ids counts pair,
      count_of (get_stats ids (Some counts)) pair
      = count_of counts pair + occurrences pair ids)
  /\ (forall ids pair,
         count_of (get_stats ids None) pair = occurrences pair ids)
  /\ (forall ids pair,
         In pair (dict_keys (get_stats ids None))
         <-> In pair (adjacent_pairs ids))
  /\ get_stats [1; 2; 3; 1; 2] None = [((1, 2), 2); ((2, 3), 1); ((3, 1), 1)].
Proof.
  split; [|split; [|split]].
  - intros ids counts pair. unfold get_stats, occurrences.
    apply get_stats_fold_count.
  - intros ids pair. unfold get_stats, occurrences.
    now rewrite get_stats_fold_count.
  - intros ids pair. apply get_stats_keys.
  - reflexivity.
Qed.

Lemma dict_set_nonempty {K V : Type} {KK : Key K} (d : dict K V) (k : K)
      (v : V) :
  dict_set d k v <> [].
Proof.
  destruct d as [|[k' v'] d]; simpl; [discriminate|].
  destruct (key_eqb k' k); discriminate.
Qed.

Lemma read_specials_nonempty (n : nat) :
  forall f acc idx s idx' rest,
    read_specials n f acc idx = Ok (s, idx', rest) ->
    n <> O \/ acc <> [] -> s <> [].
Proof.
  induction n as [|n IH]; intros f acc idx s idx' rest; simpl.
  - intros [= <- <- <-] [H|H]; [now elim H | assumption].
  - destruct (split (strip (fst (readline f)))) as [|t1 [|t2 [|t3 ts]]];
      try discriminate.
    destruct (py_int t2) eqn:E; simpl; [|discriminate].
    intros H _. apply IH in H; [assumption|].
    right. apply dict_set_nonempty.
Qed.

(** X3: [load] never returns a tokenizer that has both a special token and
    a merge: the special-token loop leaves a string in [idx], and the
    first merge line then raises at [idx += 1]. *)
Theorem load_special_tokens_or_merges (self : Tokenizer)
        (model_file content : pystr) (self' : Tokenizer) :
  load self model_file content = Returned self' ->
  special_tokens self' = [] \/ merges self' = [].
Proof.
  intros H. apply load_returned in H.
  destruct H as (n & s & idx & m & v & _ & Hs & Hm & _ & _ & _ & ->).
  cbn [merges special_tokens].
  apply read_specials_ok in Hs.
  destruct Hs as [_ [(_ & -> & ->)|(_ & t & ->)]].
  - now left.
  - right. now apply read_merges_str in Hm.
Qed.

Lemma load_special_tokens_or_merges_witness :
  load init model_name file_two_specials = Returned tokenizer_two_specials
  /\ (special_tokens tokenizer_two_specials = []
      \/ merges tokenizer_two_specials = []).
Proof.
  split; [reflexivity|].
  apply (load_special_tokens_or_merges init model_name file_two_specials).
  reflexivity.
Defined.

(** X4: The text [save] writes for a tokenizer that has both a special
    token and a merge cannot be loaded: [load] raises TypeError, having
    assigned the pattern and nothing else. *)
Theorem save_load_type_error (self prior : Tokenizer)
        (model_file content : pystr) :
  no_break (patterns self) ->
  Forall (fun name => name <> [] /\ nonspace name)
         (dict_keys (special_tokens self)) ->
  special_tokens self <> [] ->
  merges self <> [] ->
  save self = Ok content ->
  endswith model_file (str_of ".model") = true ->
  load prior model_file content
  = Raised TypeError (set_patterns prior (strip (patterns self))).
Proof.
  intros Hp Hs Hsp Hme Hsave Hname.
  assert (Hc : content = model_text self).
  { unfold save in Hsave.
    destruct (utf8_encode (model_text self)); simpl in Hsave; congruence. }
  subst content. now apply load_model_text_type_error.
Qed.

Lemma save_load_type_error_witness :
  save tokenizer_special_and_merge = Ok file_special_and_merge
  /\ load init model_name file_special_and_merge
     = Raised TypeError (set_patterns init []).
Proof.
  assert (Hs : save tokenizer_special_and_merge = Ok file_special_and_merge)
    by reflexivity.
  split; [exact Hs|].
  apply (save_load_type_error tokenizer_special_and_merge init model_name
           file_special_and_merge).
  - constructor.
  - constructor; [|constructor]. split; [discriminate|].
    repeat constructor.
  - discriminate.
  - discriminate.
  - exact Hs.
  - reflexivity.
Defined.

(** X5: [train] either raises and leaves the tokenizer as it was, or
    returns a tokenizer with the pattern and the special tokens it had
    and [vocab_size - 256] merges, numbered 256, 257, ... in the order
    they were made, whose vocabulary is the byte table extended by
    these merges.  It raises AssertionError exactly when
    [vocab_size < 256]. *)
Theorem train_outcome (documented : bool) (self : Tokenizer) (text : pystr)
        (vocab_size : Z) :
  match train_with (counts_binding documented) self text vocab_size with
  | Returned self' =>
      256 <= vocab_size
      /\ patterns self' = patterns self
      /\ special_tokens self' = special_tokens self
      /\ gap_free (merges self')
      /\ Z.of_nat (length (merges self')) = vocab_size - 256
      /\ vocab_of_merges (merges self') byte_vocab = Ok (vocab self')
  | Raised e self' =>
      self' = self /\ (e = AssertionError <-> vocab_size < 256)
  end.
Proof.
  destruct (train_with _ _ _ _) as [self'|e self'] eqn:E.
  - apply train_with_returned in E. tauto.
  - pose proof (train_with_raised _ _ _ _ _ _ E) as [-> H].
    split; [reflexivity|]. split.
    + intros ->. destruct H as [[_ H]|[_ [H|[[H _]|[H _]]]]];
        [assumption | discriminate H ..].
    + intros Hlt. destruct H as [[H _]|[H _]]; [assumption | lia].
Qed.

(** X6: On a text of at most one byte [encode] returns that byte as the
    only id (no id for the empty text), whatever the merge table; and
    [decode] of no ids is the empty text. *)
Theorem encode_short_text (self : Tokenizer) (text : pystr) (ids : bytes) :
  utf8_encode text = Ok ids -> (length ids < 2)%nat ->
  encode self text = Some (Ok ids) /\ decode self [] = Ok [].
Proof.
  intros Hu Hlen. split; [|reflexivity].
  unfold encode, encode_with. rewrite Hu.
  destruct ids as [|a [|b l]]; simpl in Hlen; try lia; reflexivity.
Qed.

Lemma encode_short_text_witness :
  utf8_encode [] = Ok []
  /\ encode tokenizer_two_merges [] = Some (Ok [])
  /\ decode tokenizer_two_merges [] = Ok [].
Proof.
  split; [reflexivity|].
  apply (encode_short_text tokenizer_two_merges [] []);
    [reflexivity | simpl; lia].
Defined.

(* ----------------------------------------------------------------- *)
(** ** More on [merge] and [get_stats] *)

Lemma merge_rec_absent (ids : list Z) (pair : Z * Z) (idx : Z) :
  ~ In pair (adjacent_pairs ids) -> merge_rec ids pair idx = ids.
Proof.
  induction ids as [| x | x y l IHl IHyl] using list_ind2; intros Hn.
  - reflexivity.
  - reflexivity.
  - rewrite merge_rec_cons2. rewrite adjacent_pairs_cons2 in Hn.
    destruct ((x =? fst pair) && (y =? snd pair)) eqn:E.
    + apply andb_true_iff in E. destruct E as [Ex Ey].
      apply Z.eqb_eq in Ex, Ey. exfalso. apply Hn. left.
      destruct pair; simpl in *; congruence.
    + f_equal. apply IHyl. intros H. apply Hn. now right.
Qed.

(** X7: When [merge] changes nothing and when it shortens: a sequence in
    which the pair does not occur comes back as it is, one in which it
    occurs comes back shorter; and merging a second time, with an id
    that is neither component of the pair, changes nothing. *)
Theorem merge_fixed_points (ids : list Z) (pair : Z * Z) (idx : Z) :
  (~ In pair (adjacent_pairs ids) -> merge ids pair idx = ids)
  /\ (In pair (adjacent_pairs ids) ->
      (length (merge ids pair idx) < length ids)%nat)
  /\ (idx <> fst pair -> idx <> snd pair ->
      merge (merge ids pair idx) pair idx = merge ids pair idx).
Proof.
  split; [|split].
  - intros H. rewrite merge_eq_rec. now apply merge_rec_absent.
  - intros H. rewrite merge_eq_rec. now apply merge_rec_shorter.
  - intros H0 H1. rewrite !merge_eq_rec.
    apply merge_rec_absent. now apply merge_rec_removes.
Qed.

Lemma merge_rec_count (ids : list Z) (pair : Z * Z) (idx : Z) :
  ~ In idx ids ->
  (length (merge_rec ids pair idx)
   + count_occ Z.eq_dec (merge_rec ids pair idx) idx = length ids)%nat.
Proof.
  induction ids as [| x | x y l IHl IHyl] using list_ind2; intros Hn.
  - reflexivity.
  - cbn [merge_rec length count_occ].
    destruct (Z.eq_dec x idx) as [->|_]; [|reflexivity].
    exfalso. apply Hn. now left.
  - rewrite merge_rec_cons2.
    destruct ((x =? fst pair) && (y =? snd pair)).
    + cbn [length count_occ]. destruct (Z.eq_dec idx idx); [|congruence].
      assert (H : ~ In idx l) by (intros H; apply Hn; now do 2 right).
      specialize (IHl H). lia.
    + cbn [length count_occ]. destruct (Z.eq_dec x idx) as [->|_].
      * exfalso. apply Hn. now left.
      * assert (H : ~ In idx (y :: l)) by (intros H; apply Hn; now right).
        specialize (IHyl H). cbn [length] in IHyl. lia.
Qed.

(** X8: What [merge] returns holds [idx] and elements of [ids], nothing
    else; and when [idx] is new to [ids], every [idx] in the result
    stands for two elements of [ids]: the lengths differ by the number
    of times [idx] occurs in the result. *)
Theorem merge_accounting (ids : list Z) (pair : Z * Z) (idx : Z) :
  Forall (fun x => x = idx \/ In x ids) (merge ids pair idx)
  /\ (~ In idx ids ->
      (length (merge ids pair idx)
       + count_occ Z.eq_dec (merge ids pair idx) idx = length ids)%nat).
Proof.
  rewrite merge_eq_rec. split.
  - apply merge_rec_forall; [|now left].
    apply Forall_forall. intros x Hx. now right.
  - apply merge_rec_count.
Qed.

Lemma get_stats_fold_total (pairs : list (Z * Z)) :
  forall counts : stats,
    fold_right Z.add 0
      (dict_values
         (fold_left (fun counts p => dict_set counts p (count_of counts p + 1))
                    pairs counts))
    = fold_right Z.add 0 (dict_values counts) + Z.of_nat (length pairs).
Proof.
  assert (Hset : forall (counts : stats) q,
             fold_right Z.add 0
               (dict_values (dict_set counts q (count_of counts q + 1)))
             = fold_right Z.add 0 (dict_values counts) + 1).
  { intros counts q. unfold count_of.
    induction counts as [|[k v] c IH]; [reflexivity|].
    cbn [dict_set dict_get].
    destruct (key_eqb k q); cbn [dict_values map fold_right snd].
    - ring.
    - unfold dict_values in IH. rewrite IH. ring. }
  induction pairs as [|q pairs IH]; intros counts; cbn [fold_left length].
  - lia.
  - rewrite IH, Hset. lia.
Qed.

(** X9: The counts of [get_stats] add up to the number of consecutive
    pairs of [ids], one less than its length (none for an empty
    sequence), on top of what the dictionary passed in held; and no
    key is listed twice. *)
Theorem get_stats_total (ids : list Z) :
  fold_right Z.add 0 (dict_values (get_stats ids None))
  = Z.of_nat (length ids - 1)
  /\ (forall counts,
         fold_right Z.add 0 (dict_values (get_stats ids (Some counts)))
         = fold_right Z.add 0 (dict_values counts)
           + Z.of_nat (length ids - 1))
  /\ NoDup (dict_keys (get_stats ids None)).
Proof.
  assert (Hlen : length (adjacent_pairs ids) = (length ids - 1)%nat).
  { unfold adjacent_pairs. rewrite length_combine.
    destruct ids as [|x l]; [reflexivity|]. cbn [tl length]. lia. }
  unfold get_stats. split; [|split].
  - rewrite get_stats_fold_total, Hlen. reflexivity.
  - intros counts. now rewrite get_stats_fold_total, Hlen.
  - generalize (adjacent_pairs ids). intros pairs.
    assert (H : forall counts : stats,
               NoDup (dict_keys counts) ->
               NoDup (dict_keys
                        (fold_left (fun counts p =>
                                      dict_set counts p (count_of counts p + 1))
                                   pairs counts))).
    { induction pairs as [|q pairs IH]; intros counts ND; [exact ND|].
      cbn [fold_left]. apply IH. now apply dict_set_keys_nodup. }
    apply H. constructor.
Qed.
(* ----------------------------------------------------------------- *)
(** ** More on [encode] and [decode] *)

Lemma adjacent_pairs_short (ids : list Z) :
  (length ids < 2)%nat -> adjacent_pairs ids = [].
Proof.
  destruct ids as [|x [|y l]]; simpl; intros H; try reflexivity; lia.
Qed.

Lemma encode_loop_output (documented : bool) (merges : dict (Z * Z) Z)
      (P : Z -> Prop) :
  (forall idx, In idx (dict_values merges) -> P idx) ->
  forall (fuel : nat) (ids ids' : list Z),
    encode_loop (counts_binding documented) fuel merges ids = Some (Ok ids') ->
    Forall P ids ->
    Forall P ids'
    /\ (forall p, In p (adjacent_pairs ids') -> dict_get merges p = None)
    /\ (length ids' <= length ids)%nat.
Proof.
  intros HP.
  induction fuel as [|fuel IH]; intros ids ids'; cbn [encode_loop].
  - destruct (Nat.ltb_spec (length ids) 2) as [H|H]; [|discriminate].
    intros [= <-] HF. split; [assumption|]. split; [|lia].
    rewrite adjacent_pairs_short by assumption. intros p [].
  - destruct (Nat.ltb_spec (length ids) 2) as [H|H].
    { intros [= <-] HF. split; [assumption|]. split; [|lia].
      rewrite adjacent_pairs_short by assumption. intros p []. }
    pose proof (encode_body_cases documented merges ids H) as Hb.
    destruct (encode_body (counts_binding documented) merges ids)
      as [ids1| |e] eqn:Eb.
    + apply encode_body_continue in Eb. destruct Eb as (p & idx & Hp & ->).
      intros Hl HF. apply IH in Hl.
      * destruct Hl as (H1 & H2 & H3). split; [assumption|].
        split; [assumption|]. pose proof (merge_length ids p idx). lia.
      * rewrite merge_eq_rec. apply merge_rec_forall; [assumption|].
        apply HP. apply dict_get_some_in in Hp.
        apply (in_map snd) in Hp. exact Hp.
    + intros [= <-] HF. split; [assumption|]. split; [assumption | lia].
    + discriminate.
Qed.

(** The ids that [encode] returns are byte values and ids of the merge
    table, no pair of neighbours among them is a key of the merge
    table, and they are at most as many as the text has bytes. *)
Theorem encode_output (documented : bool) (self : Tokenizer) (text : pystr)
        (ids : list Z) :
  encode_with (counts_binding documented) self text = Some (Ok ids) ->
  Forall (fun i => 0 <= i < 256 \/ In i (dict_values (merges self))) ids
  /\ (forall p, In p (adjacent_pairs ids) -> dict_get (merges self) p = None)
  /\ exists bs, utf8_encode text = Ok bs /\ (length ids <= length bs)%nat.
Proof.
  unfold encode_with.
  destruct (utf8_encode text) as [bs|e] eqn:Hu; [|discriminate].
  intros Hl.
  apply (encode_loop_output documented (merges self)
           (fun i => 0 <= i < 256 \/ In i (dict_values (merges self))))
    in Hl.
  - destruct Hl as (H1 & H2 & H3). split; [assumption|].
    split; [assumption|]. eauto.
  - intros idx H. now right.
  - eapply Forall_impl; [|exact (utf8_encode_bytes _ _ Hu)].
    intros b Hb. now left.
Qed.

Lemma encode_output_witness :
  encode tokenizer_two_merges (str_of "c") = Some (Ok [99])
  /\ Forall (fun i => 0 <= i < 256
                      \/ In i (dict_values (merges tokenizer_two_merges)))
            [99].
Proof.
  split; [reflexivity|].
  apply (encode_output false tokenizer_two_merges (str_of "c") [99]).
  reflexivity.
Defined.

(** X11: What [decode] returns is a string of Unicode scalar values: it can
    be encoded in UTF-8 again, and decoding those bytes gives the same
    string. *)
Theorem decode_reencodable (self : Tokenizer) (ids : list Z) (text : pystr) :
  decode self ids = Ok text ->
  exists bs, utf8_encode text = Ok bs /\ utf8_decode bs = text.
Proof.
  unfold decode.
  destruct (lookup_all (vocab self) ids) as [parts|]; [|discriminate].
  simpl. intros [= <-].
  destruct (utf8_encode_total _ (utf8_decode_scalar (concat parts)))
    as [bs Hbs].
  exists bs. split; [assumption|]. now apply utf8_decode_encode.
Qed.

Lemma decode_reencodable_witness :
  decode init [255] = Ok [replacement_char]
  /\ exists bs, utf8_encode [replacement_char] = Ok bs
                /\ utf8_decode bs = [replacement_char].
Proof.
  split; [reflexivity|].
  apply (decode_reencodable init [255] [replacement_char]). reflexivity.
Defined.

(** X12: The bytes of a text, taken as ids, decode to the text on every
    tokenizer whose vocabulary gives each byte value its own byte:
    [decode(list(text.encode("utf-8"))) == text]. *)
Theorem decode_bytes (self : Tokenizer) (text : pystr) (bs : bytes) :
  (forall b, 0 <= b < 256 -> dict_get (vocab self) b = Some [b]) ->
  utf8_encode text = Ok bs ->
  decode self bs = Ok text.
Proof.
  intros Hb Hu.
  destruct (lookup_all_bytes (vocab self) bs Hb (utf8_encode_bytes _ _ Hu))
    as (parts & Hp & Hc).
  unfold decode. rewrite Hp. simpl. rewrite Hc.
  now rewrite (utf8_decode_encode _ _ Hu).
Qed.

Lemma decode_bytes_witness :
  utf8_encode (str_of "ab") = Ok [97; 98]
  /\ decode tokenizer_two_merges [97; 98] = Ok (str_of "ab").
Proof.
  split; [reflexivity|].
  apply (decode_bytes tokenizer_two_merges (str_of "ab") [97; 98]).
  - exact (proj1 two_merges_invariant).
  - reflexivity.
Defined.

Lemma lookup_all_app (vocab : dict Z bytes) (ids1 ids2 : list Z) :
  lookup_all vocab (ids1 ++ ids2)
  = (p1 <- lookup_all vocab ids1 ;;
     p2 <- lookup_all vocab ids2 ;;
     Ok (p1 ++ p2)).
Proof.
  induction ids1 as [|i ids1 IH]; simpl.
  - destruct (lookup_all vocab ids2); reflexivity.
  - destruct (dict_index vocab i); simpl; [|reflexivity].
    rewrite IH. destruct (lookup_all vocab ids1); simpl; [|reflexivity].
    destruct (lookup_all vocab ids2); reflexivity.
Qed.

(** X13: [decode] splits after a prefix of ids whose bytes are the complete
    UTF-8 encoding of a string: the result is that string followed by
    what the other ids decode to. *)
Theorem decode_app (self : Tokenizer) (ids1 ids2 : list Z)
        (parts : list bytes) (s1 : pystr) :
  lookup_all (vocab self) ids1 = Ok parts ->
  utf8_encode s1 = Ok (concat parts) ->
  decode self (ids1 ++ ids2) = (s2 <- decode self ids2 ;; Ok (s1 ++ s2)).
Proof.
  intros Hl Hu. unfold decode. rewrite lookup_all_app, Hl. cbn [bind].
  destruct (lookup_all (vocab self) ids2) as [p2|]; [|reflexivity].
  cbn [bind]. rewrite concat_app.
  now rewrite (utf8_decode_encode_app _ _ _ Hu).
Qed.

Lemma decode_app_witness :
  lookup_all (vocab init) [104; 105] = Ok [[104]; [105]]
  /\ decode init ([104; 105] ++ [195])
     = Ok (str_of "hi" ++ [replacement_char]).
Proof.
  split; [reflexivity|].
  apply (decode_app init [104; 105] [195] [[104]; [105]] (str_of "hi"));
    reflexivity.
Defined.
(* ----------------------------------------------------------------- *)
(** ** More on [_build_vocab] *)

Lemma dict_get_in_keys {K V : Type} {KK : Key K} {KL : KeyLaws K}
      (d : dict K V) (k : K) :
  dict_get d k <> None <-> In k (dict_keys d).
Proof.
  pose proof (dict_get_none_notin d k) as H.
  destruct (dict_get d k) eqn:E.
  - split; [|discriminate]. intros _.
    apply dict_get_some_in in E. apply (in_map fst) in E. exact E.
  - split; [congruence|]. intros Hin. exfalso. now apply (proj1 H).
Qed.

Lemma byte_vocab_keys (x : Z) : In x (dict_keys byte_vocab) <-> 0 <= x < 256.
Proof.
  rewrite <- dict_get_in_keys, byte_vocab_get.
  destruct (Z.leb_spec 0 x), (Z.ltb_spec x 256); simpl;
    (split; [intros Hx; try lia; congruence | intros Hx; try lia; discriminate]).
Qed.

Lemma vocab_of_merges_keys (items : list ((Z * Z) * Z)) :
  forall (v v' : dict Z bytes) (x : Z),
    vocab_of_merges items v = Ok v' ->
    (In x (dict_keys v') <-> In x (dict_keys v) \/ In x (dict_values items)).
Proof.
  induction items as [|[p idx] items IH]; intros v v' x; simpl.
  - intros [= <-]. tauto.
  - destruct (dict_index v (fst p)); simpl; [|discriminate].
    destruct (dict_index v (snd p)); simpl; [|discriminate].
    intros H. rewrite (IH _ _ _ H), dict_set_keys_in. intuition.
Qed.

Lemma vocab_of_specials_keys (items : list (pystr * Z)) :
  forall (v v' : dict Z bytes) (x : Z),
    vocab_of_specials items v = Ok v' ->
    (In x (dict_keys v') <-> In x (dict_keys v) \/ In x (dict_values items)).
Proof.
  induction items as [|[name idx] items IH]; intros v v' x; simpl.
  - intros [= <-]. tauto.
  - destruct (utf8_encode name); simpl; [|discriminate].
    intros H. rewrite (IH _ _ _ H), dict_set_keys_in. intuition.
Qed.

(** X14: The ids of the vocabulary that [_build_vocab] returns are the 256
    byte values, the ids of the merge table and the ids of the special
    tokens, and no others. *)
Theorem build_vocab_keys (m : dict (Z * Z) Z) (s : dict pystr Z)
        (v : dict Z bytes) (x : Z) :
  _build_vocab m s = Ok v ->
  (dict_get v x <> None
   <-> 0 <= x < 256 \/ In x (dict_values m) \/ In x (dict_values s)).
Proof.
  unfold _build_vocab.
  destruct (vocab_of_merges m byte_vocab) as [v0|] eqn:Em; simpl;
    [|discriminate].
  intros Hs. rewrite dict_get_in_keys.
  rewrite (vocab_of_specials_keys _ _ _ x Hs).
  rewrite (vocab_of_merges_keys _ _ _ x Em), byte_vocab_keys. tauto.
Qed.

Lemma build_vocab_keys_witness :
  _build_vocab (merges tokenizer_two_merges) [(str_of "A", 300)]
  = Ok (vocab tokenizer_two_merges ++ [(300, [65])])
  /\ (dict_get (vocab tokenizer_two_merges ++ [(300, [65])]) 257 <> None
      <-> 0 <= 257 < 256
          \/ In 257 (dict_values (merges tokenizer_two_merges))
          \/ In 257 (dict_values [(str_of "A", 300)])).
Proof.
  split; [reflexivity|].
  apply (build_vocab_keys (merges tokenizer_two_merges) [(str_of "A", 300)]).
  reflexivity.
Defined.

Lemma in_values_cons {K : Type} (k : K) (j x : Z) (m : list (K * Z)) :
  In x (dict_values ((k, j) :: m)) <-> x = j \/ In x (dict_values m).
Proof. simpl. split; intros [H|H]; auto. Qed.

Lemma vocab_of_merges_succeeds (items : list ((Z * Z) * Z)) :
  forall v : dict Z bytes,
    (exists v', vocab_of_merges items v = Ok v')
    <-> (forall m1 p idx m2,
            items = m1 ++ (p, idx) :: m2 ->
            (In (fst p) (dict_keys v) \/ In (fst p) (dict_values m1))
            /\ (In (snd p) (dict_keys v) \/ In (snd p) (dict_values m1))).
Proof.
  induction items as [|[q j] items IH]; intros v.
  - split; [|simpl; eauto]. intros _ m1 p idx m2 E.
    destruct m1; discriminate E.
  - cbn [vocab_of_merges]. unfold dict_index. split.
    + intros [v' H] m1 p idx m2 E.
      destruct (dict_get v (fst q)) as [b0|] eqn:E0; simpl in H;
        [|discriminate].
      destruct (dict_get v (snd q)) as [b1|] eqn:E1; simpl in H;
        [|discriminate].
      destruct m1 as [|[q' j'] m1]; simpl in E.
      * injection E as -> -> ->.
        split; left; apply dict_get_in_keys; congruence.
      * injection E as -> -> E.
        destruct (proj1 (IH _) (ex_intro _ v' H) m1 p idx m2 E) as [Ha Hb].
        rewrite !dict_set_keys_in in Ha, Hb.
        rewrite !in_values_cons. tauto.
    + intros H.
      destruct (H [] q j items eq_refl) as [[Ha|[]] [Hb|[]]].
      apply dict_get_in_keys in Ha, Hb.
      destruct (dict_get v (fst q)) as [b0|]; [|congruence].
      destruct (dict_get v (snd q)) as [b1|]; [|congruence].
      simpl. apply IH. intros m1 p idx m2 E.
      destruct (H ((q, j) :: m1) p idx m2) as [Hc Hd];
        [simpl; now rewrite E|].
      rewrite !dict_set_keys_in.
      rewrite !in_values_cons in Hc, Hd. tauto.
Qed.

Lemma vocab_of_specials_succeeds (items : list (pystr * Z)) :
  forall v : dict Z bytes,
    (exists v', vocab_of_specials items v = Ok v')
    <-> Forall (fun name => Forall (fun c => is_scalar c = true) name)
               (dict_keys items).
Proof.
  induction items as [|[name idx] items IH]; intros v; simpl.
  - split; [constructor | eauto].
  - split.
    + intros [v' H].
      destruct (utf8_encode name) as [b|] eqn:E; simpl in H; [|discriminate].
      constructor.
      * now apply utf8_encode_scalar in E.
      * apply (IH (dict_set v idx b)). eauto.
    + intros H. inversion H as [|? ? Hn Hr]; subst.
      destruct (utf8_encode_total _ Hn) as [b ->]. simpl.
      now apply IH.
Qed.

(** X15: [_build_vocab] returns a vocabulary exactly when every merge joins
    two ids that are byte values or ids of merges before it in the
    table, and no special-token name holds a surrogate; otherwise it
    raises (KeyError for the merge, UnicodeEncodeError for the name). *)
Theorem build_vocab_succeeds (m : dict (Z * Z) Z) (s : dict pystr Z) :
  (exists v, _build_vocab m s = Ok v)
  <-> ((forall m1 p idx m2,
           m = m1 ++ (p, idx) :: m2 ->
           (0 <= fst p < 256 \/ In (fst p) (dict_values m1))
           /\ (0 <= snd p < 256 \/ In (snd p) (dict_values m1)))
       /\ Forall (fun name => Forall (fun c => is_scalar c = true) name)
                 (dict_keys s)).
Proof.
  unfold _build_vocab. split.
  - intros [v H].
    destruct (vocab_of_merges m byte_vocab) as [v0|] eqn:Em; simpl in H;
      [|discriminate].
    split.
    + intros m1 p idx m2 E.
      destruct (proj1 (vocab_of_merges_succeeds m byte_vocab)
                      (ex_intro _ v0 Em) m1 p idx m2 E) as [Ha Hb].
      rewrite !byte_vocab_keys in Ha, Hb. tauto.
    + apply (vocab_of_specials_succeeds s v0). eauto.
  - intros [Hm Hs].
    destruct (proj2 (vocab_of_merges_succeeds m byte_vocab)) as [v0 ->].
    + intros m1 p idx m2 E. rewrite !byte_vocab_keys. exact (Hm m1 p idx m2 E).
    + simpl. now apply vocab_of_specials_succeeds.
Qed.

(** X16: After a [load] that returns, the id of a special token decodes to
    the name of the token, unless a later special token has the same
    id. *)
Theorem load_special_token_decodes (self : Tokenizer)
        (model_file content : pystr) (self' : Tokenizer)
        (s1 s2 : list (pystr * Z)) (name : pystr) (idx : Z) :
  load self model_file content = Returned self' ->
  special_tokens self' = s1 ++ (name, idx) :: s2 ->
  ~ In idx (dict_values s2) ->
  decode self' [idx] = Ok name.
Proof.
  intros H Es Hn. apply load_returned in H.
  destruct H as (n & s & i & m & v & _ & _ & _ & Hv & _ & _ & ->).
  cbn [special_tokens] in Es. subst s.
  destruct (build_vocab_special _ _ _ _ _ _ Hv Hn) as (b & Hu & Hg).
  unfold decode. cbn [vocab lookup_all]. unfold dict_index. rewrite Hg.
  simpl. rewrite app_nil_r. now rewrite (utf8_decode_encode _ _ Hu).
Qed.

Lemma load_special_token_decodes_witness :
  load init model_name file_two_specials = Returned tokenizer_two_specials
  /\ decode tokenizer_two_specials [300] = Ok (str_of "B").
Proof.
  split; [reflexivity|].
  apply (load_special_token_decodes init model_name file_two_specials
           tokenizer_two_specials [(str_of "A", 300)] [] (str_of "B") 300).
  - reflexivity.
  - reflexivity.
  - simpl. tauto.
Defined.
(* ----------------------------------------------------------------- *)
(** ** [load]: failures of [_build_vocab] *)

(** X17: However [load] fails, the vocabulary is the one of before.  When
    it fails with AssertionError nothing has changed; when it fails
    with KeyError or UnicodeEncodeError, the pattern, the merge table
    and the special tokens are those of the file, and they are tables
    from which [_build_vocab] cannot build a vocabulary. *)
Theorem load_failure_modes (self : Tokenizer) (model_file content : pystr)
        (e : exn) (self' : Tokenizer) :
  load self model_file content = Raised e self' ->
  vocab self' = vocab self
  /\ (e = AssertionError -> self' = self)
  /\ (e = KeyError \/ e = UnicodeEncodeError ->
      patterns self' = pattern_line content
      /\ _build_vocab (merges self') (special_tokens self') = Raise e).
Proof.
  unfold load.
  destruct (endswith model_file (str_of ".model")); simpl.
  2:{ intros [= <- <-]. split; [reflexivity|]. split; [reflexivity|].
      intros [H|H]; discriminate H. }
  destruct (str_eqb _ VERSION); simpl.
  2:{ intros [= <- <-]. split; [reflexivity|]. split; [reflexivity|].
      intros [H|H]; discriminate H. }
  fold (pattern_line content). fold (count_line content).
  destruct (py_int _) as [n|e1] eqn:En.
  2:{ intros [= <- <-]. apply py_int_raise in En. subst e1.
      split; [reflexivity|]. split; [discriminate|].
      intros [H|H]; discriminate H. }
  destruct (read_specials _ _ _ _) as [[[s idx] rest]|e1] eqn:Es.
  2:{ intros [= <- <-]. apply read_specials_raise in Es. subst e1.
      split; [reflexivity|]. split; [discriminate|].
      intros [H|H]; discriminate H. }
  destruct (read_merges _ _ _) as [m|e1] eqn:Em.
  2:{ intros [= <- <-]. apply read_merges_raise in Em.
      split; [reflexivity|].
      destruct Em as [-> | ->];
        (split; [discriminate | intros [H|H]; discriminate H]). }
  destruct (_build_vocab m s) as [v|e1] eqn:Ev; [discriminate|].
  intros [= <- <-].
  cbn [vocab merges special_tokens patterns set_tables set_patterns].
  pose proof (build_vocab_raise _ _ _ Ev) as He.
  split; [reflexivity|]. split.
  - intros ->. destruct He; discriminate.
  - intros _. split; [reflexivity | assumption].
Qed.

Lemma load_failure_modes_witness :
  load init model_name file_unknown_id = Raised KeyError tokenizer_unknown_id
  /\ vocab tokenizer_unknown_id = vocab init
  /\ (KeyError = AssertionError -> tokenizer_unknown_id = init)
  /\ (KeyError = KeyError \/ KeyError = UnicodeEncodeError ->
      patterns tokenizer_unknown_id = pattern_line file_unknown_id
      /\ _build_vocab (merges tokenizer_unknown_id)
                      (special_tokens tokenizer_unknown_id)
         = Raise KeyError).
Proof.
  split; [reflexivity|].
  apply (load_failure_modes init model_name file_unknown_id).
  reflexivity.
Defined.

(* ----------------------------------------------------------------- *)
(** ** [encode] as the code stands *)

(** X1: On a tokenizer whose vocabulary gives each byte value its own
    byte, [decode(encode(text))] is [text] exactly for the texts of at
    most one byte: for these [encode] returns, and for no others. *)
Theorem encode_decode_round_trip (self : Tokenizer) (text : pystr) :
  (forall b, 0 <= b < 256 -> dict_get (vocab self) b = Some [b]) ->
  ((exists ids, encode self text = Some (Ok ids)
                /\ decode self ids = Ok text)
   <-> (exists bs, utf8_encode text = Ok bs /\ (length bs < 2)%nat)).
Proof.
  intros Hb. unfold encode, encode_with. split.
  - intros (ids & He & _).
    destruct (utf8_encode text) as [bs|] eqn:Hu; [|discriminate].
    exists bs. split; [reflexivity|].
    destruct bs as [|a [|b l]]; simpl; try lia. discriminate He.
  - intros (bs & Hu & Hlen). rewrite Hu. exists bs. split.
    + destruct bs as [|a [|b l]]; simpl in Hlen; try lia; reflexivity.
    + destruct (lookup_all_bytes (vocab self) bs Hb
                  (utf8_encode_bytes _ _ Hu)) as (parts & Hp & Hc).
      unfold decode. rewrite Hp. simpl. rewrite Hc.
      now rewrite (utf8_decode_encode _ _ Hu).
Qed.

Lemma encode_decode_round_trip_witness :
  exists ids, encode tokenizer_two_merges (str_of "c") = Some (Ok ids)
              /\ decode tokenizer_two_merges ids = Ok (str_of "c").
Proof.
  apply (proj2 (encode_decode_round_trip tokenizer_two_merges (str_of "c")
                  (proj1 two_merges_invariant))).
  exists [99]. split; [reflexivity | simpl; lia].
Defined.

(** X10: How a call of [encode] ends: it returns the UTF-8 bytes of the
    text as they are, and these are fewer than two, so that no id of
    the merge table is ever returned; or it raises
    UnicodeEncodeError, when the text cannot be encoded; or it raises
    TypeError, when the text has two bytes or more. *)
Theorem encode_outcome (self : Tokenizer) (text : pystr) :
  match encode self text with
  | Some (Ok ids) =>
      utf8_encode text = Ok ids /\ (length ids < 2)%nat
      /\ Forall (fun i => 0 <= i < 256) ids
  | Some (Raise e) =>
      (e = UnicodeEncodeError /\ utf8_encode text = Raise UnicodeEncodeError)
      \/ (e = TypeError
          /\ exists bs, utf8_encode text = Ok bs /\ (2 <= length bs)%nat)
  | None => False
  end.
Proof.
  unfold encode, encode_with.
  destruct (utf8_encode text) as [bs|e] eqn:Hu.
  - pose proof (utf8_encode_bytes _ _ Hu) as Hbytes.
    destruct bs as [|a [|b l]].
    + simpl. repeat split; [lia | constructor].
    + simpl. repeat split; [lia | assumption].
    + right. split; [reflexivity|]. eexists. split; [reflexivity|].
      simpl. lia.
  - left. apply utf8_encode_raise in Hu. subst e. split; reflexivity.
Qed.

(* ----------------------------------------------------------------- *)
(** ** Rendering: [replace_control_characters] and [render_token] *)

Lemma hex_chars_alphabet (u : Hexadecimal.uint) :
  Forall (fun c => In c escape_alphabet) (hex_chars u).
Proof.
  induction u; cbn [hex_chars]; constructor; try assumption;
    vm_compute; tauto.
Qed.

Lemma format_04x_alphabet (n : Z) :
  0 <= n -> Forall (fun c => In c escape_alphabet) (format_04x n).
Proof.
  intros H. unfold format_04x.
  destruct (Z.ltb_spec n 0) as [Hn|_]; [lia|].
  cbn [app]. apply Forall_app. split.
  - apply Forall_forall. intros c Hc. apply repeat_spec in Hc. subst c.
    vm_compute. tauto.
  - apply hex_chars_alphabet.
Qed.

Lemma format_04x_length (n : Z) : (4 <= length (format_04x n))%nat.
Proof.
  unfold format_04x. rewrite !length_app, repeat_length.
  destruct (n <? 0); cbn [length]; lia.
Qed.

Section RenderingFacts.

Variable category : Z -> unicodedata.general_category.

Lemma escape_alphabet_only (ch : Z) :
  0 <= ch -> Forall (fun c => In c escape_alphabet) (escape ch).
Proof.
  intros H. unfold escape. apply Forall_app. split.
  - repeat constructor; vm_compute; tauto.
  - now apply format_04x_alphabet.
Qed.

Lemma escape_length (ch : Z) : (6 <= length (escape ch))%nat.
Proof.
  unfold escape. rewrite length_app.
  pose proof (format_04x_length ch). cbn [length]. lia.
Qed.

Lemma replace_control_characters_cons (ch : Z) (text : pystr) :
  replace_control_characters category (ch :: text)
  = (if negb (is_other category ch) then [ch] else escape ch)
      ++ replace_control_characters category text.
Proof. reflexivity. Qed.

Lemma replace_control_characters_app (a b : pystr) :
  replace_control_characters category (a ++ b)
  = replace_control_characters category a
      ++ replace_control_characters category b.
Proof.
  unfold replace_control_characters. now rewrite map_app, concat_app.
Qed.

Lemma replace_control_characters_id (text : pystr) :
  Forall (fun ch => is_other category ch = false) text ->
  replace_control_characters category text = text.
Proof.
  induction 1 as [|ch text Hc _ IH]; [reflexivity|].
  rewrite replace_control_characters_cons, Hc, IH. reflexivity.
Qed.

Lemma replace_control_characters_length (text : pystr) :
  (length text <= length (replace_control_characters category text))%nat
  /\ (length (replace_control_characters category text) = length text ->
      Forall (fun ch => is_other category ch = false) text).
Proof.
  induction text as [|ch text [IH1 IH2]]; [split; [apply Nat.le_refl | constructor]|].
  rewrite replace_control_characters_cons, length_app.
  destruct (is_other category ch) eqn:E; cbn [negb length].
  - pose proof (escape_length ch) as He. split; [lia|]. intros H. exfalso. lia.
  - split; [lia|]. intros H. constructor; [assumption|]. apply IH2. lia.
Qed.

(** X18: [replace_control_characters] never shortens a text, and returns
    the text as it is exactly when none of its characters is of a
    category C. *)
Theorem replace_control_characters_unchanged (text : pystr) :
  (length text <= length (replace_control_characters category text))%nat
  /\ (replace_control_characters category text = text
      <-> Forall (fun ch => is_other category ch = false) text).
Proof.
  split; [apply replace_control_characters_length|]. split.
  - intros H. apply replace_control_characters_length. now rewrite H.
  - apply replace_control_characters_id.
Qed.

(** X19: When the characters an escape is written with are of no category
    C, as in Unicode, the result holds no character of a category C,
    and replacing once more changes nothing; so a control character
    and its escape written out are replaced by the same string. *)
Theorem replace_control_characters_idempotent (text : pystr) :
  Forall (fun c => is_other category c = false) escape_alphabet ->
  Forall (fun ch => 0 <= ch) text ->
  Forall (fun c => is_other category c = false)
         (replace_control_characters category text)
  /\ replace_control_characters category
       (replace_control_characters category text)
     = replace_control_characters category text.
Proof.
  intros Hesc Hpos.
  assert (H : Forall (fun c => is_other category c = false)
                     (replace_control_characters category text)).
  { induction Hpos as [|ch text Hc _ IH]; [constructor|].
    rewrite replace_control_characters_cons. apply Forall_app.
    split; [|assumption].
    destruct (is_other category ch) eqn:E; cbn [negb].
    - eapply Forall_impl; [|exact (escape_alphabet_only ch Hc)].
      intros c Hin. rewrite Forall_forall in Hesc. now apply Hesc.
    - now constructor. }
  split; [assumption|]. now apply replace_control_characters_id.
Qed.

(** X20: A token that is the UTF-8 encoding of a text without characters of
    a category C is rendered as that text. *)
Theorem render_token_text (text : pystr) (token : bytes) :
  utf8_encode text = Ok token ->
  Forall (fun ch => is_other category ch = false) text ->
  render_token category token = text.
Proof.
  intros Hu Hc. unfold render_token.
  rewrite (utf8_decode_encode _ _ Hu).
  now apply replace_control_characters_id.
Qed.

Lemma utf8_decode_lone_byte (b : Z) :
  128 <= b < 256 -> utf8_decode [b] = [replacement_char].
Proof.
  intros H.
  assert (Hall : forallb (fun n => str_eqb (utf8_decode [Z.of_nat n])
                                           [replacement_char])
                         (seq 128 128) = true) by (vm_compute; reflexivity).
  rewrite forallb_forall in Hall.
  specialize (Hall (Z.to_nat b)). rewrite Z2Nat.id in Hall by lia.
  apply str_eqb_eq. apply Hall. apply in_seq. lia.
Qed.

(** X21: Rendering is lossy: the 128 one-byte tokens from 128 on are all
    rendered alike, as the replacement character is. *)
Theorem render_token_lossy (b1 b2 : Z) :
  128 <= b1 < 256 -> 128 <= b2 < 256 ->
  render_token category [b1] = render_token category [b2].
Proof.
  intros H1 H2. unfold render_token.
  now rewrite !utf8_decode_lone_byte.
Qed.

End RenderingFacts.

Lemma category_ascii_alphabet :
  Forall (fun c => is_other category_ascii c = false) escape_alphabet.
Proof. repeat constructor. Qed.

Lemma replace_control_characters_idempotent_witness :
  replace_control_characters category_ascii (str_of "a" ++ [10])
  = str_of "a\u000a"
  /\ replace_control_characters category_ascii (str_of "a\u000a")
     = str_of "a\u000a".
Proof.
  split; [reflexivity|].
  apply (replace_control_characters_idempotent category_ascii
           (str_of "a" ++ [10])).
  - exact category_ascii_alphabet.
  - repeat constructor; discriminate.
Defined.

Lemma render_token_text_witness :
  utf8_encode (str_of "hello world") = Ok (str_of "hello world")
  /\ render_token category_ascii (str_of "hello world")
     = str_of "hello world".
Proof.
  split; [reflexivity|].
  apply (render_token_text category_ascii (str_of "hello world")
           (str_of "hello world")).
  - reflexivity.
  - repeat constructor.
Defined.

Lemma render_token_lossy_witness :
  render_token category_ascii [128] = render_token category_ascii [255].
Proof.
  apply (render_token_lossy category_ascii 128 255); lia.
Defined.

(* ----------------------------------------------------------------- *)
(** ** [save]: the two files *)

Lemma utf8_encode_app (a b : pystr) :
  utf8_encode (a ++ b)
  = (x <- utf8_encode a ;; y <- utf8_encode b ;; Ok (x ++ y)).
Proof.
  induction a as [|c a IH]; simpl.
  - destruct (utf8_encode b); reflexivity.
  - destruct (utf8_encode_char c); simpl; [|reflexivity].
    rewrite IH. destruct (utf8_encode a); simpl; [|reflexivity].
    destruct (utf8_encode b); simpl; [|reflexivity].
    now rewrite app_assoc.
Qed.

(** Writing lines that are all there: the file holds all of them when
    the text can be encoded, and writing stops with UnicodeEncodeError
    otherwise. *)
Lemma write_lines_ok (ls : list pystr) :
  match utf8_encode (concat ls) with
  | Ok _ => write_lines (map Ok ls) = (concat ls, None)
  | Raise e =>
      e = UnicodeEncodeError
      /\ snd (write_lines (map Ok ls)) = Some UnicodeEncodeError
  end.
Proof.
  induction ls as [|l ls IH]; [reflexivity|].
  cbn [concat map write_lines bind]. rewrite utf8_encode_app.
  destruct (utf8_encode l) as [b|e] eqn:El; cbn [bind].
  - destruct (utf8_encode (concat ls)) as [bs|e]; cbn [bind].
    + now rewrite IH.
    + destruct IH as [-> IH]. split; [reflexivity|]. exact IH.
  - apply utf8_encode_raise in El. subst e. split; reflexivity.
Qed.

Lemma unlines_concat (ls : list pystr) :
  unlines ls = concat (map (fun l => l ++ [10]) ls).
Proof. unfold unlines. now rewrite flat_map_concat_map. Qed.

Lemma uint_chars_scalar (u : Decimal.uint) :
  Forall (fun c => is_scalar c = true) (uint_chars u).
Proof. induction u; simpl; constructor; auto. Qed.

Lemma str_of_int_scalar (n : Z) :
  Forall (fun c => is_scalar c = true) (str_of_int n).
Proof.
  unfold str_of_int. destruct (Z.to_int n).
  - apply uint_chars_scalar.
  - constructor; [reflexivity | apply uint_chars_scalar].
Qed.

Lemma escape_alphabet_scalar :
  Forall (fun c => is_scalar c = true) escape_alphabet.
Proof. repeat constructor. Qed.

Section SaveFacts.

Variable category : Z -> unicodedata.general_category.

Lemma render_token_scalar (token : bytes) :
  Forall (fun c => is_scalar c = true) (render_token category token).
Proof.
  unfold render_token. generalize (utf8_decode_scalar token).
  generalize (utf8_decode token). intros text.
  induction 1 as [|ch text Hc _ IH]; [constructor|].
  rewrite replace_control_characters_cons. apply Forall_app.
  split; [|assumption].
  destruct (is_other category ch); cbn [negb]; [|now constructor].
  assert (Hpos : 0 <= ch).
  { unfold is_scalar in Hc. lia. }
  eapply Forall_impl; [|exact (escape_alphabet_only ch Hpos)].
  intros c Hin. pose proof escape_alphabet_scalar as Ha.
  rewrite Forall_forall in Ha. now apply Ha.
Qed.

(** A line of the listing can always be encoded; computing it raises
    nothing but KeyError. *)
Lemma vocab_line_cases (self : Tokenizer) (item : Z * bytes) :
  match vocab_line category self item with
  | Ok s => exists bs, utf8_encode s = Ok bs
  | Raise e => e = KeyError
  end.
Proof.
  unfold vocab_line.
  destruct (dict_get (inverted_merges (merges self)) (fst item))
    as [children|].
  - unfold dict_index.
    destruct (dict_get (vocab self) (fst children)) as [t0|];
      cbn [bind]; [|reflexivity].
    destruct (dict_get (vocab self) (snd children)) as [t1|];
      cbn [bind]; [|reflexivity].
    apply utf8_encode_total.
    repeat (apply Forall_app; split);
      try apply render_token_scalar; try apply str_of_int_scalar;
      repeat constructor.
  - apply utf8_encode_total.
    repeat (apply Forall_app; split);
      try apply render_token_scalar; try apply str_of_int_scalar;
      repeat constructor.
Qed.

Lemma write_lines_listing (self : Tokenizer) (items : list (Z * bytes)) :
  match snd (write_lines (map (vocab_line category self) items)) with
  | None =>
      exists lines,
        map (vocab_line category self) items = map Ok lines
        /\ fst (write_lines (map (vocab_line category self) items))
           = concat lines
  | Some e =>
      e = KeyError
      /\ Exists (fun item => vocab_line category self item = Raise KeyError)
                items
  end.
Proof.
  induction items as [|item items IH]; [exists []; split; reflexivity|].
  cbn [map write_lines].
  pose proof (vocab_line_cases self item) as Hl.
  destruct (vocab_line category self item) as [s|e] eqn:El; cbn [bind].
  - destruct Hl as [bs ->]. cbn [bind fst snd].
    destruct (snd (write_lines (map (vocab_line category self) items)))
      as [e|].
    + destruct IH as [-> IH]. split; [reflexivity|]. now right.
    + destruct IH as (lines & Hm & Hc). exists (s :: lines).
      cbn [map concat]. split; [now rewrite Hm | now rewrite Hc].
  - subst e. cbn [snd]. split; [reflexivity|]. now left.
Qed.

Lemma save_model_text (self : Tokenizer) :
  match utf8_encode (model_text self) with
  | Ok _ => save self = Ok (model_text self)
  | Raise _ => save self = Raise UnicodeEncodeError
  end.
Proof.
  unfold save. destruct (utf8_encode (model_text self)) eqn:E; [reflexivity|].
  apply utf8_encode_raise in E. now subst.
Qed.

Lemma write_lines_model (self : Tokenizer) :
  match utf8_encode (model_text self) with
  | Ok _ =>
      write_lines (map (fun l => Ok (l ++ [10])) (model_lines self))
      = (model_text self, None)
  | Raise e =>
      e = UnicodeEncodeError
      /\ snd (write_lines (map (fun l => Ok (l ++ [10])) (model_lines self)))
         = Some UnicodeEncodeError
  end.
Proof.
  pose proof (write_lines_ok (map (fun l => l ++ [10]) (model_lines self)))
    as Hm.
  rewrite map_map in Hm. rewrite <- unlines_concat in Hm. exact Hm.
Qed.

(** X22: How a call of [save] can end, and what it has written by then. *)
Theorem save_files_outcome (self : Tokenizer) (file_prefix : pystr) :
  match snd (save_files category self file_prefix) with
  | None =>
      save self = Ok (model_text self)
      /\ exists lines,
           map (vocab_line category self) (vocab self) = map Ok lines
           /\ fst (save_files category self file_prefix)
              = [(file_prefix ++ str_of ".model", model_text self);
                 (file_prefix ++ str_of ".vocab", concat lines)]
  | Some e =>
      (e = UnicodeEncodeError
       /\ save self = Raise UnicodeEncodeError
       /\ exists written,
            fst (save_files category self file_prefix)
            = [(file_prefix ++ str_of ".model", written)])
      \/ (e = KeyError
          /\ save self = Ok (model_text self)
          /\ Exists (fun item => vocab_line category self item
                                 = Raise KeyError) (vocab self)
          /\ exists written,
               fst (save_files category self file_prefix)
               = [(file_prefix ++ str_of ".model", model_text self);
                  (file_prefix ++ str_of ".vocab", written)])
  end.
Proof.
  unfold save_files.
  pose proof (write_lines_model self) as Hm.
  pose proof (save_model_text self) as Hs.
  destruct (utf8_encode (model_text self)) as [bs|e].
  - rewrite Hm. cbn [fst snd].
    pose proof (write_lines_listing self (vocab self)) as Hl.
    destruct (snd (write_lines (map (vocab_line category self) (vocab self))))
      as [e|].
    + right. destruct Hl as [-> Hl]. repeat split; eauto.
    + split; [assumption|]. destruct Hl as (lines & Hl & ->). eauto.
  - destruct Hm as [-> Hm]. rewrite Hm. cbn [fst snd]. left.
    repeat split; eauto.
Qed.

Lemma inverted_merges_in (m : dict (Z * Z) Z) (idx : Z) (p : Z * Z) :
  dict_get (inverted_merges m) idx = Some p -> In (p, idx) m.
Proof.
  unfold inverted_merges.
  assert (H : forall (acc : dict Z (Z * Z)),
             dict_get
               (fold_left (fun inv item => dict_set inv (snd item) (fst item))
                          m acc) idx = Some p ->
             In (p, idx) m \/ dict_get acc idx = Some p).
  { induction m as [|[q j] m IH]; intros acc; cbn [fold_left]; [auto|].
    intros H. apply IH in H. destruct H as [H|H]; [left; now right|].
    cbn [fst snd] in H.
    destruct (Z.eq_dec j idx) as [->|N].
    - rewrite dict_get_set_same in H. injection H as ->. left. now left.
    - rewrite dict_get_set_other in H by assumption. now right. }
  intros Hg. destruct (H [] Hg) as [Hin|Hin]; [assumption | discriminate].
Qed.

(** X23: [save] completes, with a listing of one line per entry of the
    vocabulary, when the model text can be encoded and the vocabulary
    has an entry for both ids of every merge. *)
Theorem save_files_completes (self : Tokenizer) (file_prefix text : pystr) :
  save self = Ok text ->
  (forall p idx, In (p, idx) (merges self) ->
                 dict_get (vocab self) (fst p) <> None
                 /\ dict_get (vocab self) (snd p) <> None) ->
  exists lines,
    map (vocab_line category self) (vocab self) = map Ok lines
    /\ save_files category self file_prefix
       = ([(file_prefix ++ str_of ".model", text);
           (file_prefix ++ str_of ".vocab", concat lines)], None).
Proof.
  intros Hsave Hch.
  pose proof (write_lines_listing self (vocab self)) as Hlist.
  assert (Hnone : forall items,
             ~ Exists (fun item => vocab_line category self item
                                   = Raise KeyError) items).
  { intros items Hex. apply Exists_exists in Hex.
    destruct Hex as (item & _ & Hr). unfold vocab_line in Hr.
    destruct (dict_get (inverted_merges (merges self)) (fst item))
      as [children|] eqn:Ei; [|discriminate].
    apply inverted_merges_in in Ei. apply Hch in Ei.
    destruct Ei as [H0 H1]. unfold dict_index in Hr.
    destruct (dict_get (vocab self) (fst children)); [|congruence].
    destruct (dict_get (vocab self) (snd children)); [|congruence].
    discriminate. }
  assert (Ht : text = model_text self /\ exists bs,
               utf8_encode (model_text self) = Ok bs).
  { unfold save in Hsave.
    destruct (utf8_encode (model_text self)) as [bs|]; simpl in Hsave;
      [|discriminate].
    injection Hsave as <-. eauto. }
  destruct Ht as [-> [bs Hbs]].
  unfold save_files.
  pose proof (write_lines_model self) as Hm.
  rewrite Hbs in Hm. rewrite Hm.
  cbn [fst snd].
  destruct (snd (write_lines (map (vocab_line category self) (vocab self))))
    as [e|] eqn:Es.
  - exfalso. destruct Hlist as [_ Hex].
    now apply (Hnone (vocab self)).
  - destruct Hlist as (lines & Hl & Hc).
    exists lines. split; [assumption|]. now rewrite Hc.
Qed.

End SaveFacts.






Lemma save_files_completes_witness :
  save tokenizer_two_merges = Ok (model_text tokenizer_two_merges)
  /\ exists lines,
      map (vocab_line category_ascii tokenizer_two_merges)
          (vocab tokenizer_two_merges) = map Ok lines
      /\ save_files category_ascii tokenizer_two_merges (str_of "tok")
         = ([(str_of "tok" ++ str_of ".model",
              model_text tokenizer_two_merges);
             (str_of "tok" ++ str_of ".vocab", concat lines)], None).
Proof.
  split; [reflexivity|].
  apply (save_files_completes category_ascii tokenizer_two_merges
           (str_of "tok") (model_text tokenizer_two_merges)).
  - reflexivity.
  - intros p idx [[= <- <-]|[[= <- <-]|[]]]; split; discriminate.
Defined.

(* ----------------------------------------------------------------- *)
(** ** [load]: line endings *)

Lemma universal_newlines_crlf (s : pystr) :
  Forall (fun c => c <> 13) s -> universal_newlines (crlf s) = s.
Proof.
  induction 1 as [|c s Hc _ IH]; [reflexivity|].
  unfold crlf in *. cbn [flat_map].
  destruct (Z.eqb_spec c 10) as [->|N].
  - cbn [app universal_newlines]. cbn. now rewrite IH.
  - cbn [app universal_newlines].
    destruct (Z.eqb_spec c 13); [contradiction|]. now rewrite IH.
Qed.

Lemma universal_newlines_cr (s : pystr) :
  Forall (fun c => c <> 13) s -> universal_newlines (cr s) = s.
Proof.
  induction 1 as [|c s Hc _ IH]; [reflexivity|].
  unfold cr in *. cbn [map].
  destruct (Z.eqb_spec c 10) as [->|N].
  - cbn [universal_newlines]. change (13 =? 13) with true. cbv iota.
    f_equal. destruct s as [|c' s']; [reflexivity|].
    cbn [map] in *.
    destruct (Z.eqb_spec c' 10) as [->|N'].
    + change (13 =? 10) with false. cbv iota. exact IH.
    + destruct (Z.eqb_spec c' 10); [contradiction|]. exact IH.
  - cbn [universal_newlines].
    destruct (Z.eqb_spec c 13); [contradiction|]. now rewrite IH.
Qed.

(** X25: [load] reads a model file the same whether its lines end in "\n",
    in "\r\n" or in "\r". *)
Theorem load_line_endings (self : Tokenizer) (model_file content : pystr) :
  Forall (fun c => c <> 13) content ->
  load self model_file (crlf content) = load self model_file content
  /\ load self model_file (cr content) = load self model_file content.
Proof.
  intros H. unfold load.
  rewrite (universal_newlines_crlf _ H), (universal_newlines_cr _ H),
    (universal_newlines_id _ H).
  split; reflexivity.
Qed.

Lemma load_line_endings_witness :
  load init model_name (crlf file_two_merges) = Returned tokenizer_two_merges
  /\ load init model_name (cr file_two_merges) = Returned tokenizer_two_merges.
Proof.
  apply (load_line_endings init model_name file_two_merges).
  repeat constructor; discriminate.
Defined.
